(** * AI-Enhanced Snake Game: the decision-making core

    A shallow embedding of three classes of the game's AI layer and the
    properties of them that the specification states:

    - [DifficultyManager] (src/js/ai/DifficultyManager.js): the adaptive
      speed controller;
    - [DangerPredictor] (src/js/ai/HintSystem.js): per-cell danger scoring;
    - [PathfindingEngine] (src/js/ai/HintSystem.js): A* search and the
      ranking of fallback moves.

    Conventions.  Grid coordinates, scores and times in milliseconds are
    JavaScript numbers that hold integers; they are modelled as [Z].
    Quotients of integers (averages, the area ratio) are modelled as exact
    rationals [Q].  A [Set] or [Map] keyed by the string [`${x},${y}`] is
    modelled as a [gset] or [gmap] keyed by the position itself: on integer
    coordinates the string key is injective.  Loops that JavaScript runs
    until a condition fails are modelled with fuel; [None] marks exhausted
    fuel, and the theorems show it never arises. *)

From Stdlib Require Import ZArith List Lia QArith Qround Qminmax Reals Lra String Sorted.
From stdpp Require Import gmap.

Local Open Scope Z_scope.

Set Warnings "-clear-no-such-hyp".

(** A grid position, the object [{x, y}] of the source. *)
Record Pos : Type := mkPos { x : Z; y : Z }.

#[global] Instance Pos_eq_dec : EqDecision Pos.
Proof. solve_decision. Defined.

#[global] Instance Pos_countable : Countable Pos.
Proof.
  refine (inj_countable' (fun p => (x p, y p)) (fun q => mkPos (fst q) (snd q)) _).
  intros []; reflexivity.
Defined.

(** ** DifficultyManager *)

Module Difficulty.

(** Configuration set once by the constructor and never reassigned. *)
Definition baseSpeed : Z := 150.
Definition minSpeed : Z := 50.
Definition maxSpeed : Z := 300.
Definition maxHistoryLength : nat := 10.
Definition speedIncreaseThreshold : Z := 3.
Definition speedDecreaseThreshold : Z := 2.
Definition speedAdjustmentAmount : Z := 15.

(** The argument of [recordGameEnd]. *)
Record GameStats : Type := mkGameStats {
  stats_score : Z;
  stats_length : Z;
  stats_survivalTime : Z;
  stats_foodCollected : Z
}.

(** An entry of [performanceHistory]. *)
Record GameData : Type := mkGameData {
  score : Z;
  snakeLength : Z;
  survivalTime : Z;
  foodCollected : Z;
  averageCollectionTime : Q;
  finalSpeed : Z;
  timestamp : Z
}.

(** The mutable fields of a [DifficultyManager] instance. *)
Record DifficultyManager : Type := mkDifficultyManager {
  performanceHistory : list GameData;
  currentSpeed : Z;
  consecutiveSuccesses : Z;
  recentDeaths : Z;
  gameStartTime : Z;
  lastFoodTime : Z;
  foodCollectionTimes : list Z
}.

(** The state the constructor builds when nothing was saved. *)
Definition initial : DifficultyManager :=
  {| performanceHistory := [];
     currentSpeed := baseSpeed;
     consecutiveSuccesses := 0;
     recentDeaths := 0;
     gameStartTime := 0;
     lastFoodTime := 0;
     foodCollectionTimes := [] |}.

Definition set_currentSpeed (v : Z) (dm : DifficultyManager) : DifficultyManager :=
  {| performanceHistory := performanceHistory dm;
     currentSpeed := v;
     consecutiveSuccesses := consecutiveSuccesses dm;
     recentDeaths := recentDeaths dm;
     gameStartTime := gameStartTime dm;
     lastFoodTime := lastFoodTime dm;
     foodCollectionTimes := foodCollectionTimes dm |}.

Definition set_consecutiveSuccesses (v : Z) (dm : DifficultyManager) : DifficultyManager :=
  {| performanceHistory := performanceHistory dm;
     currentSpeed := currentSpeed dm;
     consecutiveSuccesses := v;
     recentDeaths := recentDeaths dm;
     gameStartTime := gameStartTime dm;
     lastFoodTime := lastFoodTime dm;
     foodCollectionTimes := foodCollectionTimes dm |}.

Definition set_recentDeaths (v : Z) (dm : DifficultyManager) : DifficultyManager :=
  {| performanceHistory := performanceHistory dm;
     currentSpeed := currentSpeed dm;
     consecutiveSuccesses := consecutiveSuccesses dm;
     recentDeaths := v;
     gameStartTime := gameStartTime dm;
     lastFoodTime := lastFoodTime dm;
     foodCollectionTimes := foodCollectionTimes dm |}.

Definition set_performanceHistory (v : list GameData) (dm : DifficultyManager)
  : DifficultyManager :=
  {| performanceHistory := v;
     currentSpeed := currentSpeed dm;
     consecutiveSuccesses := consecutiveSuccesses dm;
     recentDeaths := recentDeaths dm;
     gameStartTime := gameStartTime dm;
     lastFoodTime := lastFoodTime dm;
     foodCollectionTimes := foodCollectionTimes dm |}.

(** [increaseDifficulty]: a lower delay is a harder game.  The boolean
    says whether the speed changed. *)
Definition increaseDifficulty (dm : DifficultyManager) : DifficultyManager * bool :=
  let oldSpeed := currentSpeed dm in
  let dm' := set_currentSpeed (Z.max minSpeed (currentSpeed dm - speedAdjustmentAmount)) dm in
  (dm', negb (currentSpeed dm' =? oldSpeed)).

(** [decreaseDifficulty]. *)
Definition decreaseDifficulty (dm : DifficultyManager) : DifficultyManager * bool :=
  let oldSpeed := currentSpeed dm in
  let dm' := set_currentSpeed (Z.min maxSpeed (currentSpeed dm + speedAdjustmentAmount)) dm in
  (dm', negb (currentSpeed dm' =? oldSpeed)).

Definition sumZ (l : list Z) : Z := fold_left Z.add l 0.

(** [calculateAverageCollectionTime]. *)
Definition calculateAverageCollectionTime (dm : DifficultyManager) : Q :=
  match foodCollectionTimes dm with
  | [] => 0%Q
  | times => (inject_Z (sumZ times) / inject_Z (Z.of_nat (length times)))%Q
  end.

Definition Qltb (a b : Q) : bool := negb (Qle_bool b a).

(** [Array.prototype.slice(-n)]: the last [n] elements, or all of them. *)
Definition slice_last {A : Type} (n : nat) (l : list A) : list A :=
  skipn (length l - n) l.

(** [recordFoodCollection(score, length)]; [now] is what [Date.now()]
    returns.  The write to [localStorage] is outside the model. *)
Definition recordFoodCollection (now : Z) (score_ length_ : Z) (dm : DifficultyManager)
  : DifficultyManager :=
  let timeSinceLastFood := now - lastFoodTime dm in
  let dm1 :=
    {| performanceHistory := performanceHistory dm;
       currentSpeed := currentSpeed dm;
       consecutiveSuccesses := consecutiveSuccesses dm + 1;
       recentDeaths := recentDeaths dm;
       gameStartTime := gameStartTime dm;
       lastFoodTime := now;
       foodCollectionTimes := foodCollectionTimes dm ++ [timeSinceLastFood] |} in
  if speedIncreaseThreshold <=? consecutiveSuccesses dm1
  then set_consecutiveSuccesses 0 (fst (increaseDifficulty dm1))
  else dm1.

(** [analyzePerformanceAndAdjust(currentGameData)]. *)
Definition analyzePerformanceAndAdjust (currentGameData : GameData) (dm : DifficultyManager)
  : DifficultyManager :=
  if (length (performanceHistory dm) <? 2)%nat then dm
  else
    let recentGames := slice_last 3 (performanceHistory dm) in
    let n := inject_Z (Z.of_nat (length recentGames)) in
    let averageScore := (inject_Z (sumZ (map score recentGames)) / n)%Q in
    let averageSurvival := (inject_Z (sumZ (map survivalTime recentGames)) / n)%Q in
    let isStruggling :=
      Qltb averageScore 50 || Qltb averageSurvival 10000
      || (speedDecreaseThreshold <=? recentDeaths dm) in
    let isPerformingWell :=
      Qltb 100 averageScore && Qltb 30000 averageSurvival
      && Qltb (averageCollectionTime currentGameData) 3000 in
    if isStruggling then set_recentDeaths 0 (fst (decreaseDifficulty dm))
    else if isPerformingWell && (recentDeaths dm =? 0) then fst (increaseDifficulty dm)
    else dm.

(** [recordGameEnd(gameStats)]. *)
Definition recordGameEnd (now : Z) (gameStats : GameStats) (dm : DifficultyManager)
  : DifficultyManager :=
  let gameData :=
    {| score := stats_score gameStats;
       snakeLength := stats_length gameStats;
       survivalTime := stats_survivalTime gameStats;
       foodCollected := stats_foodCollected gameStats;
       averageCollectionTime := calculateAverageCollectionTime dm;
       finalSpeed := currentSpeed dm;
       timestamp := now |} in
  let pushed := performanceHistory dm ++ [gameData] in
  let history := if (maxHistoryLength <? length pushed)%nat then tail pushed else pushed in
  let dm1 := set_performanceHistory history dm in
  let dm2 := set_consecutiveSuccesses 0 dm1 in
  let dm3 := set_recentDeaths (recentDeaths dm2 + 1) dm2 in
  analyzePerformanceAndAdjust gameData dm3.

(** The two triggers, as events of a run. *)
Inductive Event : Type :=
| FoodCollected (now score_ length_ : Z)
| GameEnded (now : Z) (gameStats : GameStats).

Definition step (dm : DifficultyManager) (ev : Event) : DifficultyManager :=
  match ev with
  | FoodCollected now s l => recordFoodCollection now s l dm
  | GameEnded now gs => recordGameEnd now gs dm
  end.

Definition run (dm : DifficultyManager) (evs : list Event) : DifficultyManager :=
  fold_left step evs dm.

(** [getCurrentSpeed]. *)
Definition getCurrentSpeed (dm : DifficultyManager) : Z := currentSpeed dm.

(** [getDifficultyLevel].  For an integer speed the quotient times 9 is an
    integer or at least 1/250 away from one, so the floor of the double
    equals the floor of the exact rational. *)
Definition getDifficultyLevel (dm : DifficultyManager) : Z :=
  let speedRange := maxSpeed - minSpeed in
  let currentRange := maxSpeed - currentSpeed dm in
  let level := Qfloor ((inject_Z currentRange / inject_Z speedRange) * 9)%Q + 1 in
  Z.max 1 (Z.min 10 level).

(** [setSpeed(speed)]. *)
Definition setSpeed (speed : Z) (dm : DifficultyManager) : DifficultyManager :=
  set_currentSpeed (Z.max minSpeed (Z.min maxSpeed speed)) dm.

(** [resetDifficulty]. *)
Definition resetDifficulty (dm : DifficultyManager) : DifficultyManager :=
  {| performanceHistory := [];
     currentSpeed := baseSpeed;
     consecutiveSuccesses := 0;
     recentDeaths := 0;
     gameStartTime := gameStartTime dm;
     lastFoodTime := lastFoodTime dm;
     foodCollectionTimes := foodCollectionTimes dm |}.

(** [initializeGame]; [now] is what [Date.now()] returns. *)
Definition initializeGame (now : Z) (dm : DifficultyManager) : DifficultyManager :=
  {| performanceHistory := performanceHistory dm;
     currentSpeed := if (length (performanceHistory dm) =? 0)%nat
                     then baseSpeed else currentSpeed dm;
     consecutiveSuccesses := consecutiveSuccesses dm;
     recentDeaths := recentDeaths dm;
     gameStartTime := now;
     lastFoodTime := now;
     foodCollectionTimes := [] |}.

(** The result of [getPerformanceStats]; the object built for an empty
    history has no [currentSpeed] field. *)
Record PerformanceStats : Type := mkPerformanceStats {
  gamesPlayed : nat;
  averageScore : Q;
  averageSurvival : Q;
  bestScore : Z;
  currentDifficulty : Z;
  statsCurrentSpeed : option Z
}.

(** [Math.max(first, ...rest)]. *)
Definition mathMax (first : Z) (rest : list Z) : Z := fold_left Z.max rest first.

(** [getPerformanceStats]. *)
Definition getPerformanceStats (dm : DifficultyManager) : PerformanceStats :=
  match performanceHistory dm with
  | [] =>
      {| gamesPlayed := 0; averageScore := 0; averageSurvival := 0; bestScore := 0;
         currentDifficulty := getDifficultyLevel dm; statsCurrentSpeed := None |}
  | game :: games =>
      let scores := map score (game :: games) in
      let survivals := map survivalTime (game :: games) in
      {| gamesPlayed := length (game :: games);
         averageScore := (inject_Z (sumZ scores) / inject_Z (Z.of_nat (length scores)))%Q;
         averageSurvival :=
           (inject_Z (sumZ survivals) / inject_Z (Z.of_nat (length survivals)))%Q;
         bestScore := mathMax (score game) (map score games);
         currentDifficulty := getDifficultyLevel dm;
         statsCurrentSpeed := Some (currentSpeed dm) |}
  end.

(** The object that [savePerformanceData] serialises. *)
Record SavedData : Type := mkSavedData {
  saved_currentSpeed : Z;
  saved_performanceHistory : list GameData;
  saved_consecutiveSuccesses : Z;
  saved_recentDeaths : Z;
  saved_lastUpdated : Z;
  saved_version : string
}.

(** What [localStorage.getItem('snakeDifficultyData')] holds: nothing, a
    string that [JSON.parse] rejects, or an object of the shape that
    [savePerformanceData] writes. *)
Inductive StoredItem : Type :=
| NoItem
| Unparsable
| Item (data : SavedData).

(** [savePerformanceData]: the object handed to [JSON.stringify]. *)
Definition savePerformanceData (now : Z) (dm : DifficultyManager) : SavedData :=
  {| saved_currentSpeed := currentSpeed dm;
     saved_performanceHistory := performanceHistory dm;
     saved_consecutiveSuccesses := consecutiveSuccesses dm;
     saved_recentDeaths := recentDeaths dm;
     saved_lastUpdated := now;
     saved_version := "1.0" |}.

(** [loadPerformanceData].  A missing item returns early; a parse error is
    caught before any field is assigned.  [data.currentSpeed && ...] is
    false for the number 0. *)
Definition loadPerformanceData (stored : StoredItem) (dm : DifficultyManager)
  : DifficultyManager :=
  match stored with
  | NoItem => dm
  | Unparsable => dm
  | Item data =>
      let dm1 :=
        if negb (saved_currentSpeed data =? 0)
           && (minSpeed <=? saved_currentSpeed data)
           && (saved_currentSpeed data <=? maxSpeed)
        then set_currentSpeed (saved_currentSpeed data) dm else dm in
      let dm2 :=
        set_performanceHistory
          (slice_last maxHistoryLength (saved_performanceHistory data)) dm1 in
      let dm3 :=
        if 0 <=? saved_consecutiveSuccesses data
        then set_consecutiveSuccesses
               (Z.min (saved_consecutiveSuccesses data) speedIncreaseThreshold) dm2
        else dm2 in
      if 0 <=? saved_recentDeaths data
      then set_recentDeaths (Z.min (saved_recentDeaths data) speedDecreaseThreshold) dm3
      else dm3
  end.

(** The constructor: the default fields, then [loadPerformanceData]. *)
Definition construct (stored : StoredItem) : DifficultyManager :=
  loadPerformanceData stored initial.

End Difficulty.

(** ** DangerPredictor *)

Module Danger.

(** The [direction] field of a danger zone: one of the four moves, or
    ['trap'] for a zone found by the corridor scan. *)
Inductive Label : Type := Up | Down | Left | Right | Trap.

#[global] Instance Label_eq_dec : EqDecision Label.
Proof. solve_decision. Defined.

Record DangerZone : Type := mkDangerZone {
  position : Pos;
  level : Z;
  direction : Label;
  reason : string
}.

Record DangerPredictor : Type := mkDangerPredictor {
  boardWidth : Z;
  boardHeight : Z;
  dangerZones : list DangerZone;
  enabled : bool
}.

Definition set_dangerZones (zs : list DangerZone) (dp : DangerPredictor) : DangerPredictor :=
  {| boardWidth := boardWidth dp;
     boardHeight := boardHeight dp;
     dangerZones := zs;
     enabled := enabled dp |}.

(** [isValidPosition]. *)
Definition isValidPosition (dp : DangerPredictor) (pos : Pos) : bool :=
  (0 <=? x pos) && (x pos <? boardWidth dp) && (0 <=? y pos) && (y pos <? boardHeight dp).

(** [new Set(snakeBody.map(p => `${p.x},${p.y}`))]. *)
Definition obstacleSet (snakeBody : list Pos) : gset Pos := list_to_set snakeBody.

Definition blocked (dp : DangerPredictor) (obstacles : gset Pos) (pos : Pos) : bool :=
  negb (isValidPosition dp pos) || bool_decide (pos ∈ obstacles).

(** [countEscapeRoutes]: the four offsets in the order of the source. *)
Definition offsets : list (Z * Z) := [(0, -1); (0, 1); (-1, 0); (1, 0)].

Definition countEscapeRoutes (dp : DangerPredictor) (pos : Pos) (obstacles : gset Pos) : Z :=
  fold_left
    (fun routes d =>
       let nextPos := mkPos (x pos + fst d) (y pos + snd d) in
       if isValidPosition dp nextPos && negb (bool_decide (nextPos ∈ obstacles))
       then routes + 1 else routes)
    offsets 0.

(** [calculateWallProximity]. *)
Definition calculateWallProximity (dp : DangerPredictor) (pos : Pos) : Z :=
  let nearX := (x pos <=? 1) || (boardWidth dp - 2 <=? x pos) in
  let nearY := (y pos <=? 1) || (boardHeight dp - 2 <=? y pos) in
  (if x pos <=? 1 then 1 else 0)
  + (if boardWidth dp - 2 <=? x pos then 1 else 0)
  + (if y pos <=? 1 then 1 else 0)
  + (if boardHeight dp - 2 <=? y pos then 1 else 0)
  + (if nearX && nearY then 1 else 0).

Definition manhattan (a b : Pos) : Z := Z.abs (x a - x b) + Z.abs (y a - y b).

(** [calculateBodyProximity]. *)
Definition calculateBodyProximity (pos : Pos) (snakeBody : list Pos) : Z :=
  let closeSegments :=
    fold_left (fun n segment => if manhattan pos segment <=? 2 then n + 1 else n)
              snakeBody 0 in
  Z.min 4 closeSegments.

Definition maxCount : Z := 100.

(** The [while] loop of [floodFillCount].  Each round takes one cell off
    the queue and either skips it or counts it and queues its four
    neighbours. *)
Fixpoint floodFill_loop (dp : DangerPredictor) (obstacles : gset Pos) (fuel : nat)
    (visited : gset Pos) (queue : list Pos) (count : Z) : option Z :=
  match fuel with
  | O => None
  | S fuel' =>
      match queue with
      | [] => Some count
      | pos :: rest =>
          if count <? maxCount then
            if bool_decide (pos ∈ visited) || bool_decide (pos ∈ obstacles)
               || negb (isValidPosition dp pos)
            then floodFill_loop dp obstacles fuel' visited rest count
            else floodFill_loop dp obstacles fuel' ({[pos]} ∪ visited)
                   (rest ++ [mkPos (x pos + 1) (y pos); mkPos (x pos - 1) (y pos);
                             mkPos (x pos) (y pos + 1); mkPos (x pos) (y pos - 1)])
                   (count + 1)
          else Some count
      end
  end.

(** A round either shortens the queue by one or counts a cell, and at most
    100 cells are counted: 401 rounds at most. *)
Definition floodFill_fuel : nat := 402.

(** [floodFillCount]. *)
Definition floodFillCount (dp : DangerPredictor) (start : Pos) (obstacles : gset Pos)
  : option Z :=
  floodFill_loop dp obstacles floodFill_fuel ∅ [start] 0.

(** [a / b < q] on JavaScript numbers, for an integer [a >= 0], an integer
    [b] and a decimal literal [q].  When [b] is 0 the quotient is
    [Infinity] or [NaN] and the comparison is false.  Otherwise the double
    quotient is compared as the exact one: [a] is at most 100, so no
    quotient other than [q] itself rounds to the double of [q]. *)
Definition ratio_lt (a b : Z) (q : Q) : bool :=
  if b =? 0 then false
  else negb (Qle_bool q (inject_Z a / inject_Z b)).

(** [calculateDangerLevel]. *)
Definition calculateDangerLevel (dp : DangerPredictor) (pos : Pos) (snakeBody : list Pos)
    (foodPosition : Pos) : option Z :=
  let obstacles := obstacleSet snakeBody in
  let escapeRoutes := countEscapeRoutes dp pos obstacles in
  let danger1 :=
    if escapeRoutes =? 0 then 100
    else if escapeRoutes =? 1 then 60
    else if escapeRoutes =? 2 then 30
    else 0 in
  let wallProximity := calculateWallProximity dp pos in
  let danger2 := danger1 + wallProximity * 10 in
  let bodyProximity := calculateBodyProximity pos snakeBody in
  let danger3 := danger2 + bodyProximity * 15 in
  reachableArea ← floodFillCount dp pos obstacles;
  let totalArea := boardWidth dp * boardHeight dp - Z.of_nat (length snakeBody) in
  let danger4 :=
    if ratio_lt reachableArea totalArea (1 # 10) then danger3 + 50
    else if ratio_lt reachableArea totalArea (3 # 10) then danger3 + 25
    else danger3 in
  let currentDistToFood := manhattan pos foodPosition in
  let danger5 := if 10 <? currentDistToFood then danger4 + 5 else danger4 in
  Some (Z.min 100 danger5).

(** [getDangerReason]. *)
Definition getDangerReason (lvl : Z) : string :=
  if 80 <=? lvl then "CRITICAL: Dead end!"%string
  else if 60 <=? lvl then "HIGH: Limited escape"%string
  else if 40 <=? lvl then "MEDIUM: Risky area"%string
  else if 20 <=? lvl then "LOW: Be careful"%string
  else "Slight risk"%string.

Definition directions : list (Z * Z * Label) :=
  [(0, -1, Up); (0, 1, Down); (-1, 0, Left); (1, 0, Right)].

(** The first loop of [analyze], over the four adjacent cells. *)
Fixpoint analyze_adjacent (dp : DangerPredictor) (snakeHead : Pos) (snakeBody : list Pos)
    (foodPosition : Pos) (dirs : list (Z * Z * Label)) (zones : list DangerZone)
  : option (list DangerZone) :=
  match dirs with
  | [] => Some zones
  | (dx, dy, name) :: dirs' =>
      let nextPos := mkPos (x snakeHead + dx) (y snakeHead + dy) in
      if blocked dp (obstacleSet snakeBody) nextPos
      then analyze_adjacent dp snakeHead snakeBody foodPosition dirs' zones
      else
        dangerLevel ← calculateDangerLevel dp nextPos snakeBody foodPosition;
        analyze_adjacent dp snakeHead snakeBody foodPosition dirs'
          (if 0 <? dangerLevel
           then zones ++ [mkDangerZone nextPos dangerLevel name (getDangerReason dangerLevel)]
           else zones)
  end.

(** The cells probed by [detectCorridorTraps], in the order of its two
    nested loops: distance 2, 3, 4 and right, left, down, up. *)
Definition corridorProbes (snakeHead : Pos) : list Pos :=
  flat_map
    (fun distance =>
       [mkPos (x snakeHead + distance) (y snakeHead);
        mkPos (x snakeHead - distance) (y snakeHead);
        mkPos (x snakeHead) (y snakeHead + distance);
        mkPos (x snakeHead) (y snakeHead - distance)])
    [2; 3; 4].

(** [detectCorridorTraps]. *)
Definition detectCorridorTraps (dp : DangerPredictor) (snakeHead : Pos)
    (snakeBody : list Pos) : DangerPredictor :=
  let obstacles := obstacleSet snakeBody in
  let zones :=
    fold_left
      (fun zones pos =>
         if negb (isValidPosition dp pos) then zones
         else if countEscapeRoutes dp pos obstacles <=? 1 then
           match find (fun z => bool_decide (position z = pos)) zones with
           | Some _ => zones
           | None => zones ++ [mkDangerZone pos 40 Trap "Potential trap ahead"%string]
           end
         else zones)
      (corridorProbes snakeHead) (dangerZones dp) in
  set_dangerZones zones dp.

(** [analyze]: the new state of the predictor. *)
Definition analyze (dp : DangerPredictor) (snakeHead : Pos) (snakeBody : list Pos)
    (foodPosition : Pos) : option DangerPredictor :=
  if negb (enabled dp) then Some (set_dangerZones [] dp)
  else
    zones ← analyze_adjacent dp snakeHead snakeBody foodPosition directions [];
    Some (detectCorridorTraps (set_dangerZones zones dp) snakeHead snakeBody).

(** A danger value of [getSafestDirection]: [lowestDanger] starts as
    [Infinity]. *)
Inductive DangerValue : Type := Infinity | Finite (d : Z).

Definition danger_lt (d : Z) (lowest : DangerValue) : bool :=
  match lowest with
  | Infinity => true
  | Finite l => d <? l
  end.

Record Safest : Type := mkSafest {
  safestDirection : option Label;
  dangerLevel : DangerValue
}.

(** [getSafestDirection]; its two arguments are not used by the source. *)
Definition getSafestDirection (dp : DangerPredictor) : Safest :=
  fold_left
    (fun acc dir =>
       let danger :=
         match find (fun z => bool_decide (direction z = dir)) (dangerZones dp) with
         | Some zone => level zone
         | None => 0
         end in
       if danger_lt danger (dangerLevel acc)
       then mkSafest (Some dir) (Finite danger)
       else acc)
    [Up; Down; Left; Right]
    (mkSafest None Infinity).

End Danger.

(** ** PathfindingEngine *)

Module Pathfinding.

Record PathfindingEngine : Type := mkPathfindingEngine {
  boardWidth : Z;
  boardHeight : Z
}.

(** [isValidPosition]. *)
Definition isValidPosition (e : PathfindingEngine) (position : Pos) : bool :=
  (0 <=? x position) && (x position <? boardWidth e)
  && (0 <=? y position) && (y position <? boardHeight e).

(** The offsets of [getNeighbors]: up, down, left, right. *)
Definition directionOffsets : list (Z * Z) := [(0, -1); (0, 1); (-1, 0); (1, 0)].

(** [getNeighbors]. *)
Definition getNeighbors (e : PathfindingEngine) (position : Pos) : list Pos :=
  List.filter (isValidPosition e)
    (map (fun dir => mkPos (x position + fst dir) (y position + snd dir)) directionOffsets).

(** [heuristic]: the Manhattan distance. *)
Definition heuristic (pos1 pos2 : Pos) : Z :=
  Z.abs (x pos1 - x pos2) + Z.abs (y pos1 - y pos2).

(** [node.x === neighbor.x && node.y === neighbor.y]. *)
Definition samePosition (a b : Pos) : bool := (x a =? x b) && (y a =? y b).

(** The local variables of [findPath] that the search loop updates. *)
Record SearchState : Type := mkSearchState {
  openSet : list Pos;
  closedSet : gset Pos;
  gScore : gmap Pos Z;
  fScore : gmap Pos Z;
  cameFrom : gmap Pos Pos
}.

(** [a < b] where either side may be [undefined], the result of [Map.get]
    on a missing key: the comparison is then false. *)
Definition js_lt (a b : option Z) : bool :=
  match a, b with
  | Some a', Some b' => a' <? b'
  | _, _ => false
  end.

(** The scan for the node with the lowest fScore: [nodes] are the entries
    from index [i] on, [current] is the best entry so far, found at
    [currentIndex].  A later entry wins only when strictly lower. *)
Fixpoint selectLowest (fScore_ : gmap Pos Z) (nodes : list Pos) (i : nat)
    (current : Pos) (currentIndex : nat) : Pos * nat :=
  match nodes with
  | [] => (current, currentIndex)
  | node :: rest =>
      if js_lt (fScore_ !! node) (fScore_ !! current)
      then selectLowest fScore_ rest (S i) node i
      else selectLowest fScore_ rest (S i) current currentIndex
  end.

(** The loop of [reconstructPath]: follow [cameFrom] and put each parent
    in front of the path. *)
Fixpoint reconstruct_loop (fuel : nat) (cameFrom_ : gmap Pos Pos) (currentKey : Pos)
    (path : list Pos) : option (list Pos) :=
  match fuel with
  | O => None
  | S fuel' =>
      match cameFrom_ !! currentKey with
      | Some parent => reconstruct_loop fuel' cameFrom_ parent (parent :: path)
      | None => Some path
      end
  end.

(** [reconstructPath].  The parents met are distinct keys of [cameFrom],
    so its size bounds the number of rounds. *)
Definition reconstructPath (cameFrom_ : gmap Pos Pos) (current : Pos) : option (list Pos) :=
  reconstruct_loop (S (size cameFrom_)) cameFrom_ current [current].

(** The body of the loop over the neighbours of [current].  [None] stands
    for reading the gScore of a node that has none. *)
Definition relax (target : Pos) (obstacleSet : gset Pos) (current : Pos)
    (st : SearchState) (neighbor : Pos) : option SearchState :=
  if bool_decide (neighbor ∈ closedSet st) || bool_decide (neighbor ∈ obstacleSet)
  then Some st
  else
    gCurrent ← gScore st !! current;
    let tentativeGScore := gCurrent + 1 in
    let openSet' :=
      if existsb (fun node => samePosition node neighbor) (openSet st)
      then openSet st
      else openSet st ++ [neighbor] in
    let worse :=
      match gScore st !! neighbor with
      | Some gNeighbor => gNeighbor <=? tentativeGScore
      | None => false
      end in
    if worse
    then Some {| openSet := openSet';
                 closedSet := closedSet st;
                 gScore := gScore st;
                 fScore := fScore st;
                 cameFrom := cameFrom st |}
    else Some {| openSet := openSet';
                 closedSet := closedSet st;
                 gScore := <[neighbor := tentativeGScore]> (gScore st);
                 fScore := <[neighbor := tentativeGScore + heuristic neighbor target]>
                             (fScore st);
                 cameFrom := <[neighbor := current]> (cameFrom st) |}.

Fixpoint relaxAll (target : Pos) (obstacleSet : gset Pos) (current : Pos)
    (st : SearchState) (neighbors : list Pos) : option SearchState :=
  match neighbors with
  | [] => Some st
  | neighbor :: rest =>
      st' ← relax target obstacleSet current st neighbor;
      relaxAll target obstacleSet current st' rest
  end.

(** The [while (openSet.length > 0)] loop.  The outer [option] is [None]
    when the model gives up (fuel, or a missing score); the inner one is
    the result of the source, [None] for [null]. *)
Fixpoint search (e : PathfindingEngine) (target : Pos) (obstacleSet : gset Pos)
    (fuel : nat) (st : SearchState) : option (option (list Pos)) :=
  match fuel with
  | O => None
  | S fuel' =>
      match openSet st with
      | [] => Some None
      | first :: rest =>
          let '(current, currentIndex) := selectLowest (fScore st) rest 1 first 0 in
          let st1 := {| openSet := delete currentIndex (openSet st);
                        closedSet := {[current]} ∪ closedSet st;
                        gScore := gScore st;
                        fScore := fScore st;
                        cameFrom := cameFrom st |} in
          if samePosition current target
          then path ← reconstructPath (cameFrom st1) current; Some (Some path)
          else
            st2 ← relaxAll target obstacleSet current st1 (getNeighbors e current);
            search e target obstacleSet fuel' st2
      end
  end.

(** Every round closes a cell of the board that was not closed before. *)
Definition searchFuel (e : PathfindingEngine) : nat :=
  S (Z.to_nat (boardWidth e * boardHeight e)).

Definition initialState (start target : Pos) : SearchState :=
  {| openSet := [start];
     closedSet := ∅;
     gScore := {[start := 0]};
     fScore := {[start := heuristic start target]};
     cameFrom := ∅ |}.

(** [findPath(start, target, obstacles)]. *)
Definition findPath (e : PathfindingEngine) (start target : Pos) (obstacles : list Pos)
  : option (option (list Pos)) :=
  if negb (isValidPosition e start) || negb (isValidPosition e target) then Some None
  else
    let obstacleSet : gset Pos := list_to_set obstacles in
    if bool_decide (target ∈ obstacleSet) then Some None
    else search e target obstacleSet (searchFuel e) (initialState start target).

(** *** Fallback suggestions *)

Inductive Direction : Type := Up | Down | Left | Right.

#[global] Instance Direction_eq_dec : EqDecision Direction.
Proof. solve_decision. Defined.

(** [getMovePosition]. *)
Definition getMovePosition (position : Pos) (direction : Direction) : Pos :=
  match direction with
  | Up => mkPos (x position) (y position - 1)
  | Down => mkPos (x position) (y position + 1)
  | Left => mkPos (x position - 1) (y position)
  | Right => mkPos (x position + 1) (y position)
  end.

(** [findSafeMoves]. *)
Definition findSafeMoves (e : PathfindingEngine) (position : Pos) (obstacles : list Pos)
  : list Direction :=
  let obstacleSet : gset Pos := list_to_set obstacles in
  let moves :=
    [(Up, mkPos (x position) (y position - 1));
     (Down, mkPos (x position) (y position + 1));
     (Left, mkPos (x position - 1) (y position));
     (Right, mkPos (x position + 1) (y position))] in
  map fst
    (List.filter
       (fun move => isValidPosition e (snd move)
                    && negb (bool_decide (snd move ∈ obstacleSet)))
       moves).

(** [calculateSpaceScore]. *)
Definition calculateSpaceScore (e : PathfindingEngine) (position : Pos)
    (obstacles : list Pos) : nat :=
  let obstacleSet : gset Pos := list_to_set obstacles in
  length (List.filter (fun neighbor => negb (bool_decide (neighbor ∈ obstacleSet)))
                      (getNeighbors e position)).

(** [calculateCenterScore].  JavaScript numbers are doubles; a score is
    modelled as the real number its expression denotes. *)
Definition calculateCenterScore (e : PathfindingEngine) (position : Pos) : R :=
  let centerX := (IZR (boardWidth e) / 2)%R in
  let centerY := (IZR (boardHeight e) / 2)%R in
  let maxDistance := Rmax centerX centerY in
  let distance :=
    sqrt ((IZR (x position) - centerX) ^ 2 + (IZR (y position) - centerY) ^ 2)%R in
  Rmax 0 (4 - (distance / maxDistance) * 4)%R.

(** [calculateMobilityScore]. *)
Definition calculateMobilityScore (e : PathfindingEngine) (position : Pos)
    (obstacles : list Pos) : R :=
  let obstacleSet : gset Pos := list_to_set obstacles in
  let totalFutureMoves :=
    fold_left
      (fun total neighbor =>
         if negb (bool_decide (neighbor ∈ obstacleSet)) then
           let futureMoves :=
             length (List.filter
                       (fun fn => negb (bool_decide (fn ∈ obstacleSet))
                                  && negb (samePosition fn position))
                       (getNeighbors e neighbor)) in
           (total + futureMoves)%nat
         else total)
      (getNeighbors e position) 0%nat in
  Rmin 4 (INR totalFutureMoves / 2)%R.

(** [calculateMoveScore]. *)
Definition calculateMoveScore (e : PathfindingEngine) (movePos target : Pos)
    (obstacles : list Pos) : R :=
  let distanceToTarget := heuristic movePos target in
  let spaceScore := calculateSpaceScore e movePos obstacles in
  let centerScore := calculateCenterScore e movePos in
  let mobilityScore := calculateMobilityScore e movePos obstacles in
  (Rmax 0 (50 - IZR distanceToTarget) + INR spaceScore * 10 + centerScore * 5
   + mobilityScore * 15)%R.

Definition Rgtb (a b : R) : bool := if Rlt_dec b a then true else false.

Fixpoint join (sep : string) (l : list string) : string :=
  match l with
  | [] => EmptyString
  | [s] => s
  | s :: rest => (s ++ sep ++ join sep rest)%string
  end.

(** [getMoveReasoning]. *)
Definition getMoveReasoning (e : PathfindingEngine) (movePos target : Pos)
    (obstacles : list Pos) (score : R) : string :=
  let distance := heuristic movePos target in
  let spaceScore := calculateSpaceScore e movePos obstacles in
  let r1 := if distance <=? 3 then ["close to food"%string]
            else if 10 <? distance then ["far from food"%string] else [] in
  let r2 := if (3 <=? spaceScore)%nat then ["good open space"%string]
            else if (spaceScore <=? 1)%nat then ["limited space"%string] else [] in
  let r3 := if Rgtb score 80 then ["excellent choice"%string]
            else if Rgtb score 60 then ["good option"%string]
            else if Rgtb score 40 then ["acceptable"%string]
            else ["risky move"%string] in
  join ", " (r1 ++ r2 ++ r3).

(** An entry of [moves] in the result of [getFallbackSuggestions]. *)
Record MoveCandidate : Type := mkMoveCandidate {
  direction : Direction;
  position : Pos;
  score : R;
  reasoning : string
}.

Inductive Priority : Type := Critical | High | Medium | Low.

Record Suggestions : Type := mkSuggestions {
  moves : list MoveCandidate;
  overallReasoning : string;
  priority : Priority
}.

Definition directionName (d : Direction) : string :=
  match d with
  | Up => "up" | Down => "down" | Left => "left" | Right => "right"
  end.

(** [getOverallReasoning]. *)
Definition getOverallReasoning (scoredMoves : list MoveCandidate) : string :=
  match scoredMoves with
  | [] => "No safe moves available"
  | [m] => "Only one safe move: " ++ directionName (direction m)
  | best :: _ =>
      let worstScore := score (List.last scoredMoves best) in
      if Rgtb (score best) 80 then "Multiple good options available"
      else if Rgtb (score best) 60 then "Some decent moves available"
      else if Rgtb 30 worstScore then "All moves are risky - choose carefully"
      else "Limited but viable options"
  end%string.

(** [getPriorityLevel]. *)
Definition getPriorityLevel (moveCount : nat) (bestScore : R) : Priority :=
  if (moveCount =? 0)%nat then Critical
  else if (moveCount =? 1)%nat || Rgtb 40 bestScore then High
  else if Rgtb 60 bestScore then Medium
  else Low.

(** [Array.prototype.sort] with a comparator: the stable sort, written as
    insertion from the left.  [a] goes in front of the first [b] that the
    comparator puts after it ([compare b a > 0]). *)
Fixpoint insertSorted {A : Type} (compare : A -> A -> R) (a : A) (sorted : list A) : list A :=
  match sorted with
  | [] => [a]
  | b :: rest =>
      if Rlt_dec 0 (compare b a) then a :: b :: rest
      else b :: insertSorted compare a rest
  end.

Definition sortBy {A : Type} (compare : A -> A -> R) (l : list A) : list A :=
  fold_left (fun sorted a => insertSorted compare a sorted) l [].

(** [getFallbackSuggestions]. *)
Definition getFallbackSuggestions (e : PathfindingEngine) (position target : Pos)
    (obstacles : list Pos) : Suggestions :=
  let safeMoves := findSafeMoves e position obstacles in
  if (length safeMoves =? 0)%nat
  then {| moves := [];
          overallReasoning := "No safe moves available - game over imminent";
          priority := Critical |}
  else
    let scoredMoves :=
      map (fun direction_ =>
             let movePos := getMovePosition position direction_ in
             let score_ := calculateMoveScore e movePos target obstacles in
             {| direction := direction_;
                position := movePos;
                score := score_;
                reasoning := getMoveReasoning e movePos target obstacles score_ |})
          safeMoves in
    let sorted := sortBy (fun a b => (score b - score a)%R) scoredMoves in
    {| moves := sorted;
       overallReasoning := getOverallReasoning sorted;
       priority := getPriorityLevel (length sorted)
                     (match sorted with best :: _ => score best | [] => 0%R end) |}.

(** [getNextMoveFromPath(path)]; [None] is [null], as argument and as
    result. *)
Definition getNextMoveFromPath (path : option (list Pos)) : option Direction :=
  match path with
  | Some (current :: next :: _) =>
      let dx := x next - x current in
      let dy := y next - y current in
      if dx =? 1 then Some Right
      else if dx =? -1 then Some Left
      else if dy =? 1 then Some Down
      else if dy =? -1 then Some Up
      else None
  | _ => None
  end.

(** [isPathSafe(path, obstacles)]. *)
Definition isPathSafe (path : option (list Pos)) (obstacles : list Pos) : bool :=
  match path with
  | None => false
  | Some [] => false
  | Some (_ :: rest) =>
      let obstacleSet : gset Pos := list_to_set obstacles in
      forallb (fun pos => negb (bool_decide (pos ∈ obstacleSet))) rest
  end.

(** [updateBoardSize(width, height)]. *)
Definition updateBoardSize (width height : Z) (e : PathfindingEngine) : PathfindingEngine :=
  {| boardWidth := width; boardHeight := height |}.

End Pathfinding.

(** ** AICommentator: the message queue *)

Module Commentator.

(** An entry of [messageQueue] and [messageHistory]. *)
Record Message : Type := mkMessage {
  text : string;
  priority : string;
  timestamp : Z
}.

(** The fields that the queue operations read or write.  The comment
    templates and the counters of the [on...] triggers are left out; a
    trigger draws its text with [Math.random] and hands it to
    [queueMessage]. *)
Record AICommentator : Type := mkAICommentator {
  enabled : bool;
  currentMessage : string;
  messageQueue : list Message;
  lastMessageTime : Z;
  messageHistory : list Message
}.

Definition displayTime : Z := 3000.
Definition maxHistory : nat := 10.

(** The state the constructor builds. *)
Definition initial : AICommentator :=
  {| enabled := true; currentMessage := ""; messageQueue := [];
     lastMessageTime := 0; messageHistory := [] |}.

(** [toggle]. *)
Definition toggle (c : AICommentator) : AICommentator :=
  {| enabled := negb (enabled c); currentMessage := currentMessage c;
     messageQueue := messageQueue c; lastMessageTime := lastMessageTime c;
     messageHistory := messageHistory c |}.

(** [enable]. *)
Definition enable (c : AICommentator) : AICommentator :=
  {| enabled := true; currentMessage := currentMessage c;
     messageQueue := messageQueue c; lastMessageTime := lastMessageTime c;
     messageHistory := messageHistory c |}.

(** [disable]. *)
Definition disable (c : AICommentator) : AICommentator :=
  {| enabled := false; currentMessage := "";
     messageQueue := messageQueue c; lastMessageTime := lastMessageTime c;
     messageHistory := messageHistory c |}.

(** [queueMessage(message, priority)]; [now] is what [Date.now()] returns.
    [slice(0, 5)] keeps the first five entries. *)
Definition queueMessage (now : Z) (message priority_ : string) (c : AICommentator)
  : AICommentator :=
  if negb (enabled c) then c
  else
    let msg := {| text := message; priority := priority_; timestamp := now |} in
    let queued := if String.eqb priority_ "high"
                  then msg :: messageQueue c
                  else messageQueue c ++ [msg] in
    {| enabled := enabled c; currentMessage := currentMessage c;
       messageQueue := if (5 <? length queued)%nat then firstn 5 queued else queued;
       lastMessageTime := lastMessageTime c;
       messageHistory := messageHistory c |}.

(** [update]. *)
Definition update (now : Z) (c : AICommentator) : AICommentator :=
  if negb (enabled c) then c
  else if displayTime <=? now - lastMessageTime c then
    match messageQueue c with
    | msg :: rest =>
        let history := msg :: messageHistory c in
        {| enabled := enabled c; currentMessage := text msg;
           messageQueue := rest; lastMessageTime := now;
           messageHistory := if (maxHistory <? length history)%nat
                             then removelast history else history |}
    | [] =>
        {| enabled := enabled c; currentMessage := "";
           messageQueue := messageQueue c; lastMessageTime := lastMessageTime c;
           messageHistory := messageHistory c |}
    end
  else c.

(** [onDangerDetected(dangerLevel)]; [comment] is the text drawn by
    [getRandomComment('danger')]. *)
Definition onDangerDetected (now : Z) (comment : string) (dangerLevel : Z)
    (c : AICommentator) : AICommentator :=
  if 60 <=? dangerLevel then queueMessage now comment "high" c else c.

(** [onGameOver(isHighScore)]; [comment] is the text drawn from the
    category that [isHighScore] selects.  Both branches queue with high
    priority. *)
Definition onGameOver (now : Z) (comment : string) (isHighScore : bool)
    (c : AICommentator) : AICommentator :=
  if isHighScore then queueMessage now comment "high" c
  else queueMessage now comment "high" c.

(** The operations, as steps of a run. *)
Inductive Op : Type :=
| Toggle
| Enable
| Disable
| QueueMessage (now : Z) (message priority_ : string)
| Update (now : Z)
| DangerDetected (now : Z) (comment : string) (dangerLevel : Z)
| GameOver (now : Z) (comment : string) (isHighScore : bool).

Definition step (c : AICommentator) (op : Op) : AICommentator :=
  match op with
  | Toggle => toggle c
  | Enable => enable c
  | Disable => disable c
  | QueueMessage now m p => queueMessage now m p c
  | Update now => update now c
  | DangerDetected now m lvl => onDangerDetected now m lvl c
  | GameOver now m hs => onGameOver now m hs c
  end.

Definition run (c : AICommentator) (ops : list Op) : AICommentator :=
  fold_left step ops c.

End Commentator.

(** ** HintSystem (src/js/ai/HintSystem.js)

    The fields that only the renderer reads ([cellSize], [hintColors],
    [animationTime]) are left out. *)

Module Hints.

Record HintSystem : Type := mkHintSystem {
  pathfindingEngine : Pathfinding.PathfindingEngine;
  hintsEnabled : bool;
  currentPath : option (list Pos);
  nextMove : option Pathfinding.Direction;
  currentFoodPosition : option Pos
}.

(** [constructor(boardWidth, boardHeight, cellSize)]. *)
Definition construct (boardWidth boardHeight : Z) : HintSystem :=
  {| pathfindingEngine := Pathfinding.mkPathfindingEngine boardWidth boardHeight;
     hintsEnabled := false;
     currentPath := None;
     nextMove := None;
     currentFoodPosition := None |}.

(** [toggleHints()]: the new state and the value returned. *)
Definition toggleHints (h : HintSystem) : HintSystem * bool :=
  let enabled := negb (hintsEnabled h) in
  if negb enabled
  then ({| pathfindingEngine := pathfindingEngine h;
           hintsEnabled := enabled;
           currentPath := None;
           nextMove := None;
           currentFoodPosition := currentFoodPosition h |}, enabled)
  else ({| pathfindingEngine := pathfindingEngine h;
           hintsEnabled := enabled;
           currentPath := currentPath h;
           nextMove := nextMove h;
           currentFoodPosition := currentFoodPosition h |}, enabled).

(** [enableHints()]. *)
Definition enableHints (h : HintSystem) : HintSystem :=
  {| pathfindingEngine := pathfindingEngine h;
     hintsEnabled := true;
     currentPath := currentPath h;
     nextMove := nextMove h;
     currentFoodPosition := currentFoodPosition h |}.

(** [disableHints()]. *)
Definition disableHints (h : HintSystem) : HintSystem :=
  {| pathfindingEngine := pathfindingEngine h;
     hintsEnabled := false;
     currentPath := None;
     nextMove := None;
     currentFoodPosition := currentFoodPosition h |}.

(** [snakeBody.slice(1)]. *)
Definition slice1 (snakeBody : list Pos) : list Pos := List.tl snakeBody.

(** [updatePath(snakeHead, foodPosition, snakeBody)]; [None] when the
    search runs out of fuel. *)
Definition updatePath (snakeHead foodPosition : Pos) (snakeBody : list Pos)
    (h : HintSystem) : option HintSystem :=
  if negb (hintsEnabled h) then Some h
  else
    let obstacles := slice1 snakeBody in
    path ← Pathfinding.findPath (pathfindingEngine h) snakeHead foodPosition obstacles;
    Some {| pathfindingEngine := pathfindingEngine h;
            hintsEnabled := hintsEnabled h;
            currentPath := path;
            nextMove := Pathfinding.getNextMoveFromPath path;
            currentFoodPosition := Some foodPosition |}.

(** [getSafeMoves(snakeHead, snakeBody)]. *)
Definition getSafeMoves (h : HintSystem) (snakeHead : Pos) (snakeBody : list Pos)
  : list Pathfinding.Direction :=
  Pathfinding.findSafeMoves (pathfindingEngine h) snakeHead (slice1 snakeBody).

(** [getFallbackSuggestions(snakeHead, foodPosition, snakeBody)]. *)
Definition getFallbackSuggestions (h : HintSystem) (snakeHead foodPosition : Pos)
    (snakeBody : list Pos) : Pathfinding.Suggestions :=
  Pathfinding.getFallbackSuggestions (pathfindingEngine h) snakeHead foodPosition
    (slice1 snakeBody).

(** [hasPathToFood()]. *)
Definition hasPathToFood (h : HintSystem) : bool :=
  match currentPath h with
  | Some path => (1 <? length path)%nat
  | None => false
  end.

(** [updateBoardSize(width, height)]. *)
Definition updateBoardSize (width height : Z) (h : HintSystem) : HintSystem :=
  {| pathfindingEngine := Pathfinding.updateBoardSize width height (pathfindingEngine h);
     hintsEnabled := hintsEnabled h;
     currentPath := currentPath h;
     nextMove := nextMove h;
     currentFoodPosition := currentFoodPosition h |}.

(** [reset()]. *)
Definition reset (h : HintSystem) : HintSystem :=
  {| pathfindingEngine := pathfindingEngine h;
     hintsEnabled := hintsEnabled h;
     currentPath := None;
     nextMove := None;
     currentFoodPosition := None |}.

(** The operations, as steps of a run. *)
Inductive Op : Type :=
| ToggleHints
| EnableHints
| DisableHints
| UpdatePath (snakeHead foodPosition : Pos) (snakeBody : list Pos)
| UpdateBoardSize (width height : Z)
| Reset.

Definition step (h : HintSystem) (op : Op) : option HintSystem :=
  match op with
  | ToggleHints => Some (fst (toggleHints h))
  | EnableHints => Some (enableHints h)
  | DisableHints => Some (disableHints h)
  | UpdatePath snakeHead foodPosition snakeBody =>
      updatePath snakeHead foodPosition snakeBody h
  | UpdateBoardSize width height => Some (updateBoardSize width height h)
  | Reset => Some (reset h)
  end.

Fixpoint run (h : HintSystem) (ops : list Op) : option HintSystem :=
  match ops with
  | [] => Some h
  | op :: rest => h' ← step h op; run h' rest
  end.

End Hints.

(** ** AIGhost (src/js/ai/HintSystem.js)

    The fields that only the renderer reads ([opacity], [animationOffset])
    are left out.  The alpha of a trail cell is the rational number that
    its expression denotes. *)

Module Ghost.

Record TrailCell : Type := mkTrailCell {
  cell : Pos;
  alpha : Q
}.

Record AIGhost : Type := mkAIGhost {
  pathfinder : Pathfinding.PathfindingEngine;
  boardWidth : Z;
  boardHeight : Z;
  body : list Pos;
  direction : Pathfinding.Direction;
  enabled : bool;
  trailEffect : list TrailCell
}.

(** [constructor(boardWidth, boardHeight)]. *)
Definition construct (width height : Z) : AIGhost :=
  {| pathfinder := Pathfinding.mkPathfindingEngine width height;
     boardWidth := width;
     boardHeight := height;
     body := [];
     direction := Pathfinding.Right;
     enabled := false;
     trailEffect := [] |}.

(** [init(startX, startY)]. *)
Definition init (startX startY : Z) (g : AIGhost) : AIGhost :=
  {| pathfinder := pathfinder g;
     boardWidth := boardWidth g;
     boardHeight := boardHeight g;
     body := [mkPos startX startY];
     direction := Pathfinding.Right;
     enabled := enabled g;
     trailEffect := [] |}.

Definition set_enabled (b : bool) (g : AIGhost) : AIGhost :=
  {| pathfinder := pathfinder g;
     boardWidth := boardWidth g;
     boardHeight := boardHeight g;
     body := body g;
     direction := direction g;
     enabled := b;
     trailEffect := trailEffect g |}.

(** [toggle()]: the new state and the value returned. *)
Definition toggle (g : AIGhost) : AIGhost * bool :=
  (set_enabled (negb (enabled g)) g, negb (enabled g)).

(** [enable()] and [disable()]. *)
Definition enable (g : AIGhost) : AIGhost := set_enabled true g.
Definition disable (g : AIGhost) : AIGhost := set_enabled false g.

(** [getDirection(from, to)]. *)
Definition getDirection (from to : Pos) : Pathfinding.Direction :=
  if x from <? x to then Pathfinding.Right
  else if x to <? x from then Pathfinding.Left
  else if y from <? y to then Pathfinding.Down
  else Pathfinding.Up.

(** The trail after [unshift({...head, alpha: 0.5})] and the [pop()] that
    follows when it has more than five cells. *)
Definition pushTrail (head : Pos) (trail : list TrailCell) : list TrailCell :=
  let trail' := mkTrailCell head (1 # 2) :: trail in
  if (5 <? length trail')%nat then removelast trail' else trail'.

(** The final [forEach] of [update]: [alpha = max(0, 0.5 - i * 0.1)]. *)
Definition fade (trail : list TrailCell) : list TrailCell :=
  imap (fun i t => mkTrailCell (cell t) (Qmax 0 ((1 # 2) - inject_Z (Z.of_nat i) * (1 # 10))))
       trail.

(** The step of [update] that both branches share: the head moves to
    [nextPos] and the last cell is dropped. *)
Definition moveTo (g : AIGhost) (head nextPos : Pos) (d : Pathfinding.Direction) : AIGhost :=
  {| pathfinder := pathfinder g;
     boardWidth := boardWidth g;
     boardHeight := boardHeight g;
     body := removelast (nextPos :: body g);
     direction := d;
     enabled := enabled g;
     trailEffect := pushTrail head (trailEffect g) |}.

Definition fadeTrail (g : AIGhost) : AIGhost :=
  {| pathfinder := pathfinder g;
     boardWidth := boardWidth g;
     boardHeight := boardHeight g;
     body := body g;
     direction := direction g;
     enabled := enabled g;
     trailEffect := fade (trailEffect g) |}.

(** [update(foodPosition, playerBody)]; [None] when the search runs out
    of fuel. *)
Definition update (foodPosition : Pos) (playerBody : list Pos) (g : AIGhost)
  : option AIGhost :=
  match body g with
  | [] => Some g
  | head :: rest =>
      if negb (enabled g) then Some g
      else
        let obstacles := rest ++ playerBody in
        path ← Pathfinding.findPath (pathfinder g) head foodPosition obstacles;
        let moved :=
          match path with
          | Some (_ :: nextPos :: _) => moveTo g head nextPos (getDirection head nextPos)
          | _ =>
              match Pathfinding.findSafeMoves (pathfinder g) head obstacles with
              | move :: _ => moveTo g head (Pathfinding.getMovePosition head move) move
              | [] => g
              end
          end in
        Some (fadeTrail moved)
  end.

(** [grow()]. *)
Definition grow (g : AIGhost) : AIGhost :=
  match body g with
  | [] => g
  | first :: rest =>
      let tail := List.last rest first in
      {| pathfinder := pathfinder g;
         boardWidth := boardWidth g;
         boardHeight := boardHeight g;
         body := body g ++ [tail];
         direction := direction g;
         enabled := enabled g;
         trailEffect := trailEffect g |}
  end.

(** [checkFoodCollision(foodPosition)]. *)
Definition checkFoodCollision (g : AIGhost) (foodPosition : Pos) : bool :=
  match body g with
  | [] => false
  | head :: _ => (x head =? x foodPosition) && (y head =? y foodPosition)
  end.

(** The operations, as steps of a run. *)
Inductive Op : Type :=
| Init (startX startY : Z)
| Toggle
| Enable
| Disable
| Update (foodPosition : Pos) (playerBody : list Pos)
| Grow.

Definition step (g : AIGhost) (op : Op) : option AIGhost :=
  match op with
  | Init startX startY => Some (init startX startY g)
  | Toggle => Some (fst (toggle g))
  | Enable => Some (enable g)
  | Disable => Some (disable g)
  | Update foodPosition playerBody => update foodPosition playerBody g
  | Grow => Some (grow g)
  end.

Fixpoint run (g : AIGhost) (ops : list Op) : option AIGhost :=
  match ops with
  | [] => Some g
  | op :: rest => g' ← step g op; run g' rest
  end.

End Ghost.

Module DifficultyFacts.
Import Difficulty.

Definition speedInBounds (dm : DifficultyManager) : Prop :=
  minSpeed <= currentSpeed dm <= maxSpeed.

Lemma increaseDifficulty_bounds dm :
  speedInBounds dm -> speedInBounds (fst (increaseDifficulty dm)).
Proof. unfold speedInBounds, minSpeed, maxSpeed; simpl. unfold minSpeed, speedAdjustmentAmount. lia. Qed.

Lemma decreaseDifficulty_bounds dm :
  speedInBounds dm -> speedInBounds (fst (decreaseDifficulty dm)).
Proof. unfold speedInBounds, minSpeed, maxSpeed; simpl. unfold maxSpeed, speedAdjustmentAmount. lia. Qed.

Lemma recordFoodCollection_bounds now s l dm :
  speedInBounds dm -> speedInBounds (recordFoodCollection now s l dm).
Proof.
  intros H. unfold recordFoodCollection.
  destruct (_ <=? _); [|exact H].
  unfold speedInBounds in *; simpl.
  unfold minSpeed, maxSpeed, speedAdjustmentAmount in *. lia.
Qed.

Lemma analyze_bounds gd dm :
  speedInBounds dm -> speedInBounds (analyzePerformanceAndAdjust gd dm).
Proof.
  intros H. unfold analyzePerformanceAndAdjust.
  destruct (_ <? _)%nat; [exact H|].
  destruct (_ || _ || _).
  - apply (decreaseDifficulty_bounds dm H).
  - destruct (_ && _); [apply increaseDifficulty_bounds|]; exact H.
Qed.

Lemma recordGameEnd_bounds now gs dm :
  speedInBounds dm -> speedInBounds (recordGameEnd now gs dm).
Proof. intros H. unfold recordGameEnd. apply analyze_bounds. exact H. Qed.

(** C7: from a state whose speed lies in [minSpeed, maxSpeed], any finite
    sequence of recordFoodCollection and recordGameEnd calls leaves the
    speed in [minSpeed, maxSpeed] = [50, 300]. *)
Theorem speed_stays_within_bounds (dm : DifficultyManager) (evs : list Event) :
  minSpeed <= currentSpeed dm <= maxSpeed ->
  50 <= currentSpeed (run dm evs) <= 300.
Proof.
  revert dm. induction evs as [|ev evs IH]; intros dm H.
  - exact H.
  - simpl. apply IH. destruct ev.
    + apply recordFoodCollection_bounds, H.
    + apply recordGameEnd_bounds, H.
Qed.

Lemma speed_stays_within_bounds_witness :
  50 <= currentSpeed
          (run initial
               [FoodCollected 1000 10 4; GameEnded 5000 (mkGameStats 10 4 5000 1);
                GameEnded 9000 (mkGameStats 0 3 2000 0)]) <= 300.
Proof.
  apply (speed_stays_within_bounds initial).
  unfold initial, minSpeed, maxSpeed, baseSpeed; simpl. lia.
Defined.

(** Three consecutive collections starting from a zero counter. *)
Definition threeCollections (dm : DifficultyManager) (t1 t2 t3 s1 s2 s3 l1 l2 l3 : Z)
  : DifficultyManager :=
  run dm [FoodCollected t1 s1 l1; FoodCollected t2 s2 l2; FoodCollected t3 s3 l3].

(** The reading "exactly one step of 15 unless already at minSpeed". *)
Definition exact_step_unless_at_min : Prop :=
  forall dm t1 t2 t3 s1 s2 s3 l1 l2 l3,
    consecutiveSuccesses dm = 0 ->
    minSpeed <= currentSpeed dm <= maxSpeed ->
    currentSpeed dm <> minSpeed ->
    currentSpeed (threeCollections dm t1 t2 t3 s1 s2 s3 l1 l2 l3)
    = currentSpeed dm - speedAdjustmentAmount.

(** Eighteen collections in a row from the initial state: six speed-ups,
    150 - 6 * 15 = 60. *)
Definition at60 : DifficultyManager :=
  run initial (repeat (FoodCollected 1000 10 4) 18).

(** C8, as stated, fails at speed 60: the clamp [Math.max(minSpeed, ...)]
    stops the speed at 50, a decrease of 10 and not of 15, although 60 is
    not minSpeed. *)
Lemma exact_step_fails_at_60 :
  consecutiveSuccesses at60 = 0 /\
  currentSpeed at60 = 60 /\
  currentSpeed (threeCollections at60 1000 2000 3000 10 20 30 4 5 6) = 50 /\
  ~ exact_step_unless_at_min.
Proof.
  repeat split; try reflexivity.
  intros H.
  specialize (H at60 1000 2000 3000 10 20 30 4 5 6 eq_refl).
  vm_compute in H.
  assert (50 = 45) as E; [apply H; [split; discriminate | discriminate] | discriminate E].
Qed.

(** C8 (amended): from [consecutiveSuccesses = 0], three consecutive
    recordFoodCollection calls set the speed to
    [max minSpeed (currentSpeed - 15)] and leave the counter at 0; the
    decrease is exactly 15 when the speed was at least [minSpeed + 15],
    and from the base speed 150 the result is 135. *)
Theorem three_collections_one_clamped_step
    (dm : DifficultyManager) (t1 t2 t3 s1 s2 s3 l1 l2 l3 : Z) :
  consecutiveSuccesses dm = 0 ->
  let dm' := threeCollections dm t1 t2 t3 s1 s2 s3 l1 l2 l3 in
  currentSpeed dm' = Z.max minSpeed (currentSpeed dm - speedAdjustmentAmount) /\
  consecutiveSuccesses dm' = 0 /\
  (minSpeed + speedAdjustmentAmount <= currentSpeed dm ->
   currentSpeed dm' = currentSpeed dm - 15) /\
  (currentSpeed dm = baseSpeed -> currentSpeed dm' = 135).
Proof.
  intros Hcs dm'. subst dm'.
  unfold threeCollections, run; simpl.
  unfold recordFoodCollection; simpl. rewrite Hcs; simpl.
  unfold minSpeed, speedAdjustmentAmount, baseSpeed.
  repeat split; lia.
Qed.

Lemma three_collections_one_clamped_step_witness :
  consecutiveSuccesses initial = 0 /\
  currentSpeed (threeCollections initial 1000 2000 3000 10 20 30 4 5 6) = 135.
Proof.
  split; [reflexivity|].
  apply (three_collections_one_clamped_step initial 1000 2000 3000 10 20 30 4 5 6);
    reflexivity.
Defined.

(** [recordGameEnd] increments [recentDeaths] before it calls
    [analyzePerformanceAndAdjust], so the test [recentDeaths === 0] of the
    performing-well branch cannot hold there: the call never lowers the
    speed. *)
Lemma recordGameEnd_never_speeds_up now gs dm :
  0 <= recentDeaths dm ->
  currentSpeed dm <= maxSpeed ->
  currentSpeed dm <= currentSpeed (recordGameEnd now gs dm).
Proof.
  intros Hd Hs. unfold recordGameEnd, analyzePerformanceAndAdjust.
  cbn [recentDeaths set_recentDeaths set_consecutiveSuccesses set_performanceHistory
       performanceHistory currentSpeed].
  destruct (_ <? _)%nat; [simpl; lia|].
  destruct (_ || _ || _).
  - simpl. unfold maxSpeed, speedAdjustmentAmount in *. lia.
  - replace (recentDeaths dm + 1 =? 0) with false by (symmetry; apply Z.eqb_neq; lia).
    rewrite andb_false_r. simpl. lia.
Qed.

(** A player who performs well: every game ends with score 200 after 40 s,
    and the one food interval on record is 1 s.  After two such games the
    history has two entries and [recentDeaths] is back to 0, because the
    second death counted as struggling ([recentDeaths >= 2]) and eased the
    speed to 165. *)
Definition goodStats : GameStats :=
  {| stats_score := 200; stats_length := 23; stats_survivalTime := 40000;
     stats_foodCollected := 20 |}.

Definition performingWell : DifficultyManager :=
  run initial [FoodCollected 1000 10 4; GameEnded 41000 goodStats; GameEnded 82000 goodStats].

(** C9 at a concrete input: every premise of the claim holds
    ([recentDeaths = 0], two entries of history, and with the new sample the
    averages are 200 > 100 and 40000 > 30000, the collection interval
    1000 < 3000), and the call leaves the speed at 165 instead of lowering it
    by the step to 150. *)
Theorem performing_well_speed_unchanged :
  recentDeaths performingWell = 0 /\
  length (performanceHistory performingWell) = 2%nat /\
  map score (performanceHistory performingWell) = [200; 200] /\
  map survivalTime (performanceHistory performingWell) = [40000; 40000] /\
  Qeq (calculateAverageCollectionTime performingWell) 1000 /\
  currentSpeed performingWell = 165 /\
  currentSpeed (recordGameEnd 123000 goodStats performingWell) = 165 /\
  recentDeaths (recordGameEnd 123000 goodStats performingWell) = 1.
Proof. repeat split; vm_compute; reflexivity. Qed.

(** *** The rest of the controller *)

Lemma getDifficultyLevel_formula dm :
  getDifficultyLevel dm
  = Z.max 1 (Z.min 10 ((maxSpeed - currentSpeed dm) * 9 / (maxSpeed - minSpeed) + 1)).
Proof.
  unfold getDifficultyLevel, maxSpeed, minSpeed.
  unfold Qfloor, Qdiv, Qmult, Qinv, inject_Z.
  change (300 - 50) with 250. cbn [Qnum Qden].
  rewrite Z.mul_1_r. reflexivity.
Qed.

(** X1: the difficulty level is always between 1 and 10, it never rises
    when the delay rises, and it is 1 at [maxSpeed] and 10 at [minSpeed]. *)
Theorem difficulty_level_scale :
  (forall dm, 1 <= getDifficultyLevel dm <= 10) /\
  (forall dm1 dm2,
      currentSpeed dm1 <= currentSpeed dm2 ->
      getDifficultyLevel dm2 <= getDifficultyLevel dm1) /\
  (forall dm, currentSpeed dm = maxSpeed -> getDifficultyLevel dm = 1) /\
  (forall dm, currentSpeed dm = minSpeed -> getDifficultyLevel dm = 10).
Proof.
  split; [|split; [|split]].
  - intros dm. rewrite getDifficultyLevel_formula. lia.
  - intros dm1 dm2 H. rewrite !getDifficultyLevel_formula. unfold maxSpeed, minSpeed.
    assert ((300 - currentSpeed dm2) * 9 / (300 - 50)
            <= (300 - currentSpeed dm1) * 9 / (300 - 50))
      by (apply Z.div_le_mono; lia).
    lia.
  - intros dm H. rewrite getDifficultyLevel_formula, H. reflexivity.
  - intros dm H. rewrite getDifficultyLevel_formula, H. reflexivity.
Qed.

Lemma difficulty_level_scale_witness :
  getDifficultyLevel (set_currentSpeed 135 initial)
  <= getDifficultyLevel (set_currentSpeed 60 initial).
Proof.
  apply (proj1 (proj2 difficulty_level_scale)). simpl. lia.
Defined.

Lemma recordFoodCollection_history now s l dm :
  performanceHistory (recordFoodCollection now s l dm) = performanceHistory dm.
Proof. unfold recordFoodCollection. destruct (_ <=? _); reflexivity. Qed.

Lemma analyze_history gd dm :
  performanceHistory (analyzePerformanceAndAdjust gd dm) = performanceHistory dm.
Proof.
  unfold analyzePerformanceAndAdjust.
  destruct (_ <? _)%nat; [reflexivity|].
  destruct (_ || _ || _); [reflexivity|].
  destruct (_ && _); reflexivity.
Qed.

Lemma recordGameEnd_history now gs dm :
  exists gd,
    score gd = stats_score gs /\ survivalTime gd = stats_survivalTime gs /\
    finalSpeed gd = currentSpeed dm /\ timestamp gd = now /\
    performanceHistory (recordGameEnd now gs dm)
    = if (maxHistoryLength <? length (performanceHistory dm ++ [gd]))%nat
      then tail (performanceHistory dm ++ [gd])
      else performanceHistory dm ++ [gd].
Proof.
  eexists. unfold recordGameEnd. rewrite analyze_history.
  cbn [performanceHistory set_recentDeaths set_consecutiveSuccesses set_performanceHistory].
  repeat split; reflexivity.
Qed.

(** X2: the history is a window of at most 10 games.  Whatever events
    arrive, a history that held at most 10 entries still does, and a game
    that ends is stored as the last entry. *)
Theorem history_is_bounded_window :
  (forall dm evs,
      (length (performanceHistory dm) <= 10)%nat ->
      (length (performanceHistory (run dm evs)) <= 10)%nat) /\
  (forall now gs dm,
      exists gd,
        last (performanceHistory (recordGameEnd now gs dm)) = Some gd /\
        score gd = stats_score gs /\ survivalTime gd = stats_survivalTime gs /\
        finalSpeed gd = currentSpeed dm).
Proof.
  split.
  - intros dm evs. revert dm. induction evs as [|ev evs IH]; intros dm H; [exact H|].
    cbn [run fold_left]. apply IH. destruct ev as [now s l|now gs]; cbn [step].
    + rewrite recordFoodCollection_history. exact H.
    + destruct (recordGameEnd_history now gs dm) as (gd & _ & _ & _ & _ & ->).
      unfold maxHistoryLength.
      destruct (_ <? _)%nat eqn:E.
      * destruct (performanceHistory dm); cbn [app tail length] in *;
          rewrite ?length_app; cbn [length]; lia.
      * apply Nat.ltb_ge in E. exact E.
  - intros now gs dm.
    destruct (recordGameEnd_history now gs dm) as (gd & Hs & Ht & Hf & _ & ->).
    exists gd. split; [|auto].
    destruct (_ <? _)%nat eqn:E; [|apply last_snoc].
    destruct (performanceHistory dm) as [|g h]; [discriminate E|].
    cbn [app tail]. apply last_snoc.
Qed.

Lemma history_is_bounded_window_witness :
  (length (performanceHistory
             (run initial (repeat (GameEnded 1000 (mkGameStats 10 4 5000 1)) 12))) <= 10)%nat.
Proof.
  apply (proj1 history_is_bounded_window). simpl. lia.
Defined.

(** X3: the success counter stays below the threshold.  From a counter
    that is not negative, any sequence of events leaves it at 0, 1 or 2
    once at least one event has happened. *)
Theorem consecutive_successes_below_threshold (dm : DifficultyManager) (evs : list Event) :
  0 <= consecutiveSuccesses dm ->
  0 <= consecutiveSuccesses (run dm evs) /\
  (evs <> [] -> consecutiveSuccesses (run dm evs) <= 2).
Proof.
  intros H0.
  assert (Hstep : forall d ev, 0 <= consecutiveSuccesses d ->
                               0 <= consecutiveSuccesses (step d ev) <= 2).
  { intros d [now s l|now gs] Hd; cbn [step].
    - unfold recordFoodCollection, speedIncreaseThreshold. cbn [consecutiveSuccesses].
      destruct (3 <=? consecutiveSuccesses d + 1) eqn:E; cbn; [lia|].
      apply Z.leb_gt in E. lia.
    - unfold recordGameEnd, analyzePerformanceAndAdjust.
      destruct (_ <? _)%nat; [cbn; lia|].
      destruct (_ || _ || _); [cbn; lia|].
      destruct (_ && _); cbn; lia. }
  revert dm H0. induction evs as [|ev evs IH]; intros dm H0.
  - split; [exact H0 | congruence].
  - cbn [run fold_left]. pose proof (Hstep dm ev H0) as Hs.
    destruct evs as [|ev' evs].
    + cbn [fold_left]. split; [lia | intros _; lia].
    + destruct (IH (step dm ev) ltac:(lia)) as (Hlo & Hhi).
      split; [exact Hlo | intros _; apply Hhi; discriminate].
Qed.

Lemma consecutive_successes_below_threshold_witness :
  consecutiveSuccesses (run initial (repeat (FoodCollected 1000 10 4) 8)) <= 2.
Proof.
  apply (consecutive_successes_below_threshold initial (repeat (FoodCollected 1000 10 4) 8));
    [simpl; lia | discriminate].
Defined.

Lemma window_keeps_two (h : list GameData) (gd : GameData) :
  h <> [] ->
  (length (if (maxHistoryLength <? length (h ++ [gd]))%nat
           then tail (h ++ [gd]) else h ++ [gd]) <? 2)%nat = false.
Proof.
  intros Hh. apply Nat.ltb_ge. unfold maxHistoryLength.
  destruct (_ <? _)%nat eqn:E.
  - apply Nat.ltb_lt in E. destruct (h ++ [gd]); cbn [tail length] in *; lia.
  - destruct h; [congruence|]. cbn [app length]. rewrite length_app.
    cbn [length]. lia.
Qed.

(** X4: a second death in a row always eases the game.  If the history is
    not empty and a death is already counted, [recordGameEnd] raises the
    delay by 15 ms up to [maxSpeed] and clears the death counter, whatever
    the scores are. *)
Theorem second_death_eases (now : Z) (gs : GameStats) (dm : DifficultyManager) :
  performanceHistory dm <> [] ->
  1 <= recentDeaths dm ->
  currentSpeed (recordGameEnd now gs dm)
  = Z.min maxSpeed (currentSpeed dm + speedAdjustmentAmount) /\
  recentDeaths (recordGameEnd now gs dm) = 0.
Proof.
  intros Hh Hd. unfold recordGameEnd, analyzePerformanceAndAdjust.
  cbn [performanceHistory set_recentDeaths set_consecutiveSuccesses set_performanceHistory
       recentDeaths].
  rewrite window_keeps_two by exact Hh.
  replace (speedDecreaseThreshold <=? recentDeaths dm + 1) with true
    by (symmetry; apply Z.leb_le; unfold speedDecreaseThreshold; lia).
  rewrite orb_true_r. split; reflexivity.
Qed.

Lemma second_death_eases_witness :
  currentSpeed (run initial [GameEnded 1000 (mkGameStats 10 4 5000 1);
                             GameEnded 9000 (mkGameStats 20 5 6000 2)]) = 165.
Proof.
  apply (second_death_eases 9000 (mkGameStats 20 5 6000 2)
           (recordGameEnd 1000 (mkGameStats 10 4 5000 1) initial)).
  - discriminate.
  - vm_compute. discriminate.
Defined.



(** *** Persistence and statistics *)


Lemma slice_last_all {A : Type} (n : nat) (l : list A) :
  (length l <= n)%nat -> slice_last n l = l.
Proof.
  intros H. unfold slice_last. replace (length l - n)%nat with 0%nat by lia. reflexivity.
Qed.


(** X7: saving and constructing again restores the state.  When the speed
    is in range, the history holds at most 10 games and the counters are
    within their caps, the four persisted fields come back unchanged. *)
Theorem save_then_load_restores (now : Z) (dm : DifficultyManager) :
  minSpeed <= currentSpeed dm <= maxSpeed ->
  (length (performanceHistory dm) <= 10)%nat ->
  0 <= consecutiveSuccesses dm <= speedIncreaseThreshold ->
  0 <= recentDeaths dm <= speedDecreaseThreshold ->
  let dm' := construct (Item (savePerformanceData now dm)) in
  currentSpeed dm' = currentSpeed dm /\
  performanceHistory dm' = performanceHistory dm /\
  consecutiveSuccesses dm' = consecutiveSuccesses dm /\
  recentDeaths dm' = recentDeaths dm.
Proof.
  unfold minSpeed, maxSpeed, speedIncreaseThreshold, speedDecreaseThreshold.
  intros Hs Hh Hc Hr. unfold construct, loadPerformanceData, savePerformanceData.
  cbn [saved_currentSpeed saved_performanceHistory saved_consecutiveSuccesses
       saved_recentDeaths].
  replace (negb (currentSpeed dm =? 0)) with true
    by (symmetry; apply negb_true_iff, Z.eqb_neq; lia).
  replace (minSpeed <=? currentSpeed dm) with true
    by (symmetry; apply Z.leb_le; unfold minSpeed; lia).
  replace (currentSpeed dm <=? maxSpeed) with true
    by (symmetry; apply Z.leb_le; unfold maxSpeed; lia).
  replace (0 <=? consecutiveSuccesses dm) with true by (symmetry; apply Z.leb_le; lia).
  replace (0 <=? recentDeaths dm) with true by (symmetry; apply Z.leb_le; lia).
  cbn. unfold maxHistoryLength, speedIncreaseThreshold, speedDecreaseThreshold.
  rewrite slice_last_all by exact Hh.
  repeat split; lia.
Qed.

Lemma save_then_load_restores_witness :
  currentSpeed (construct (Item (savePerformanceData 7000 performingWell))) = 165.
Proof.
  apply (save_then_load_restores 7000 performingWell); vm_compute;
    first [lia | split; discriminate].
Defined.

Lemma mathMax_spec (rest : list Z) :
  forall first,
    first <= mathMax first rest /\
    (forall z, In z rest -> z <= mathMax first rest) /\
    In (mathMax first rest) (first :: rest).
Proof.
  unfold mathMax. induction rest as [|r rest IH]; intros first; cbn [fold_left].
  - split; [lia|]. split; [intros z []|left; reflexivity].
  - destruct (IH (Z.max first r)) as (H1 & H2 & H3).
    split; [lia|]. split.
    + intros z [<-|Hz]; [lia | apply H2, Hz].
    + destruct H3 as [H3|H3]; [|right; right; exact H3].
      rewrite <- H3. destruct (Z.max_spec first r) as [(_ & ->)|(_ & ->)];
        [right; left | left]; reflexivity.
Qed.

Lemma sumZ_le_bound (l : list Z) (b : Z) :
  (forall z, In z l -> z <= b) -> sumZ l <= Z.of_nat (length l) * b.
Proof.
  unfold sumZ. intros H.
  assert (forall acc, fold_left Z.add l acc <= acc + Z.of_nat (length l) * b) as Hacc.
  { induction l as [|z l IH]; intros acc; cbn [fold_left length]; [lia|].
    specialize (IH (fun w Hw => H w (or_intror Hw)) (acc + z)).
    pose proof (H z (or_introl eq_refl)). lia. }
  apply (Hacc 0).
Qed.

(** X8: for a history that is not empty, the statistics count its games,
    [bestScore] is one of the recorded scores and no recorded score exceeds
    it, and the average score is at most the best score. *)
Theorem performance_stats_best_score (dm : DifficultyManager) :
  performanceHistory dm <> [] ->
  let stats := getPerformanceStats dm in
  gamesPlayed stats = length (performanceHistory dm) /\
  In (bestScore stats) (map score (performanceHistory dm)) /\
  (forall game, In game (performanceHistory dm) -> score game <= bestScore stats) /\
  (averageScore stats <= inject_Z (bestScore stats))%Q /\
  statsCurrentSpeed stats = Some (currentSpeed dm).
Proof.
  intros Hne. unfold getPerformanceStats.
  destruct (performanceHistory dm) as [|game games]; [congruence|].
  cbn [gamesPlayed bestScore averageScore statsCurrentSpeed].
  destruct (mathMax_spec (map score games) (score game)) as (H1 & H2 & H3).
  assert (Hall : forall g, In g (game :: games) ->
                           score g <= mathMax (score game) (map score games)).
  { intros g [<-|Hg]; [exact H1 | apply H2, in_map, Hg]. }
  split; [reflexivity|]. split; [exact H3|]. split; [exact Hall|]. split; [|reflexivity].
  apply Qle_shift_div_r.
  - change 0%Q with (inject_Z 0). rewrite <- Zlt_Qlt. cbn [length map]. lia.
  - rewrite <- inject_Z_mult, <- Zle_Qle, Z.mul_comm.
    apply sumZ_le_bound. intros z Hz. apply in_map_iff in Hz as (g & <- & Hg).
    apply Hall, Hg.
Qed.

Lemma performance_stats_best_score_witness :
  bestScore (getPerformanceStats performingWell) = 200.
Proof.
  destruct (performance_stats_best_score performingWell) as (_ & Hin & _);
    [vm_compute; discriminate|].
  vm_compute in Hin. destruct Hin as [H|[H|[]]]; vm_compute; reflexivity.
Defined.

End DifficultyFacts.

Module DangerFacts.
Import Danger.

#[local] Arguments detectCorridorTraps : simpl never.
#[local] Arguments floodFillCount : simpl never.
#[local] Arguments calculateDangerLevel : simpl never.
#[local] Arguments countEscapeRoutes : simpl never.

(** *** Termination of the flood fill *)

Lemma floodFill_loop_returns dp obstacles fuel :
  forall visited queue count,
    0 <= count <= maxCount ->
    Z.of_nat (length queue) + 4 * (maxCount - count) < Z.of_nat fuel ->
    exists n, floodFill_loop dp obstacles fuel visited queue count = Some n /\ 0 <= n <= maxCount.
Proof.
  induction fuel as [|fuel IH]; intros visited queue count Hc Hm.
  - unfold maxCount in *. lia.
  - simpl. destruct queue as [|pos rest]; [eauto|].
    destruct (count <? maxCount) eqn:Hlt; [|eauto].
    apply Z.ltb_lt in Hlt. simpl length in Hm.
    destruct (_ || _ || _).
    + apply IH; [lia|]. lia.
    + apply IH; [lia|]. rewrite length_app. simpl. lia.
Qed.

Lemma floodFillCount_returns dp start obstacles :
  exists n, floodFillCount dp start obstacles = Some n /\ 0 <= n <= maxCount.
Proof.
  unfold floodFillCount. apply floodFill_loop_returns; unfold maxCount, floodFill_fuel; cbn [length]; lia.
Qed.

(** *** Bounds on the factors *)

Lemma fold_count_nonneg {A : Type} (f : A -> bool) (l : list A) :
  forall n, 0 <= n -> 0 <= fold_left (fun k a => if f a then k + 1 else k) l n.
Proof.
  induction l as [|a l IH]; intros n Hn; simpl; [exact Hn|].
  apply IH. destruct (f a); lia.
Qed.

Lemma calculateWallProximity_nonneg dp pos : 0 <= calculateWallProximity dp pos.
Proof.
  unfold calculateWallProximity.
  repeat match goal with |- context [if ?b then _ else _] => destruct b end; lia.
Qed.

Lemma calculateBodyProximity_nonneg pos body : 0 <= calculateBodyProximity pos body.
Proof.
  unfold calculateBodyProximity. apply Z.min_glb; [lia|].
  apply (fold_count_nonneg (fun segment => manhattan pos segment <=? 2)). lia.
Qed.

Lemma calculateDangerLevel_returns dp pos body food :
  exists d, calculateDangerLevel dp pos body food = Some d /\ 0 <= d <= 100.
Proof.
  unfold calculateDangerLevel.
  destruct (floodFillCount_returns dp pos (obstacleSet body)) as (n & -> & Hn).
  simpl. eexists; split; [reflexivity|].
  pose proof (calculateWallProximity_nonneg dp pos).
  pose proof (calculateBodyProximity_nonneg pos body).
  split; [|lia].
  apply Z.min_glb; [lia|].
  repeat match goal with |- context [if ?b then _ else _] => destruct b end; lia.
Qed.

(** *** The zones that [analyze] records *)

(** The cell next to [head] in the direction [name]. *)
Definition adjacentCell (head : Pos) (name : Label) : Pos :=
  match name with
  | Up => mkPos (x head + 0) (y head + -1)
  | Down => mkPos (x head + 0) (y head + 1)
  | Left => mkPos (x head + -1) (y head + 0)
  | Right => mkPos (x head + 1) (y head + 0)
  | Trap => head
  end.

(** A zone of the first loop: a positive level, and an adjacent cell that
    is in bounds and not occupied. *)
Definition adjacentZone (dp : DangerPredictor) (head : Pos) (body : list Pos)
    (z : DangerZone) : Prop :=
  0 < level z <= 100 /\ direction z <> Trap /\
  position z = adjacentCell head (direction z) /\
  blocked dp (obstacleSet body) (position z) = false.

(** A zone of the corridor scan. *)
Definition trapZone (z : DangerZone) : Prop :=
  level z = 40 /\ direction z = Trap.

Lemma analyze_adjacent_zones dp head body food dirs :
  forall zones,
    (forall d, d ∈ dirs -> d ∈ directions) ->
    Forall (adjacentZone dp head body) zones ->
    exists zones',
      analyze_adjacent dp head body food dirs zones = Some zones' /\
      Forall (adjacentZone dp head body) zones'.
Proof.
  induction dirs as [|[[dx dy] name] dirs IH]; intros zones Hd Hz;
    cbn [analyze_adjacent].
  - eauto.
  - assert (Hin : (dx, dy, name) ∈ directions) by (apply Hd; left).
    assert (Hd' : forall d, d ∈ dirs -> d ∈ directions) by (intros; apply Hd; right; done).
    destruct (blocked _ _ _) eqn:Hb; [apply IH; assumption|].
    destruct (calculateDangerLevel_returns dp (mkPos (x head + dx) (y head + dy)) body food)
      as (d & -> & Hrange).
    simpl. apply IH; [assumption|].
    destruct (0 <? d) eqn:Hpos; [|assumption].
    apply Z.ltb_lt in Hpos.
    apply Forall_app; split; [assumption|].
    constructor; [|constructor].
    unfold directions in Hin.
    repeat (apply elem_of_cons in Hin as [Hin|Hin];
            [injection Hin as -> -> ->; repeat split; simpl; (lia || done || exact Hb)|]).
    inversion Hin.
Qed.

Lemma detectCorridorTraps_zones dp head body (P : DangerZone -> Prop) :
  (forall z, trapZone z -> P z) ->
  Forall P (dangerZones dp) ->
  Forall P (dangerZones (detectCorridorTraps dp head body)).
Proof.
  intros HP. unfold detectCorridorTraps. cbn [dangerZones set_dangerZones].
  generalize (dangerZones dp) as zones.
  induction (corridorProbes head) as [|pos probes IH]; intros zones Hz;
    cbn [fold_left]; [exact Hz|].
  apply IH.
  destruct (negb _); [exact Hz|].
  destruct (_ <=? 1); [|exact Hz].
  destruct (find _ zones); [exact Hz|].
  apply Forall_app; split; [exact Hz|].
  constructor; [|constructor]. apply HP. split; reflexivity.
Qed.

Lemma analyze_zones dp head body food :
  exists dp',
    analyze dp head body food = Some dp' /\
    Forall (fun z => adjacentZone dp head body z \/ trapZone z) (dangerZones dp').
Proof.
  unfold analyze. destruct (enabled dp); cbn [negb].
  - destruct (analyze_adjacent_zones dp head body food directions [])
      as (zones & Hzones & Hz); [auto | constructor |].
    rewrite Hzones. simpl. eexists; split; [reflexivity|].
    apply detectCorridorTraps_zones; [auto|].
    simpl. eapply Forall_impl; [exact Hz|]. auto.
  - eexists; split; [reflexivity|]. constructor.
Qed.

(** C5: for every head position, body list and food position, [analyze]
    returns, and every zone it records, adjacent-cell zone or corridor-trap
    zone, has a level in [0, 100]. *)
Theorem danger_levels_within_0_100
    (dp : DangerPredictor) (snakeHead : Pos) (snakeBody : list Pos) (foodPosition : Pos) :
  exists dp',
    analyze dp snakeHead snakeBody foodPosition = Some dp' /\
    forall z, z ∈ dangerZones dp' -> 0 <= level z <= 100.
Proof.
  destruct (analyze_zones dp snakeHead snakeBody foodPosition) as (dp' & Ha & Hz).
  exists dp'. split; [exact Ha|].
  intros z Hin. rewrite Forall_forall in Hz.
  destruct (Hz z Hin) as [(Hl & _)|(Hl & _)]; lia.
Qed.

(** *** Escape routes *)

Definition moves : list Label := [Up; Down; Left; Right].

Lemma countEscapeRoutes_unfold dp pos obstacles :
  countEscapeRoutes dp pos obstacles
  = (if blocked dp obstacles (adjacentCell pos Up) then 0 else 1)
    + (if blocked dp obstacles (adjacentCell pos Down) then 0 else 1)
    + (if blocked dp obstacles (adjacentCell pos Left) then 0 else 1)
    + (if blocked dp obstacles (adjacentCell pos Right) then 0 else 1).
Proof.
  unfold countEscapeRoutes, blocked, offsets, adjacentCell.
  cbn [fold_left fst snd].
  repeat match goal with
         | |- context [isValidPosition dp ?p] => destruct (isValidPosition dp p)
         | |- context [bool_decide ?P] => destruct (bool_decide P)
         end; reflexivity.
Qed.

Lemma countEscapeRoutes_zero_iff dp pos obstacles :
  countEscapeRoutes dp pos obstacles = 0 <->
  forall d, d ∈ moves -> blocked dp obstacles (adjacentCell pos d) = true.
Proof.
  rewrite countEscapeRoutes_unfold. split.
  - intros H d Hd.
    destruct (blocked dp obstacles (adjacentCell pos Up)) eqn:E1,
             (blocked dp obstacles (adjacentCell pos Down)) eqn:E2,
             (blocked dp obstacles (adjacentCell pos Left)) eqn:E3,
             (blocked dp obstacles (adjacentCell pos Right)) eqn:E4; try lia.
    unfold moves in Hd. set_unfold in Hd.
    destruct Hd as [->|[->|[->|[->|[]]]]]; assumption.
  - intros H.
    rewrite (H Up), (H Down), (H Left), (H Right); [reflexivity|..];
      unfold moves; set_solver.
Qed.

(** C6: a cell whose escape-route count is zero, that is, whose four
    orthogonal neighbours are each out of bounds or occupied, gets the
    danger level 100 exactly, whatever the wall, body, confinement and
    food-distance factors add. *)
Theorem no_escape_route_gives_level_100
    (dp : DangerPredictor) (pos : Pos) (snakeBody : list Pos) (foodPosition : Pos) :
  (countEscapeRoutes dp pos (obstacleSet snakeBody) = 0 <->
   forall d, d ∈ moves -> blocked dp (obstacleSet snakeBody) (adjacentCell pos d) = true) /\
  (countEscapeRoutes dp pos (obstacleSet snakeBody) = 0 ->
   calculateDangerLevel dp pos snakeBody foodPosition = Some 100).
Proof.
  split; [apply countEscapeRoutes_zero_iff|].
  intros Hzero. unfold calculateDangerLevel. rewrite Hzero.
  destruct (floodFillCount_returns dp pos (obstacleSet snakeBody)) as (n & Hn & _).
  rewrite Hn. cbn [mbind option_bind Z.eqb].
  pose proof (calculateWallProximity_nonneg dp pos).
  pose proof (calculateBodyProximity_nonneg pos snakeBody).
  f_equal. apply Z.min_l.
  repeat match goal with |- context [if ?b then _ else _] => destruct b end; lia.
Qed.

(** A cell in the corner of a 10 x 10 board, shut in by two body cells. *)
Lemma no_escape_route_gives_level_100_witness :
  calculateDangerLevel (mkDangerPredictor 10 10 [] true) (mkPos 0 0)
    [mkPos 0 1; mkPos 1 0] (mkPos 5 5) = Some 100.
Proof.
  apply (no_escape_route_gives_level_100 (mkDangerPredictor 10 10 [] true) (mkPos 0 0)
           [mkPos 0 1; mkPos 1 0] (mkPos 5 5)).
  vm_compute. reflexivity.
Defined.

(** *** The safest direction *)

Definition zoneFor (dp : DangerPredictor) (dir : Label) : option DangerZone :=
  find (fun z => bool_decide (direction z = dir)) (dangerZones dp).

(** No zone carries the label of a direction whose adjacent cell is out of
    bounds or occupied. *)
Lemma analyze_skips_blocked dp head body food dp' dir :
  analyze dp head body food = Some dp' ->
  dir <> Trap ->
  blocked dp (obstacleSet body) (adjacentCell head dir) = true ->
  zoneFor dp' dir = None.
Proof.
  intros Ha Hdir Hb.
  destruct (analyze_zones dp head body food) as (dp2 & Ha2 & Hz).
  rewrite Ha in Ha2. injection Ha2 as <-.
  unfold zoneFor. destruct (find _ _) as [z|] eqn:Hf; [|reflexivity].
  apply find_some in Hf as [Hin Hd].
  apply bool_decide_eq_true in Hd.
  rewrite Forall_forall in Hz.
  destruct (Hz z) as [(_ & _ & Hp & Hnb)|(_ & Ht)].
  - apply list_elem_of_In. exact Hin.
  - rewrite Hp, Hd in Hnb. congruence.
  - congruence.
Qed.

(** X29: a blocked cell above the head makes [Up] the safest direction.
    Zones have non-negative levels, so once the scan has seen a direction
    without a zone nothing later is strictly lower: when the cell above the
    head is out of bounds or on the snake, the answer after [analyze] is
    [Up] with danger 0, whatever the other three cells are. *)
Lemma getSafestDirection_up_blocked dp head body food dp' :
  analyze dp head body food = Some dp' ->
  blocked dp (obstacleSet body) (adjacentCell head Up) = true ->
  getSafestDirection dp' = mkSafest (Some Up) (Finite 0).
Proof.
  intros Ha Hb.
  pose proof (analyze_skips_blocked _ _ _ _ _ Up Ha ltac:(discriminate) Hb) as Hup.
  destruct (analyze_zones dp head body food) as (dp2 & Ha2 & Hl).
  rewrite Ha in Ha2. injection Ha2 as <-.
  rewrite Forall_forall in Hl.
  assert (Hnn : forall dir,
             0 <= match zoneFor dp' dir with Some zone => level zone | None => 0 end).
  { intros dir. unfold zoneFor. destruct (find _ _) as [z|] eqn:Hf; [|lia].
    apply find_some in Hf as [Hin _]. apply list_elem_of_In in Hin.
    destruct (Hl z Hin) as [(Hz & _)|(Hz & _)]; lia. }
  unfold getSafestDirection. cbn [fold_left].
  fold (zoneFor dp' Up) (zoneFor dp' Down) (zoneFor dp' Left) (zoneFor dp' Right).
  rewrite Hup. cbn [danger_lt dangerLevel].
  assert (Hf : forall dir,
             (match zoneFor dp' dir with Some zone => level zone | None => 0 end <? 0)
             = false).
  { intros dir. apply Z.ltb_ge, Hnn. }
  rewrite (Hf Down). cbn [danger_lt dangerLevel].
  rewrite (Hf Left). cbn [danger_lt dangerLevel].
  rewrite (Hf Right). reflexivity.
Qed.

(** A 10 x 10 board with prediction enabled. *)
Definition predictor10 : DangerPredictor := mkDangerPredictor 10 10 [] true.

(** C10: there are inputs on which [getSafestDirection], called after
    [analyze], answers with danger 0 a direction whose adjacent cell is out
    of bounds (head on the top row: [Up]) or occupied (body to the left of
    the head: [Left]), although other directions lead to cells that are in
    bounds and free.  The blocked direction has no zone, which the scan
    reads as danger 0. *)
Theorem safest_direction_can_be_illegal :
  (exists dp',
      analyze predictor10 (mkPos 5 0) [mkPos 5 0] (mkPos 2 2) = Some dp' /\
      getSafestDirection dp' = mkSafest (Some Up) (Finite 0) /\
      zoneFor dp' Up = None /\
      isValidPosition predictor10 (adjacentCell (mkPos 5 0) Up) = false /\
      blocked predictor10 (obstacleSet [mkPos 5 0]) (adjacentCell (mkPos 5 0) Down) = false /\
      blocked predictor10 (obstacleSet [mkPos 5 0]) (adjacentCell (mkPos 5 0) Left) = false /\
      blocked predictor10 (obstacleSet [mkPos 5 0]) (adjacentCell (mkPos 5 0) Right) = false) /\
  (exists dp',
      analyze predictor10 (mkPos 9 5) [mkPos 9 5; mkPos 8 5] (mkPos 2 2) = Some dp' /\
      getSafestDirection dp' = mkSafest (Some Left) (Finite 0) /\
      zoneFor dp' Left = None /\
      adjacentCell (mkPos 9 5) Left ∈ obstacleSet [mkPos 9 5; mkPos 8 5] /\
      blocked predictor10 (obstacleSet [mkPos 9 5; mkPos 8 5]) (adjacentCell (mkPos 9 5) Up)
      = false /\
      blocked predictor10 (obstacleSet [mkPos 9 5; mkPos 8 5]) (adjacentCell (mkPos 9 5) Down)
      = false).
Proof.
  split.
  - eexists. split; [vm_compute; reflexivity|].
    repeat split; vm_compute; reflexivity.
  - eexists. split; [vm_compute; reflexivity|].
    split; [vm_compute; reflexivity|].
    split; [vm_compute; reflexivity|].
    split; [|split; vm_compute; reflexivity].
    unfold obstacleSet, adjacentCell. cbn [x y]. set_solver.
Qed.

(** *** The exact list of zones *)

(** The zone that the first loop of [analyze] records for one direction,
    if any. *)
Definition adjacentZoneFor (dp : DangerPredictor) (head : Pos) (body : list Pos) (food : Pos)
    (d : Z * Z * Label) : list DangerZone :=
  let '(dx, dy, name) := d in
  let nextPos := mkPos (x head + dx) (y head + dy) in
  if blocked dp (obstacleSet body) nextPos then []
  else match calculateDangerLevel dp nextPos body food with
       | Some lvl => if 0 <? lvl then [mkDangerZone nextPos lvl name (getDangerReason lvl)]
                     else []
       | None => []
       end.

Lemma analyze_adjacent_exact dp head body food dirs :
  forall zones,
    analyze_adjacent dp head body food dirs zones
    = Some (zones ++ flat_map (adjacentZoneFor dp head body food) dirs).
Proof.
  induction dirs as [|[[dx dy] name] dirs IH]; intros zones; cbn [analyze_adjacent flat_map].
  - rewrite app_nil_r. reflexivity.
  - unfold adjacentZoneFor at 1.
    destruct (blocked _ _ _); [apply IH|].
    destruct (calculateDangerLevel_returns dp (mkPos (x head + dx) (y head + dy)) body food)
      as (lvl & Hl & _).
    rewrite Hl. cbn [mbind option_bind]. rewrite IH.
    destruct (0 <? lvl); [rewrite <- app_assoc|]; reflexivity.
Qed.

(** A probe that the corridor scan records. *)
Definition trapProbe (dp : DangerPredictor) (body : list Pos) (pos : Pos) : bool :=
  isValidPosition dp pos && (countEscapeRoutes dp pos (obstacleSet body) <=? 1).

Definition trapAt (pos : Pos) : DangerZone :=
  mkDangerZone pos 40 Trap "Potential trap ahead".

Lemma find_position_none (zones : list DangerZone) (pos : Pos) :
  pos ∉ map position zones ->
  find (fun z => bool_decide (position z = pos)) zones = None.
Proof.
  intros H. destruct (find _ zones) as [z|] eqn:E; [|reflexivity].
  apply find_some in E as (Hin & Hp). apply bool_decide_eq_true in Hp.
  exfalso. apply H. rewrite <- Hp. apply list_elem_of_In, in_map, Hin.
Qed.

Lemma corridor_fold dp body (probes : list Pos) :
  NoDup probes ->
  forall zones,
    (forall p, p ∈ probes -> p ∉ map position zones) ->
    fold_left
      (fun zones pos =>
         if negb (isValidPosition dp pos) then zones
         else if countEscapeRoutes dp pos (obstacleSet body) <=? 1 then
           match find (fun z => bool_decide (position z = pos)) zones with
           | Some _ => zones
           | None => zones ++ [mkDangerZone pos 40 Trap "Potential trap ahead"%string]
           end
         else zones)
      probes zones
    = zones ++ map trapAt (List.filter (trapProbe dp body) probes).
Proof.
  induction 1 as [|pos probes Hnotin Hnd IH]; intros zones Hfresh; cbn [fold_left List.filter map].
  - rewrite app_nil_r. reflexivity.
  - unfold trapProbe at 1.
    destruct (isValidPosition dp pos); cbn [negb andb].
    2: { apply IH. intros p Hp. apply Hfresh. right. exact Hp. }
    destruct (_ <=? 1).
    2: { apply IH. intros p Hp. apply Hfresh. right. exact Hp. }
    rewrite find_position_none by (apply Hfresh; left).
    rewrite IH.
    + cbn [map]. rewrite <- app_assoc. reflexivity.
    + intros p Hp. rewrite map_app. cbn [map position]. rewrite elem_of_app.
      intros [Hin|Hin]; [apply (Hfresh p); [right; exact Hp | exact Hin]|].
      apply list_elem_of_singleton in Hin. subst p. contradiction.
Qed.

Ltac distinct_cells :=
  repeat (apply NoDup_cons; split;
          [rewrite ?elem_of_cons, elem_of_nil;
           intros H; repeat (destruct H as [H|H]); try (injection H; lia); exact H|]);
  apply NoDup_nil_2.

Lemma corridorProbes_NoDup head : NoDup (corridorProbes head).
Proof. unfold corridorProbes. cbn [flat_map app]. distinct_cells. Qed.

Lemma adjacentZoneFor_position dp head body food d z :
  d ∈ directions -> z ∈ adjacentZoneFor dp head body food d ->
  Z.abs (x (position z) - x head) + Z.abs (y (position z) - y head) = 1 /\
  direction z = snd d /\ direction z <> Trap /\
  position z = mkPos (x head + fst (fst d)) (y head + snd (fst d)) /\
  blocked dp (obstacleSet body) (position z) = false /\
  calculateDangerLevel dp (position z) body food = Some (level z) /\ 0 < level z /\
  reason z = getDangerReason (level z).
Proof.
  intros Hd Hz. destruct d as [[dx dy] name]. unfold adjacentZoneFor in Hz.
  destruct (blocked _ _ _) eqn:Hb; [inversion Hz|].
  destruct (calculateDangerLevel _ _ _ _) as [lvl|] eqn:Hl; [|inversion Hz].
  destruct (0 <? lvl) eqn:Hpos; [|inversion Hz].
  apply list_elem_of_singleton in Hz. subst z. cbn [position direction level reason fst snd].
  apply Z.ltb_lt in Hpos.
  unfold directions in Hd.
  repeat (apply elem_of_cons in Hd as [Hd|Hd];
          [injection Hd as -> -> ->; cbn [x y]; repeat split; (lia || done)|]).
  inversion Hd.
Qed.

(** The zones of one call: the adjacent cells in scan order, then the
    corridor probes in scan order.  The test for an existing zone never
    holds, because the probes are distinct cells at distance 2 to 4 and the
    adjacent cells are at distance 1. *)
Lemma analyze_exact dp head body food :
  enabled dp = true ->
  analyze dp head body food
  = Some (set_dangerZones
            (flat_map (adjacentZoneFor dp head body food) directions
             ++ map trapAt (List.filter (trapProbe dp body) (corridorProbes head)))
            dp).
Proof.
  intros He. unfold analyze. rewrite He. cbn [negb].
  rewrite analyze_adjacent_exact. cbn [mbind option_bind app]. f_equal.
  unfold detectCorridorTraps, set_dangerZones.
  cbn [dangerZones boardWidth boardHeight enabled].
  f_equal.
  refine (corridor_fold dp body (corridorProbes head) (corridorProbes_NoDup head) _ _).
  intros p Hp Hin. apply list_elem_of_fmap in Hin as (z & -> & Hz).
  apply list_elem_of_In, in_flat_map in Hz as (d & Hd & Hz).
  apply list_elem_of_In in Hd, Hz.
  destruct (adjacentZoneFor_position _ _ _ _ _ _ Hd Hz) as (Hdist & _).
  unfold corridorProbes in Hp. cbn [flat_map app] in Hp.
  rewrite ?elem_of_cons, elem_of_nil in Hp.
  repeat (destruct Hp as [Hp|Hp]); try (rewrite Hp in Hdist; cbn [x y] in Hdist; lia).
  exact Hp.
Qed.

Lemma find_app_split {A : Type} (f : A -> bool) (l1 l2 : list A) :
  find f (l1 ++ l2) = match find f l1 with Some a => Some a | None => find f l2 end.
Proof.
  induction l1 as [|a l1 IH]; cbn [app find]; [reflexivity|].
  destruct (f a); [reflexivity | exact IH].
Qed.

Lemma find_trap_none (name : Label) (probes : list Pos) :
  name <> Trap ->
  find (fun z => bool_decide (direction z = name)) (map trapAt probes) = None.
Proof.
  intros Hn. induction probes as [|p probes IH]; cbn [map find]; [reflexivity|].
  rewrite bool_decide_eq_false_2 by (cbn; congruence). exact IH.
Qed.

Lemma find_adjacentZoneFor dp head body food dx dy (name name' : Label) :
  find (fun z => bool_decide (direction z = name'))
       (adjacentZoneFor dp head body food (dx, dy, name))
  = if bool_decide (name = name')
    then match adjacentZoneFor dp head body food (dx, dy, name) with
         | z :: _ => Some z
         | [] => None
         end
    else None.
Proof.
  unfold adjacentZoneFor.
  destruct (blocked _ _ _); [destruct (bool_decide _); reflexivity|].
  destruct (calculateDangerLevel _ _ _ _) as [lvl|]; [|destruct (bool_decide _); reflexivity].
  destruct (0 <? lvl); [|destruct (bool_decide _); reflexivity].
  cbn [find direction]. destruct (bool_decide (name = name')); reflexivity.
Qed.

(** X11: which adjacent cells get a zone.  With prediction enabled, the
    zone labelled with a move direction exists exactly when the adjacent
    cell in that direction is in bounds, not occupied and has a positive
    danger level; the zone then carries that cell, that level and the
    reason text of the level. *)
Theorem adjacent_zone_recorded_iff
    (dp : DangerPredictor) (snakeHead : Pos) (snakeBody : list Pos) (foodPosition : Pos)
    (name : Label) :
  enabled dp = true ->
  name <> Trap ->
  exists dp' lvl,
    analyze dp snakeHead snakeBody foodPosition = Some dp' /\
    calculateDangerLevel dp (adjacentCell snakeHead name) snakeBody foodPosition = Some lvl /\
    zoneFor dp' name
    = if blocked dp (obstacleSet snakeBody) (adjacentCell snakeHead name) || (lvl <=? 0)
      then None
      else Some (mkDangerZone (adjacentCell snakeHead name) lvl name (getDangerReason lvl)).
Proof.
  intros He Hn.
  destruct (calculateDangerLevel_returns dp (adjacentCell snakeHead name) snakeBody foodPosition)
    as (lvl & Hl & _).
  eexists. exists lvl. split; [apply analyze_exact, He|]. split; [exact Hl|].
  unfold zoneFor. cbn [dangerZones set_dangerZones]. unfold directions. cbn [flat_map].
  rewrite !find_app_split, !find_adjacentZoneFor, (find_trap_none name) by exact Hn.
  cbn [find].
  destruct name; try congruence;
    repeat match goal with
           | |- context [bool_decide (?a = ?b)] =>
               first [rewrite (bool_decide_eq_true_2 (a = b)) by reflexivity
                     | rewrite (bool_decide_eq_false_2 (a = b)) by discriminate]
           end;
    unfold adjacentZoneFor; unfold adjacentCell in Hl |- *;
    destruct (blocked _ _ _); cbn [orb]; try reflexivity;
    rewrite Hl; destruct (Z.ltb_spec 0 lvl), (Z.leb_spec lvl 0);
    first [reflexivity | lia].
Qed.

Lemma adjacent_zone_recorded_iff_witness :
  exists dp',
    analyze predictor10 (mkPos 9 5) [mkPos 9 5; mkPos 8 5] (mkPos 2 2) = Some dp' /\
    zoneFor dp' Up = Some (mkDangerZone (mkPos 9 4) 70 Up "HIGH: Limited escape").
Proof.
  destruct (adjacent_zone_recorded_iff predictor10 (mkPos 9 5) [mkPos 9 5; mkPos 8 5]
              (mkPos 2 2) Up eq_refl ltac:(discriminate)) as (dp' & lvl & Ha & Hl & Hz).
  exists dp'. split; [exact Ha|].
  vm_compute in Hl. injection Hl as <-. exact Hz.
Defined.

(** X12: which cells become corridor traps.  With prediction enabled, a
    cell carries a zone labelled ['trap'] exactly when it is one of the
    twelve probes (distance 2 to 4 from the head along an axis), in bounds,
    and has at most one escape route; the check for an existing zone never
    suppresses one.  Every trap zone has level 40. *)
Theorem corridor_trap_recorded_iff
    (dp : DangerPredictor) (snakeHead : Pos) (snakeBody : list Pos) (foodPosition : Pos) :
  enabled dp = true ->
  exists dp',
    analyze dp snakeHead snakeBody foodPosition = Some dp' /\
    (forall pos,
        (exists z, z ∈ dangerZones dp' /\ direction z = Trap /\ position z = pos) <->
        pos ∈ corridorProbes snakeHead /\ isValidPosition dp pos = true /\
        countEscapeRoutes dp pos (obstacleSet snakeBody) <= 1) /\
    (forall z, z ∈ dangerZones dp' -> direction z = Trap -> level z = 40).
Proof.
  intros He. eexists. split; [apply analyze_exact, He|].
  cbn [dangerZones set_dangerZones].
  assert (Hadj : forall z, z ∈ flat_map (adjacentZoneFor dp snakeHead snakeBody foodPosition)
                                directions -> direction z <> Trap).
  { intros z Hz. apply list_elem_of_In, in_flat_map in Hz as (d & Hd & Hz).
    apply list_elem_of_In in Hd, Hz.
    apply (adjacentZoneFor_position _ _ _ _ _ _ Hd Hz). }
  split.
  - intros pos. split.
    + intros (z & Hz & Hdir & Hp). apply elem_of_app in Hz as [Hz|Hz];
        [exfalso; apply (Hadj z Hz Hdir)|].
      apply list_elem_of_fmap in Hz as (q & -> & Hq). cbn in Hp. subst q.
      apply list_elem_of_In, filter_In in Hq as (Hin & Hgood).
      unfold trapProbe in Hgood. apply andb_true_iff in Hgood as (Hv & Hr).
      apply Z.leb_le in Hr. split; [apply list_elem_of_In, Hin | auto].
    + intros (Hin & Hv & Hr). exists (trapAt pos). split; [|split; reflexivity].
      apply elem_of_app. right. apply list_elem_of_fmap. exists pos. split; [reflexivity|].
      apply list_elem_of_In, filter_In. split; [apply list_elem_of_In, Hin|].
      unfold trapProbe. rewrite Hv. apply Z.leb_le in Hr. rewrite Hr. reflexivity.
  - intros z Hz Hdir. apply elem_of_app in Hz as [Hz|Hz];
      [exfalso; apply (Hadj z Hz Hdir)|].
    apply list_elem_of_fmap in Hz as (q & -> & _). reflexivity.
Qed.

(** A snake along the top row that turns down at (2,0), head at (4,0): the
    cell (1,0), three steps left of the head, has a single free neighbour. *)
Lemma corridor_trap_recorded_iff_witness :
  exists dp',
    analyze predictor10 (mkPos 4 0) [mkPos 4 0; mkPos 3 0; mkPos 2 0; mkPos 2 1; mkPos 1 1]
            (mkPos 7 7) = Some dp' /\
    exists z, z ∈ dangerZones dp' /\ direction z = Trap /\ position z = mkPos 1 0.
Proof.
  destruct (corridor_trap_recorded_iff predictor10 (mkPos 4 0)
              [mkPos 4 0; mkPos 3 0; mkPos 2 0; mkPos 2 1; mkPos 1 1] (mkPos 7 7) eq_refl)
    as (dp' & Ha & Hiff & _).
  exists dp'. split; [exact Ha|]. apply Hiff.
  split; [|split; [reflexivity | vm_compute; discriminate]].
  unfold corridorProbes. cbn. rewrite !elem_of_cons. tauto.
Defined.

Lemma adjacentZoneFor_positions dp head body food dx dy name :
  exists b : bool,
    map position (adjacentZoneFor dp head body food (dx, dy, name))
    = if b then [mkPos (x head + dx) (y head + dy)] else [].
Proof.
  unfold adjacentZoneFor.
  destruct (blocked _ _ _); [exists false; reflexivity|].
  destruct (calculateDangerLevel _ _ _ _) as [lvl|]; [|exists false; reflexivity].
  destruct (0 <? lvl); [exists true | exists false]; reflexivity.
Qed.

(** X13: no cell carries two zones.  With prediction enabled, the zones of
    one [analyze] call have pairwise distinct positions, and there are at
    most 16 of them: up to 4 adjacent cells and up to 12 probes. *)
Theorem zones_have_distinct_cells
    (dp : DangerPredictor) (snakeHead : Pos) (snakeBody : list Pos) (foodPosition : Pos) :
  enabled dp = true ->
  exists dp',
    analyze dp snakeHead snakeBody foodPosition = Some dp' /\
    NoDup (map position (dangerZones dp')) /\
    (length (dangerZones dp') <= 16)%nat.
Proof.
  intros He. eexists. split; [apply analyze_exact, He|].
  cbn [dangerZones set_dangerZones].
  set (probes := List.filter (trapProbe dp snakeBody) (corridorProbes snakeHead)).
  assert (Hprobes : map position (map trapAt probes) = probes).
  { rewrite map_map. cbn. apply map_id. }
  unfold directions. cbn [flat_map].
  destruct (adjacentZoneFor_positions dp snakeHead snakeBody foodPosition 0 (-1) Up) as (b1 & H1).
  destruct (adjacentZoneFor_positions dp snakeHead snakeBody foodPosition 0 1 Down) as (b2 & H2).
  destruct (adjacentZoneFor_positions dp snakeHead snakeBody foodPosition (-1) 0 Left) as (b3 & H3).
  destruct (adjacentZoneFor_positions dp snakeHead snakeBody foodPosition 1 0 Right) as (b4 & H4).
  split.
  - rewrite !map_app, Hprobes, H1, H2, H3, H4. cbn [map app].
    rewrite !app_assoc. apply NoDup_app. split; [|split].
    + destruct b1, b2, b3, b4; cbn [app]; distinct_cells.
    + intros p Hp Hq. subst probes.
      apply list_elem_of_In, filter_In in Hq as (Hq & _). apply list_elem_of_In in Hq.
      assert (Hd1 : Z.abs (x p - x snakeHead) + Z.abs (y p - y snakeHead) = 1).
      { destruct b1, b2, b3, b4; cbn [app] in Hp;
          rewrite ?elem_of_cons, elem_of_nil in Hp;
          repeat (destruct Hp as [Hp|Hp]); try (subst p; cbn [x y]; lia); contradiction. }
      unfold corridorProbes in Hq. cbn [flat_map app] in Hq.
      rewrite ?elem_of_cons, elem_of_nil in Hq.
      repeat (destruct Hq as [Hq|Hq]); try (rewrite Hq in Hd1; cbn [x y] in Hd1; lia).
      exact Hq.
    + subst probes. apply NoDup_ListNoDup, List.NoDup_filter, NoDup_ListNoDup.
      apply corridorProbes_NoDup.
  - rewrite <- (length_map position), !map_app, Hprobes, H1, H2, H3, H4.
    rewrite !length_app.
    assert ((length probes <= 12)%nat).
    { subst probes. etransitivity; [apply List.filter_length_le|]. reflexivity. }
    destruct b1, b2, b3, b4; cbn [length Nat.add map]; lia.
Qed.

Lemma zones_have_distinct_cells_witness :
  exists dp',
    analyze predictor10 (mkPos 4 0) [mkPos 4 0; mkPos 3 0; mkPos 2 0; mkPos 2 1; mkPos 1 1]
      (mkPos 7 7) = Some dp' /\
    NoDup (map position (dangerZones dp')) /\
    (length (dangerZones dp') <= 16)%nat.
Proof.
  apply (zones_have_distinct_cells predictor10 (mkPos 4 0)
           [mkPos 4 0; mkPos 3 0; mkPos 2 0; mkPos 2 1; mkPos 1 1] (mkPos 7 7)).
  reflexivity.
Defined.

(** The danger that [getSafestDirection] reads for a direction. *)
Definition dangerOf (dp : DangerPredictor) (dir : Label) : Z :=
  match zoneFor dp dir with
  | Some zone => level zone
  | None => 0
  end.

(** X14: [getSafestDirection] returns the first minimum.  For any list of
    zones the answer is a move direction, never [null] or [Infinity]; its
    danger is the least of the four, and every direction scanned before it
    has strictly greater danger. *)
Theorem safest_direction_is_first_minimum (dp : DangerPredictor) :
  exists d j,
    moves !! j = Some d /\
    getSafestDirection dp = mkSafest (Some d) (Finite (dangerOf dp d)) /\
    (forall d', d' ∈ moves -> dangerOf dp d <= dangerOf dp d') /\
    (forall i d', moves !! i = Some d' -> (i < j)%nat -> dangerOf dp d < dangerOf dp d').
Proof.
  unfold getSafestDirection. cbn [fold_left].
  fold (zoneFor dp Up) (zoneFor dp Down) (zoneFor dp Left) (zoneFor dp Right).
  fold (dangerOf dp Up) (dangerOf dp Down) (dangerOf dp Left) (dangerOf dp Right).
  cbn [danger_lt dangerLevel].
  assert (Hmoves : forall d', d' ∈ moves -> d' = Up \/ d' = Down \/ d' = Left \/ d' = Right).
  { intros d' Hd. unfold moves in Hd. rewrite !elem_of_cons, elem_of_nil in Hd. tauto. }
  do 3 (match goal with
        | |- context [?a <? ?b] => destruct (Z.ltb_spec a b)
        end; cbn [danger_lt dangerLevel]);
    [ exists Right, 3%nat | exists Left, 2%nat | exists Right, 3%nat | exists Down, 1%nat
    | exists Right, 3%nat | exists Left, 2%nat | exists Right, 3%nat | exists Up, 0%nat ];
    (split; [reflexivity|]); (split; [reflexivity|]);
    (split;
     [ intros d' Hd; destruct (Hmoves d' Hd) as [->|[->|[->| ->]]]; lia
     | intros i d' Hi Hlt;
       destruct i as [|[|[|[|i]]]]; cbn in Hi; try lia;
       injection Hi as <-; lia ]).
Qed.

(** *** What the flood fill counts *)

Section FloodFill.
Variables (dp : DangerPredictor) (obstacles : gset Pos) (start : Pos).

Definition fillFree (p : Pos) : Prop := isValidPosition dp p = true /\ p ∉ obstacles.

Definition fillNeighbours (p : Pos) : list Pos :=
  [mkPos (x p + 1) (y p); mkPos (x p - 1) (y p);
   mkPos (x p) (y p + 1); mkPos (x p) (y p - 1)].

(** The cells that unit moves through free cells reach from [start]. *)
Inductive fillReach : Pos -> Prop :=
| fillReach_start : fillFree start -> fillReach start
| fillReach_step p q : fillReach p -> q ∈ fillNeighbours p -> fillFree q -> fillReach q.

Record FillInv (visited : gset Pos) (queue : list Pos) (count : Z) : Prop := mkFillInv {
  fi_count : count = Z.of_nat (size visited);
  fi_visited : forall p, p ∈ visited -> fillReach p;
  fi_queue : forall q, q ∈ queue -> fillFree q -> fillReach q;
  fi_closed : forall p q,
    p ∈ visited -> q ∈ fillNeighbours p -> fillFree q -> q ∈ visited \/ q ∈ queue;
  fi_start : fillFree start -> start ∈ visited \/ start ∈ queue
}.

(** What the loop returns: the size of a set of reachable cells that is
    the whole reachable area unless the cap was hit. *)
Definition fillResult (n : Z) : Prop :=
  exists area : gset Pos,
    n = Z.of_nat (size area) /\ n <= maxCount /\
    (forall p, p ∈ area -> fillReach p) /\
    (n < maxCount -> forall p, fillReach p -> p ∈ area).

Lemma floodFill_loop_spec fuel :
  forall visited queue count,
    FillInv visited queue count ->
    count <= maxCount ->
    Z.of_nat (length queue) + 4 * (maxCount - count) < Z.of_nat fuel ->
    exists n, floodFill_loop dp obstacles fuel visited queue count = Some n /\ fillResult n.
Proof.
  induction fuel as [|fuel IH]; intros visited queue count HI Hc Hm.
  - pose proof (fi_count _ _ _ HI). unfold maxCount in *. lia.
  - cbn [floodFill_loop]. destruct queue as [|pos rest].
    + exists count. split; [reflexivity|]. exists visited.
      split; [apply (fi_count _ _ _ HI)|]. split; [exact Hc|].
      split; [apply (fi_visited _ _ _ HI)|].
      intros _ p Hp. induction Hp as [Hs|p q Hp IHp Hq Hf].
      * destruct (fi_start _ _ _ HI Hs) as [H|H]; [exact H | inversion H].
      * destruct (fi_closed _ _ _ HI p q IHp Hq Hf) as [H|H]; [exact H | inversion H].
    + destruct (Z.ltb_spec count maxCount) as [Hlt|Hge].
      2: { exists count. split; [reflexivity|]. exists visited.
           split; [apply (fi_count _ _ _ HI)|]. split; [exact Hc|].
           split; [apply (fi_visited _ _ _ HI)|]. lia. }
      cbn [length] in Hm.
      destruct (bool_decide (pos ∈ visited)) eqn:Hv; cbn [orb].
      { apply bool_decide_eq_true in Hv. apply IH; [|exact Hc|lia].
        destruct HI as [H1 H2 H3 H4 H5]. constructor; try assumption.
        - intros q Hq. apply H3. right. exact Hq.
        - intros p q Hp Hq Hf. destruct (H4 p q Hp Hq Hf) as [H|H]; [left; exact H|].
          apply elem_of_cons in H as [->|H]; [left; exact Hv | right; exact H].
        - intros Hs. destruct (H5 Hs) as [H|H]; [left; exact H|].
          apply elem_of_cons in H as [->|H]; [left; exact Hv | right; exact H]. }
      apply bool_decide_eq_false in Hv.
      destruct (bool_decide (pos ∈ obstacles) || negb (isValidPosition dp pos)) eqn:Hb.
      { assert (Hnf : ~ fillFree pos).
        { intros (Hval & Hno). apply orb_true_iff in Hb as [Hb|Hb].
          - apply bool_decide_eq_true in Hb. contradiction.
          - rewrite Hval in Hb. discriminate. }
        apply IH; [|exact Hc|lia].
        destruct HI as [H1 H2 H3 H4 H5]. constructor; try assumption.
        - intros q Hq. apply H3. right. exact Hq.
        - intros p q Hp Hq Hf. destruct (H4 p q Hp Hq Hf) as [H|H]; [left; exact H|].
          apply elem_of_cons in H as [->|H]; [contradiction | right; exact H].
        - intros Hs. destruct (H5 Hs) as [H|H]; [left; exact H|].
          apply elem_of_cons in H as [Heq|H]; [rewrite Heq in Hs; contradiction | right; exact H]. }
      apply orb_false_iff in Hb as (Hob & Hval).
      apply bool_decide_eq_false in Hob. apply negb_false_iff in Hval.
      assert (Hfree : fillFree pos) by (split; assumption).
      destruct HI as [H1 H2 H3 H4 H5].
      assert (Hreach : fillReach pos) by (apply H3; [left | exact Hfree]).
      apply IH.
      * constructor.
        -- rewrite size_union by set_solver. rewrite size_singleton. lia.
        -- intros p Hp. apply elem_of_union in Hp as [Hp|Hp]; [|apply H2, Hp].
           apply elem_of_singleton in Hp. subst p. exact Hreach.
        -- intros q Hq Hf. apply elem_of_app in Hq as [Hq|Hq].
           ++ apply H3; [right; exact Hq | exact Hf].
           ++ apply (fillReach_step pos q Hreach Hq Hf).
        -- intros p q Hp Hq Hf. apply elem_of_union in Hp as [Hp|Hp].
           ++ apply elem_of_singleton in Hp. subst p. right.
              apply elem_of_app. right. exact Hq.
           ++ destruct (H4 p q Hp Hq Hf) as [H|H]; [left; set_solver|].
              apply elem_of_cons in H as [->|H]; [left; set_solver|].
              right. apply elem_of_app. left. exact H.
        -- intros Hs. destruct (H5 Hs) as [H|H]; [left; set_solver|].
           apply elem_of_cons in H as [Heq|H]; [left; set_solver|].
           right. apply elem_of_app. left. exact H.
      * lia.
      * rewrite length_app. cbn [length]. lia.
Qed.

Lemma fillReach_free_start p : fillReach p -> fillFree start.
Proof. induction 1; assumption. Qed.

End FloodFill.

(** X15: the flood fill counts the reachable area up to its cap.
    [floodFillCount] returns the number of cells of a set of cells
    reachable from [start] by unit moves through cells that are in bounds
    and not obstacles; below the cap of 100 that set is the whole reachable
    area.  The count is 0 exactly when [start] itself is out of bounds or an
    obstacle. *)
Theorem floodFill_counts_reachable_area
    (dp : DangerPredictor) (start : Pos) (obstacles : gset Pos) :
  exists n (area : gset Pos),
    floodFillCount dp start obstacles = Some n /\
    n = Z.of_nat (size area) /\ 0 <= n <= maxCount /\
    (forall p, p ∈ area -> fillReach dp obstacles start p) /\
    (n < maxCount -> forall p, fillReach dp obstacles start p -> p ∈ area) /\
    (n = 0 <-> ~ fillFree dp obstacles start).
Proof.
  destruct (floodFill_loop_spec dp obstacles start floodFill_fuel ∅ [start] 0)
    as (n & Hn & area & Hsize & Hcap & Hsub & Hall).
  - constructor.
    + rewrite size_empty. reflexivity.
    + intros p Hp. set_solver.
    + intros q Hq Hf. apply list_elem_of_singleton in Hq. subst q.
      apply fillReach_start, Hf.
    + intros p q Hp. set_solver.
    + intros _. right. left.
  - unfold maxCount. lia.
  - unfold maxCount, floodFill_fuel. cbn [length]. lia.
  - exists n, area. split; [exact Hn|]. split; [exact Hsize|]. split; [lia|].
    split; [exact Hsub|]. split; [exact Hall|]. split.
    + intros H0 Hf. assert (Hin : start ∈ area).
      { apply Hall; [unfold maxCount; lia | apply fillReach_start, Hf]. }
      assert (size area = 0%nat) as Hz by lia.
      apply size_empty_inv in Hz. apply (Hz start) in Hin.
      exact (not_elem_of_empty (C:=gset Pos) start Hin).
    + intros Hnf. assert (area = ∅) as ->.
      { apply set_eq. intros p.
        split; [|intros H; exfalso; exact (not_elem_of_empty (C:=gset Pos) p H)].
        intros Hp. exfalso. apply Hnf, (fillReach_free_start dp obstacles start p), Hsub, Hp. }
      rewrite size_empty in Hsize. exact Hsize.
Qed.

(** X16: one escape route or none means high danger.  A cell with at most
    one escape route has a danger level of at least 60, so the reason text
    of its zone is the HIGH or the CRITICAL one. *)
Theorem few_escape_routes_high_danger
    (dp : DangerPredictor) (pos : Pos) (snakeBody : list Pos) (foodPosition : Pos) :
  countEscapeRoutes dp pos (obstacleSet snakeBody) <= 1 ->
  exists lvl,
    calculateDangerLevel dp pos snakeBody foodPosition = Some lvl /\
    60 <= lvl <= 100 /\
    (getDangerReason lvl = "HIGH: Limited escape"%string \/
     getDangerReason lvl = "CRITICAL: Dead end!"%string).
Proof.
  intros Hr. unfold calculateDangerLevel.
  destruct (floodFillCount_returns dp pos (obstacleSet snakeBody)) as (n & Hn & _).
  rewrite Hn. cbn [mbind option_bind]. eexists. split; [reflexivity|].
  pose proof (calculateWallProximity_nonneg dp pos).
  pose proof (calculateBodyProximity_nonneg pos snakeBody).
  assert (Hrange : countEscapeRoutes dp pos (obstacleSet snakeBody) = 0 \/
                   countEscapeRoutes dp pos (obstacleSet snakeBody) = 1).
  { rewrite countEscapeRoutes_unfold in Hr |- *.
    repeat match goal with |- context [if ?b then _ else _] => destruct b end; lia. }
  match goal with |- 60 <= ?v <= 100 /\ _ => set (lvl := v) end.
  assert (Hl : 60 <= lvl <= 100).
  { subst lvl. destruct Hrange as [-> | ->]; cbn [Z.eqb Pos.eqb];
      (split; [apply Z.min_glb; [lia|] | lia]);
      repeat match goal with |- context [if ?b then _ else _] => destruct b end; lia. }
  split; [exact Hl|]. unfold getDangerReason.
  destruct (80 <=? lvl); [right; reflexivity|].
  destruct (Z.leb_spec 60 lvl); [left; reflexivity | lia].
Qed.

Lemma few_escape_routes_high_danger_witness :
  exists lvl,
    calculateDangerLevel predictor10 (mkPos 0 0) [mkPos 0 1] (mkPos 5 5) = Some lvl /\
    60 <= lvl <= 100.
Proof.
  destruct (few_escape_routes_high_danger predictor10 (mkPos 0 0) [mkPos 0 1] (mkPos 5 5))
    as (lvl & Hl & Hrange & _).
  - vm_compute. discriminate.
  - exists lvl. split; [exact Hl | exact Hrange].
Defined.

Lemma getSafestDirection_up_blocked_witness :
  exists dp',
    analyze predictor10 (mkPos 5 0) [mkPos 5 0; mkPos 4 0] (mkPos 2 2) = Some dp' /\
    getSafestDirection dp' = mkSafest (Some Up) (Finite 0).
Proof.
  destruct (analyze_zones predictor10 (mkPos 5 0) [mkPos 5 0; mkPos 4 0] (mkPos 2 2))
    as (dp' & Ha & _).
  exists dp'. split; [exact Ha|].
  apply (getSafestDirection_up_blocked predictor10 (mkPos 5 0) [mkPos 5 0; mkPos 4 0]
           (mkPos 2 2) dp' Ha).
  reflexivity.
Defined.

End DangerFacts.

Module PathfindingFacts.
Import Pathfinding.

#[local] Arguments relax : simpl never.
#[local] Arguments reconstructPath : simpl never.

(** Two cells differ by exactly one unit on exactly one axis. *)
Definition adjacent (a b : Pos) : Prop :=
  (x a = x b /\ Z.abs (y a - y b) = 1) \/ (y a = y b /\ Z.abs (x a - x b) = 1).

Lemma samePosition_true a b : samePosition a b = true <-> a = b.
Proof.
  unfold samePosition. destruct a as [xa ya], b as [xb yb]; simpl.
  rewrite andb_true_iff, !Z.eqb_eq. split; [intros [-> ->]; reflexivity|].
  intros H; injection H; auto.
Qed.

Lemma samePosition_false a b : samePosition a b = false <-> a <> b.
Proof.
  rewrite <- samePosition_true. destruct (samePosition a b); split; congruence.
Qed.

Lemma adjacent_heuristic a b : adjacent a b <-> heuristic a b = 1.
Proof. unfold adjacent, heuristic. lia. Qed.

Lemma adjacent_neq a b : adjacent a b -> a <> b.
Proof. intros H ->. unfold adjacent in H. lia. Qed.

(** The heuristic changes by at most one along a move. *)
Lemma heuristic_step a b t : adjacent a b -> heuristic a t <= heuristic b t + 1.
Proof. unfold adjacent, heuristic. lia. Qed.

Lemma getNeighbors_spec e p v :
  v ∈ getNeighbors e p <-> adjacent p v /\ isValidPosition e v = true.
Proof.
  unfold getNeighbors. rewrite list_elem_of_In, filter_In.
  unfold directionOffsets; cbn [map fst snd In].
  split.
  - intros [Hin Hv]. split; [|exact Hv].
    unfold adjacent.
    destruct Hin as [<-|[<-|[<-|[<-|[]]]]]; cbn [x y]; lia.
  - intros [Ha Hv]. split; [|exact Hv].
    destruct p as [px py], v as [vx vy]. unfold adjacent in Ha. cbn [x y] in *.
    assert ((vx = px + 0 /\ vy = py + -1) \/ (vx = px + 0 /\ vy = py + 1) \/
            (vx = px + -1 /\ vy = py + 0) \/ (vx = px + 1 /\ vy = py + 0))
      as [[-> ->]|[[-> ->]|[[-> ->]|[-> ->]]]] by lia; auto.
Qed.

Lemma selectLowest_spec (fS : gmap Pos Z) (nodes : list Pos) :
  forall i cur ci,
    (forall n, n ∈ cur :: nodes -> is_Some (fS !! n)) ->
    exists c idx,
      selectLowest fS nodes i cur ci = (c, idx) /\
      ((c = cur /\ idx = ci) \/ (exists j, nodes !! j = Some c /\ idx = (i + j)%nat)) /\
      (forall n kn kc, n ∈ cur :: nodes -> fS !! n = Some kn -> fS !! c = Some kc ->
                       kc <= kn).
Proof.
  induction nodes as [|node rest IH]; intros i cur ci Hsome.
  - exists cur, ci. split; [reflexivity|]. split; [left; auto|].
    intros n kn kc Hn Hkn Hkc. apply list_elem_of_singleton in Hn as ->.
    rewrite Hkn in Hkc. injection Hkc as ->. lia.
  - cbn [selectLowest].
    destruct (Hsome node) as [fn Hfn]; [set_solver|].
    destruct (Hsome cur) as [fc Hfc]; [set_solver|].
    rewrite Hfn, Hfc. cbn [js_lt].
    destruct (fn <? fc) eqn:Hlt.
    + apply Z.ltb_lt in Hlt.
      destruct (IH (S i) node i) as (c & idx & Hsel & Hidx & Hmin);
        [intros n Hn; apply Hsome; right; exact Hn|].
      exists c, idx. split; [exact Hsel|]. split.
      * right. destruct Hidx as [[-> ->]|(j & Hj & ->)].
        -- exists 0%nat. split; [reflexivity | lia].
        -- exists (S j). split; [exact Hj | lia].
      * intros n kn kc Hn Hkn Hkc.
        apply elem_of_cons in Hn as [Hn|Hn]; [subst n|eapply Hmin; eassumption].
        rewrite Hfc in Hkn. injection Hkn as <-.
        pose proof (Hmin node fn kc ltac:(left) Hfn Hkc). lia.
    + apply Z.ltb_ge in Hlt.
      destruct (IH (S i) cur ci) as (c & idx & Hsel & Hidx & Hmin);
        [intros n Hn; apply Hsome; rewrite !elem_of_cons in *; tauto|].
      exists c, idx. split; [exact Hsel|]. split.
      * destruct Hidx as [[-> ->]|(j & Hj & ->)]; [left; auto|].
        right. exists (S j). split; [exact Hj | lia].
      * intros n kn kc Hn Hkn Hkc.
        apply elem_of_cons in Hn as [Hn|Hn];
          [subst n; eapply Hmin; [left| |]; eassumption|].
        apply elem_of_cons in Hn as [Hn|Hn].
        -- subst n. rewrite Hfn in Hkn. injection Hkn as <-.
           pose proof (Hmin cur fc kc ltac:(left) Hfc Hkc). lia.
        -- eapply Hmin; [right|..]; eassumption.
Qed.

(** [openSet.splice(currentIndex, 1)] on an array without repetition. *)
Lemma delete_NoDup (l : list Pos) (i : nat) (c : Pos) :
  NoDup l -> l !! i = Some c ->
  NoDup (delete i l) /\ forall p, p ∈ delete i l <-> p ∈ l /\ p <> c.
Proof.
  intros Hnd Hi.
  rewrite delete_take_drop.
  pose proof (take_drop_middle l i c Hi) as Hl.
  rewrite <- Hl in Hnd.
  apply NoDup_app in Hnd as (Hn1 & Hn2 & Hn3).
  apply NoDup_cons in Hn3 as (Hn3 & Hn4).
  split.
  - apply NoDup_app. repeat split; try assumption.
    intros p Hp Hp'. apply (Hn2 p Hp). right. exact Hp'.
  - intros p.
    assert (Hin : p ∈ l <-> p ∈ take i l \/ p = c \/ p ∈ drop (S i) l).
    { rewrite <- Hl at 1. rewrite elem_of_app, elem_of_cons. tauto. }
    rewrite elem_of_app, Hin. split.
    + intros [Hp|Hp]; (split; [tauto|]); intros ->.
      * apply (Hn2 c Hp). left.
      * contradiction.
    + intros [[Hp|[->|Hp]] Hne]; tauto.
Qed.

Lemma NoDup_size_le (ks : list Pos) (X : gset Pos) :
  NoDup ks -> (forall m, m ∈ ks -> m ∈ X) -> (length ks <= size X)%nat.
Proof.
  intros Hnd Hin. unfold size, set_size. cbn.
  apply submseteq_length, NoDup_submseteq; [exact Hnd|].
  intros m Hm. apply elem_of_elements, Hin, Hm.
Qed.

(** A set of cells of the board has at most width * height members. *)
Lemma valid_cells_size e (X : gset Pos) :
  0 <= boardWidth e -> 0 <= boardHeight e ->
  (forall p, p ∈ X -> isValidPosition e p = true) ->
  (size X <= Z.to_nat (boardWidth e * boardHeight e))%nat.
Proof.
  intros HW HH Hv.
  set (cells := list_prod (seqZ 0 (boardWidth e)) (seqZ 0 (boardHeight e))).
  set (l := map (fun p => (x p, y p)) (elements X)).
  assert (Hl : (length l <= length cells)%nat).
  { apply NoDup_incl_length.
    - apply NoDup_ListNoDup. apply NoDup_fmap_2; [|apply NoDup_elements].
      intros [a b] [c d]; cbn. congruence.
    - intros [a b] Hab. apply in_map_iff in Hab as (p & Hp & Hin).
      injection Hp as <- <-.
      apply list_elem_of_In, elem_of_elements, Hv in Hin.
      unfold isValidPosition in Hin.
      apply in_prod_iff. rewrite <- !list_elem_of_In, !elem_of_seqZ. lia. }
  unfold l, cells in Hl.
  rewrite length_map, length_prod, !length_seqZ in Hl.
  unfold size, set_size. cbn.
  rewrite Z2Nat.inj_mul by assumption. exact Hl.
Qed.

Section Search.
Variables (e : PathfindingEngine) (start target : Pos) (obs : gset Pos).

(** A cell the search may enter: in bounds and not an obstacle. *)
Definition free (p : Pos) : Prop := isValidPosition e p = true /\ p ∉ obs.

(** Every step of the list is a unit move into a free cell. *)
Fixpoint linked (l : list Pos) : Prop :=
  match l with
  | a :: (b :: _) as rest => adjacent a b /\ free b /\ linked rest
  | _ => True
  end.

(** The Path of the specification: from [s] to [t] by unit moves, no
    cell after the first out of bounds or in the obstacle set. *)
Definition isPath (s t : Pos) (l : list Pos) : Prop :=
  head l = Some s /\ last l = Some t /\ linked l.

Lemma linked_cons a b l :
  linked (a :: b :: l) <-> adjacent a b /\ free b /\ linked (b :: l).
Proof. reflexivity. Qed.

Lemma linked_app_one l a b :
  linked (l ++ [a]) -> adjacent a b -> free b -> linked (l ++ [a; b]).
Proof.
  induction l as [|c l IH]; intros Hl Ha Hf.
  - simpl. auto.
  - destruct l as [|d l].
    + simpl in *. tauto.
    + change (linked (c :: d :: l ++ [a; b])).
      change (linked (c :: d :: l ++ [a])) in Hl.
      rewrite linked_cons in Hl |- *.
      destruct Hl as (H1 & H2 & H3).
      split; [exact H1|]. split; [exact H2|].
      apply IH; assumption.
Qed.

Lemma isPath_extend s a b l :
  isPath s a l -> adjacent a b -> free b -> isPath s b (l ++ [b]).
Proof.
  intros (Hh & Hl & Hlink) Ha Hf.
  destruct (last_Some l a) as [(l' & ->) _]; [exact Hl|].
  repeat split.
  - destruct l'; simpl in *; exact Hh.
  - apply last_snoc.
  - rewrite <- app_assoc. apply linked_app_one; assumption.
Qed.

Lemma isPath_singleton s : isPath s s [s].
Proof. repeat split. Qed.

Lemma isPath_length_pos s t l : isPath s t l -> (1 <= length l)%nat.
Proof. intros (Hh & _). destruct l; simpl in *; [discriminate | lia]. Qed.

(** *** The invariant of the search loop

    [pending] is the node taken from the open set whose neighbours are
    still being processed, if any. *)
Record Inv (pending : option Pos) (st : SearchState) : Prop := mkInv {
  inv_nodup : NoDup (openSet st);
  inv_disjoint : forall p, p ∈ openSet st -> p ∉ closedSet st;
  inv_dom : forall p,
    is_Some (gScore st !! p) <-> p ∈ openSet st \/ p ∈ closedSet st;
  inv_fscore : forall p k,
    gScore st !! p = Some k -> fScore st !! p = Some (k + heuristic p target);
  inv_valid : forall p, is_Some (gScore st !! p) -> isValidPosition e p = true;
  inv_start : gScore st !! start = Some 0;
  inv_start_closed :
    start ∈ closedSet st \/ (pending = None /\ openSet st = [start]);
  inv_path : forall p k,
    gScore st !! p = Some k ->
    exists l, isPath start p l /\ Z.of_nat (length l) = k + 1;
  inv_parent : forall p k,
    gScore st !! p = Some k ->
    (p = start /\ cameFrom st !! p = None) \/
    (exists q, cameFrom st !! p = Some q /\ q ∈ closedSet st /\
               gScore st !! q = Some (k - 1) /\ adjacent q p /\ free p);
  inv_parent_dom : forall p, is_Some (cameFrom st !! p) -> is_Some (gScore st !! p);
  inv_optimal : forall p k l,
    p ∈ closedSet st -> gScore st !! p = Some k -> isPath start p l ->
    k + 1 <= Z.of_nat (length l);
  inv_edge : forall u v ku,
    u ∈ closedSet st -> pending <> Some u -> gScore st !! u = Some ku ->
    adjacent u v -> free v ->
    exists kv, gScore st !! v = Some kv /\ kv <= ku + 1;
  inv_target : target ∉ closedSet st
}.

Lemma initialState_Inv :
  isValidPosition e start = true -> Inv None (initialState start target).
Proof.
  intros Hv. unfold initialState. constructor; cbn [openSet closedSet gScore fScore cameFrom].
  - apply NoDup_singleton.
  - intros p _. apply not_elem_of_empty.
  - intros p. rewrite list_elem_of_singleton. split.
    + intros [k Hk]. apply lookup_singleton_Some in Hk as [<- _]. auto.
    + intros [->|H]; [|set_solver]. rewrite lookup_singleton_eq. eauto.
  - intros p k Hk. apply lookup_singleton_Some in Hk as [<- <-].
    rewrite lookup_singleton_eq. reflexivity.
  - intros p [k Hk]. apply lookup_singleton_Some in Hk as [<- _]. exact Hv.
  - apply lookup_singleton_eq.
  - right. auto.
  - intros p k Hk. apply lookup_singleton_Some in Hk as [<- <-].
    exists [start]. split; [apply isPath_singleton | reflexivity].
  - intros p k Hk. apply lookup_singleton_Some in Hk as [<- <-].
    left. split; [reflexivity | apply lookup_empty].
  - intros p [q Hq]. rewrite lookup_empty in Hq. discriminate.
  - intros p k l Hp. set_solver.
  - intros u v ku Hu. set_solver.
  - apply not_elem_of_empty.
Qed.

(** [Reach st a k]: a node reached by [k] moves is either closed with a
    gScore of at most [k], or some open node has an fScore of at most
    [k] plus the heuristic of [a]. *)
Definition Reach (st : SearchState) (a : Pos) (k : Z) : Prop :=
  (a ∈ closedSet st /\ exists ka, gScore st !! a = Some ka /\ ka <= k) \/
  (exists v kv, v ∈ openSet st /\ gScore st !! v = Some kv /\
                kv + heuristic v target <= k + heuristic a target).

Lemma Reach_step st a b k :
  Inv None st -> Reach st a k -> adjacent a b -> free b -> Reach st b (k + 1).
Proof.
  intros HI [(Hc & ka & Hka & Hle)|(v & kv & Hv & Hkv & Hle)] Hab Hfb.
  - destruct (inv_edge _ _ HI a b ka Hc ltac:(discriminate) Hka Hab Hfb)
      as (kb & Hkb & Hkble).
    destruct (proj1 (inv_dom _ _ HI b) ltac:(eauto)) as [Ho|Hcl].
    + right. exists b, kb. repeat split; try assumption. lia.
    + left. split; [assumption|]. exists kb. split; [assumption | lia].
  - right. exists v, kv. repeat split; try assumption.
    pose proof (heuristic_step a b target Hab). lia.
Qed.

Lemma Reach_path st l :
  Inv None st ->
  forall a t k, head l = Some a -> last l = Some t -> linked l -> Reach st a k ->
                Reach st t (k + Z.of_nat (length l) - 1).
Proof.
  intros HI. induction l as [|c l IH]; intros a t k Hh Hl Hlink HR.
  - discriminate.
  - simpl in Hh. injection Hh as Hh. subst c.
    destruct l as [|d l].
    + simpl in Hl. injection Hl as Hl. subst t.
      replace (k + Z.of_nat (length [a]) - 1) with k by (simpl; lia). exact HR.
    + apply linked_cons in Hlink as (Had & Hfd & Hlink).
      replace (k + Z.of_nat (length (a :: d :: l)) - 1)
        with ((k + 1) + Z.of_nat (length (d :: l)) - 1)
        by (cbn [length]; lia).
      apply (IH d); [reflexivity | exact Hl | exact Hlink |].
      eapply Reach_step; eassumption.
Qed.

Lemma Reach_start st : Inv None st -> Reach st start 0.
Proof.
  intros HI. pose proof (inv_start _ _ HI) as Hs.
  destruct (proj1 (inv_dom _ _ HI start) ltac:(eauto)) as [Ho|Hc].
  - right. exists start, 0. repeat split; try assumption. lia.
  - left. split; [assumption|]. exists 0. split; [assumption | lia].
Qed.

(** Every path from [start] to [t] is bounded below, either by the
    gScore of [t] if it is closed, or by the fScore of an open node. *)
Lemma lower_bound st t l :
  Inv None st -> isPath start t l -> Reach st t (Z.of_nat (length l) - 1).
Proof.
  intros HI (Hh & Hl & Hlink).
  replace (Z.of_nat (length l) - 1) with (0 + Z.of_nat (length l) - 1) by lia.
  eapply Reach_path; try eassumption. apply Reach_start, HI.
Qed.

(** *** Taking the best node off the open set *)

Definition closeCurrent (st : SearchState) (current : Pos) (currentIndex : nat)
  : SearchState :=
  {| openSet := delete currentIndex (openSet st);
     closedSet := {[current]} ∪ closedSet st;
     gScore := gScore st;
     fScore := fScore st;
     cameFrom := cameFrom st |}.

Lemma select_from_open st first rest :
  Inv None st -> openSet st = first :: rest ->
  exists c idx kc,
    selectLowest (fScore st) rest 1 first 0 = (c, idx) /\
    openSet st !! idx = Some c /\
    gScore st !! c = Some kc /\
    (forall l, isPath start c l -> kc + 1 <= Z.of_nat (length l)).
Proof.
  intros HI Ho.
  assert (Hg : forall n, n ∈ first :: rest -> is_Some (gScore st !! n)).
  { intros n Hn. apply (inv_dom _ _ HI). left. rewrite Ho. exact Hn. }
  destruct (selectLowest_spec (fScore st) rest 1 first 0) as (c & idx & Hsel & Hidx & Hmin).
  { intros n Hn. destruct (Hg n Hn) as [k Hk].
    rewrite (inv_fscore _ _ HI n k Hk). eauto. }
  assert (Hci : openSet st !! idx = Some c).
  { rewrite Ho. destruct Hidx as [[-> ->]|(j & Hj & ->)]; [reflexivity | exact Hj]. }
  assert (Hc : c ∈ first :: rest).
  { rewrite <- Ho. eapply list_elem_of_lookup_2. exact Hci. }
  destruct (Hg c Hc) as [kc Hkc].
  exists c, idx, kc. repeat split; try assumption.
  intros l Hl.
  destruct (lower_bound st c l HI Hl) as [(Hcl & _)|(v & kv & Hv & Hkv & Hle)].
  - exfalso. apply (inv_disjoint _ _ HI c); [rewrite Ho; exact Hc | exact Hcl].
  - rewrite Ho in Hv.
    pose proof (Hmin v _ _ Hv (inv_fscore _ _ HI v kv Hkv) (inv_fscore _ _ HI c kc Hkc)).
    lia.
Qed.

Lemma closeCurrent_Inv st c idx kc :
  Inv None st ->
  openSet st !! idx = Some c ->
  gScore st !! c = Some kc ->
  (forall l, isPath start c l -> kc + 1 <= Z.of_nat (length l)) ->
  c <> target ->
  Inv (Some c) (closeCurrent st c idx).
Proof.
  intros HI Hci Hkc Hopt Hct.
  destruct (delete_NoDup (openSet st) idx c (inv_nodup _ _ HI) Hci) as (Hnd & Hdel).
  assert (Hco : c ∈ openSet st) by (eapply list_elem_of_lookup_2; exact Hci).
  constructor; cbn [closeCurrent openSet closedSet gScore fScore cameFrom].
  - exact Hnd.
  - intros p Hp. apply Hdel in Hp as (Hp & Hne).
    pose proof (inv_disjoint _ _ HI p Hp). set_solver.
  - intros p. rewrite (inv_dom _ _ HI p), Hdel, elem_of_union, elem_of_singleton.
    destruct (decide (p = c)) as [->|]; tauto.
  - apply (inv_fscore _ _ HI).
  - apply (inv_valid _ _ HI).
  - apply (inv_start _ _ HI).
  - left. destruct (inv_start_closed _ _ HI) as [Hs|(_ & Hs)]; [set_solver|].
    rewrite Hs in Hco. apply list_elem_of_singleton in Hco. set_solver.
  - apply (inv_path _ _ HI).
  - intros p k Hk. destruct (inv_parent _ _ HI p k Hk) as [?|(q & Hq & Hqc & Hrest)];
      [left; assumption|].
    right. exists q. split; [exact Hq|]. split; [set_solver | exact Hrest].
  - apply (inv_parent_dom _ _ HI).
  - intros p k l Hp Hk Hl. apply elem_of_union in Hp as [Hp|Hp].
    + apply elem_of_singleton in Hp. subst p.
      rewrite Hkc in Hk. injection Hk as <-. apply Hopt, Hl.
    + eapply (inv_optimal _ _ HI); eassumption.
  - intros u v ku Hu Hne Hku Huv Hfv.
    apply elem_of_union in Hu as [Hu|Hu].
    + apply elem_of_singleton in Hu. congruence.
    + eapply (inv_edge _ _ HI); try eassumption. discriminate.
  - pose proof (inv_target _ _ HI). set_solver.
Qed.

(** *** Processing one neighbour *)

(** The state after [relax] records a better route to [v]. *)
Lemma record_better_Inv st c kc v open' :
  Inv (Some c) st ->
  c ∈ closedSet st ->
  gScore st !! c = Some kc ->
  adjacent c v -> free v -> v ∉ closedSet st ->
  NoDup open' ->
  (forall p, p ∈ open' <-> p ∈ openSet st \/ p = v) ->
  (forall gv, gScore st !! v = Some gv -> kc + 1 < gv) ->
  Inv (Some c)
      {| openSet := open';
         closedSet := closedSet st;
         gScore := <[v := kc + 1]> (gScore st);
         fScore := <[v := kc + 1 + heuristic v target]> (fScore st);
         cameFrom := <[v := c]> (cameFrom st) |}.
Proof.
  intros HI Hc Hkc Hcv Hfv Hvc Hnd Hopen Hbetter.
  assert (Hvs : start <> v).
  { destruct (inv_start_closed _ _ HI) as [Hs|(Hs & _)]; [|discriminate].
    intros ->. contradiction. }
  assert (Hvcur : c <> v) by (intros ->; contradiction).
  constructor; cbn [openSet closedSet gScore fScore cameFrom].
  - exact Hnd.
  - intros p Hp. apply Hopen in Hp as [Hp| ->]; [apply (inv_disjoint _ _ HI p Hp) | exact Hvc].
  - intros p. rewrite lookup_insert_is_Some, Hopen, (inv_dom _ _ HI p).
    destruct (decide (v = p)) as [->|]; intuition congruence.
  - intros p k. destruct (decide (v = p)) as [->|Hne].
    + rewrite !lookup_insert_eq. intros [= <-]. reflexivity.
    + rewrite !lookup_insert_ne by exact Hne. apply (inv_fscore _ _ HI).
  - intros p. rewrite lookup_insert_is_Some.
    intros [<-|(_ & Hp)]; [apply Hfv | apply (inv_valid _ _ HI p Hp)].
  - rewrite lookup_insert_ne by congruence. apply (inv_start _ _ HI).
  - left. destruct (inv_start_closed _ _ HI) as [Hs|(Hs & _)]; [exact Hs | discriminate].
  - intros p k. destruct (decide (v = p)) as [->|Hne].
    + rewrite lookup_insert_eq. intros [= <-].
      destruct (inv_path _ _ HI c kc Hkc) as (l & Hl & Hlen).
      exists (l ++ [p]). split; [eapply isPath_extend; eassumption|].
      rewrite length_app. simpl. lia.
    + rewrite lookup_insert_ne by exact Hne. apply (inv_path _ _ HI).
  - intros p k. destruct (decide (v = p)) as [->|Hne].
    + rewrite !lookup_insert_eq. intros [= <-].
      right. exists c. repeat split; try assumption; try apply Hfv.
      rewrite lookup_insert_ne by congruence. rewrite Hkc. f_equal. lia.
    + rewrite !lookup_insert_ne by exact Hne. intros Hk.
      destruct (inv_parent _ _ HI p k Hk) as [?|(q & Hq & Hqc & Hgq & Hrest)];
        [left; assumption|].
      right. exists q. repeat split; try assumption; try apply Hrest.
      rewrite lookup_insert_ne; [exact Hgq|]. intros ->. contradiction.
  - intros p. rewrite !lookup_insert_is_Some.
    intros [->|(Hne & Hp)]; [left; reflexivity|].
    right. split; [exact Hne | apply (inv_parent_dom _ _ HI p Hp)].
  - intros p k l Hp. rewrite lookup_insert_ne by (intros ->; contradiction).
    apply (inv_optimal _ _ HI p k l Hp).
  - intros u w ku Hu Hne. rewrite lookup_insert_ne by (intros ->; contradiction).
    intros Hku Huw Hfw.
    destruct (inv_edge _ _ HI u w ku Hu Hne Hku Huw Hfw) as (kw & Hkw & Hle).
    destruct (decide (v = w)) as [->|Hvw].
    + exists (kc + 1). rewrite lookup_insert_eq. split; [reflexivity|].
      pose proof (Hbetter kw Hkw). lia.
    + exists kw. rewrite lookup_insert_ne by exact Hvw. auto.
  - apply (inv_target _ _ HI).
Qed.

(** What one call of [relax] guarantees. *)
Definition relaxed (st st' : SearchState) (c : Pos) (kc : Z) : Prop :=
  Inv (Some c) st' /\
  closedSet st' = closedSet st /\
  gScore st' !! c = Some kc /\
  (forall p k, gScore st !! p = Some k ->
               exists k', gScore st' !! p = Some k' /\ k' <= k).

Lemma relax_Inv st c kc v :
  Inv (Some c) st ->
  c ∈ closedSet st ->
  gScore st !! c = Some kc ->
  adjacent c v -> isValidPosition e v = true ->
  exists st',
    relax target obs c st v = Some st' /\
    relaxed st st' c kc /\
    (free v -> exists kv, gScore st' !! v = Some kv /\ kv <= kc + 1).
Proof.
  intros HI Hc Hkc Hcv Hvv. unfold relax.
  assert (Hsame : relaxed st st c kc).
  { split; [exact HI|]. split; [reflexivity|]. split; [exact Hkc|].
    intros p k Hk. exists k. split; [exact Hk | lia]. }
  destruct (bool_decide (v ∈ closedSet st)) eqn:Hcl.
  { apply bool_decide_eq_true in Hcl. cbn [orb].
    exists st. split; [reflexivity|]. split; [exact Hsame|].
    intros Hfv.
    destruct (proj2 (inv_dom _ _ HI v) (or_intror Hcl)) as [kv Hkv].
    exists kv. split; [exact Hkv|].
    destruct (inv_path _ _ HI c kc Hkc) as (l & Hl & Hlen).
    pose proof (inv_optimal _ _ HI v kv (l ++ [v]) Hcl Hkv
                  (isPath_extend _ _ _ _ Hl Hcv Hfv)) as Hopt.
    rewrite length_app in Hopt. simpl in Hopt. lia. }
  apply bool_decide_eq_false in Hcl.
  destruct (bool_decide (v ∈ obs)) eqn:Hob.
  { apply bool_decide_eq_true in Hob. cbn [orb].
    exists st. split; [reflexivity|]. split; [exact Hsame|].
    intros (_ & Hno). contradiction. }
  apply bool_decide_eq_false in Hob. cbn [orb].
  assert (Hfv : free v) by (split; assumption).
  rewrite Hkc. cbn [mbind option_bind].
  destruct (existsb (fun node => samePosition node v) (openSet st)) eqn:Hex.
  - apply existsb_exists in Hex as (n & Hn & Hnv).
    apply samePosition_true in Hnv. subst n. apply list_elem_of_In in Hn.
    destruct (proj2 (inv_dom _ _ HI v) (or_introl Hn)) as [gv Hgv].
    rewrite Hgv. destruct (gv <=? kc + 1) eqn:Hle.
    + apply Z.leb_le in Hle. eexists. split; [reflexivity|].
      destruct st as [op cl g f cf]. cbn [openSet closedSet gScore fScore cameFrom] in *.
      split; [exact Hsame|]. intros _. exists gv. auto.
    + apply Z.leb_gt in Hle. eexists. split; [reflexivity|].
      assert (HI' := record_better_Inv st c kc v (openSet st) HI Hc Hkc Hcv Hfv Hcl
                       (inv_nodup _ _ HI)).
      split; [split; [apply HI'|]|].
      * intros p. split; [auto|]. intros [?| ->]; assumption.
      * intros gv'. rewrite Hgv. intros [= <-]. exact Hle.
      * cbn [closedSet gScore]. split; [reflexivity|]. split.
        -- rewrite lookup_insert_ne; [exact Hkc|]. intros <-. contradiction.
        -- intros p k Hk. destruct (decide (v = p)) as [<-|Hne].
           ++ rewrite lookup_insert_eq. rewrite Hgv in Hk. injection Hk as <-.
              exists (kc + 1). split; [reflexivity | lia].
           ++ rewrite lookup_insert_ne by exact Hne. exists k. split; [exact Hk | lia].
      * intros _. exists (kc + 1). cbn [gScore]. rewrite lookup_insert_eq.
        split; [reflexivity | lia].
  - assert (Hvo : v ∉ openSet st).
    { intros Hin. apply list_elem_of_In in Hin.
      assert (existsb (fun node => samePosition node v) (openSet st) = true) as Ht.
      { apply existsb_exists. exists v. split; [exact Hin | apply samePosition_true; reflexivity]. }
      congruence. }
    assert (Hgv : gScore st !! v = None).
    { destruct (gScore st !! v) eqn:E; [|reflexivity].
      destruct (proj1 (inv_dom _ _ HI v) ltac:(eauto)); contradiction. }
    rewrite Hgv. eexists. split; [reflexivity|].
    assert (HI' := record_better_Inv st c kc v (openSet st ++ [v]) HI Hc Hkc Hcv Hfv Hcl).
    split; [split; [apply HI'|]|].
    * apply NoDup_app. repeat split.
      -- apply (inv_nodup _ _ HI).
      -- intros p Hp Hp'. apply list_elem_of_singleton in Hp'. subst p. contradiction.
      -- apply NoDup_singleton.
    * intros p. rewrite elem_of_app, list_elem_of_singleton. reflexivity.
    * intros gv'. rewrite Hgv. discriminate.
    * cbn [closedSet gScore]. split; [reflexivity|]. split.
      -- rewrite lookup_insert_ne; [exact Hkc|]. intros <-. contradiction.
      -- intros p k Hk. destruct (decide (v = p)) as [<-|Hne]; [congruence|].
         rewrite lookup_insert_ne by exact Hne. exists k. split; [exact Hk | lia].
    * intros _. exists (kc + 1). cbn [gScore]. rewrite lookup_insert_eq.
      split; [reflexivity | lia].
Qed.

Lemma relaxed_trans st1 st2 st3 c kc :
  relaxed st1 st2 c kc -> relaxed st2 st3 c kc -> relaxed st1 st3 c kc.
Proof.
  intros (_ & Hc12 & _ & Hm12) (HI & Hc23 & Hkc & Hm23).
  split; [exact HI|]. split; [congruence|]. split; [exact Hkc|].
  intros p k Hk. destruct (Hm12 p k Hk) as (k' & Hk' & Hle).
  destruct (Hm23 p k' Hk') as (k'' & Hk'' & Hle'). exists k''. split; [exact Hk'' | lia].
Qed.

Lemma relaxAll_Inv c kc ns :
  forall st,
    Inv (Some c) st ->
    c ∈ closedSet st ->
    gScore st !! c = Some kc ->
    (forall v, v ∈ ns -> adjacent c v /\ isValidPosition e v = true) ->
    exists st',
      relaxAll target obs c st ns = Some st' /\
      relaxed st st' c kc /\
      (forall v, v ∈ ns -> free v -> exists kv, gScore st' !! v = Some kv /\ kv <= kc + 1).
Proof.
  induction ns as [|v ns IH]; intros st HI Hc Hkc Hns.
  - exists st. split; [reflexivity|]. split.
    + split; [exact HI|]. split; [reflexivity|]. split; [exact Hkc|].
      intros p k Hk. exists k. split; [exact Hk | lia].
    + intros v Hv. inversion Hv.
  - destruct (Hns v ltac:(left)) as (Hcv & Hvv).
    destruct (relax_Inv st c kc v HI Hc Hkc Hcv Hvv) as (st1 & Hr & Hrel1 & Hdone).
    cbn [relaxAll]. rewrite Hr. cbn [mbind option_bind].
    pose proof Hrel1 as (HI1 & Hc1 & Hkc1 & Hm1).
    destruct (IH st1 HI1 ltac:(rewrite Hc1; exact Hc) Hkc1) as (st2 & Hr2 & Hrel2 & Hdone2).
    { intros w Hw. apply Hns. right. exact Hw. }
    exists st2. split; [exact Hr2|]. split; [eapply relaxed_trans; eassumption|].
    intros w Hw Hfw. apply elem_of_cons in Hw as [Hw|Hw]; [subst w|auto].
    destruct (Hdone Hfw) as (kv & Hkv & Hle).
    destruct Hrel2 as (_ & _ & _ & Hm2).
    destruct (Hm2 v kv Hkv) as (k' & Hk' & Hle'). exists k'. split; [exact Hk' | lia].
Qed.

(** Once every neighbour of the pending node is processed, the loop
    invariant holds again. *)
Lemma Inv_release st c :
  Inv (Some c) st ->
  (forall v ku, gScore st !! c = Some ku -> adjacent c v -> free v ->
                exists kv, gScore st !! v = Some kv /\ kv <= ku + 1) ->
  Inv None st.
Proof.
  intros HI Hedge. destruct HI. constructor; try assumption.
  - left. destruct inv_start_closed0 as [?|(? & _)]; [assumption | discriminate].
  - intros u v ku Hu _ Hku Huv Hfv.
    destruct (decide (u = c)) as [->|Hne].
    + eapply Hedge; eassumption.
    + eapply inv_edge0; try eassumption. congruence.
Qed.

(** *** Rebuilding the path *)

Lemma gScore_nonneg pending st p k : Inv pending st -> gScore st !! p = Some k -> 0 <= k.
Proof.
  intros HI Hk. destruct (inv_path _ _ HI p k Hk) as (l & Hl & Hlen).
  pose proof (isPath_length_pos _ _ _ Hl). lia.
Qed.

Lemma parent_of pending st p k :
  Inv pending st -> gScore st !! p = Some k -> 0 < k ->
  exists q, cameFrom st !! p = Some q /\ gScore st !! q = Some (k - 1) /\
            adjacent q p /\ free p.
Proof.
  intros HI Hk Hpos.
  destruct (inv_parent _ _ HI p k Hk) as [(-> & _)|(q & Hq & _ & Hgq & Hqp & Hfp)].
  - rewrite (inv_start _ _ HI) in Hk. injection Hk as <-. lia.
  - exists q. auto.
Qed.

Lemma root_of pending st p :
  Inv pending st -> gScore st !! p = Some 0 -> p = start /\ cameFrom st !! p = None.
Proof.
  intros HI Hk.
  destruct (inv_parent _ _ HI p 0 Hk) as [?|(q & _ & _ & Hgq & _)]; [assumption|].
  pose proof (gScore_nonneg _ _ _ _ HI Hgq). lia.
Qed.

Lemma reconstruct_loop_chain pending st :
  Inv pending st ->
  forall (n : nat) p k rest fuel,
    gScore st !! p = Some k -> Z.to_nat k = n -> (n < fuel)%nat ->
    exists pre,
      reconstruct_loop fuel (cameFrom st) p (p :: rest) = Some (pre ++ p :: rest) /\
      length pre = n /\ isPath start p (pre ++ [p]).
Proof.
  intros HI. induction n as [|n IH]; intros p k rest fuel Hk Hn Hfuel;
    pose proof (gScore_nonneg _ _ _ _ HI Hk) as Hpos;
    (destruct fuel as [|fuel]; [lia|]); cbn [reconstruct_loop].
  - assert (k = 0) by lia. subst k.
    destruct (root_of _ _ _ HI Hk) as (-> & Hcf). rewrite Hcf.
    exists []. repeat split.
  - destruct (parent_of _ _ p k HI Hk ltac:(lia)) as (q & Hq & Hgq & Hqp & Hfp).
    rewrite Hq.
    destruct (IH q (k - 1) (p :: rest) fuel Hgq ltac:(lia) ltac:(lia))
      as (pre & Hrec & Hlen & Hpath).
    exists (pre ++ [q]). rewrite Hrec, <- !app_assoc. split; [reflexivity|].
    split; [rewrite length_app; simpl; lia|].
    change (pre ++ [q] ++ [p]) with (pre ++ [q; p]).
    replace (pre ++ [q; p]) with ((pre ++ [q]) ++ [p]) by (rewrite <- app_assoc; reflexivity).
    eapply isPath_extend; eassumption.
Qed.

(** The nodes on the parent chain of [p] are distinct keys of
    [cameFrom]. *)
Lemma chain_keys pending st :
  Inv pending st ->
  forall (n : nat) p k,
    gScore st !! p = Some k -> Z.to_nat k = n ->
    exists ks : list Pos,
      NoDup ks /\ length ks = n /\
      forall m, m ∈ ks ->
                is_Some (cameFrom st !! m) /\
                exists j, gScore st !! m = Some j /\ 1 <= j <= k.
Proof.
  intros HI. induction n as [|n IH]; intros p k Hk Hn;
    pose proof (gScore_nonneg _ _ _ _ HI Hk) as Hpos.
  - exists []. split; [constructor|]. split; [reflexivity|]. intros m Hm. inversion Hm.
  - destruct (parent_of _ _ p k HI Hk ltac:(lia)) as (q & Hq & Hgq & _).
    destruct (IH q (k - 1) Hgq ltac:(lia)) as (ks & Hnd & Hlen & Hks).
    exists (p :: ks). split; [|split].
    + apply NoDup_cons. split; [|exact Hnd].
      intros Hin. destruct (Hks p Hin) as (_ & j & Hj & Hle).
      rewrite Hk in Hj. injection Hj as <-. lia.
    + simpl. lia.
    + intros m Hm. apply elem_of_cons in Hm as [Hm|Hm].
      * subst m. split; [eauto|]. exists k. split; [exact Hk | lia].
      * destruct (Hks m Hm) as (Hs & j & Hj & Hle). split; [exact Hs|].
        exists j. split; [exact Hj | lia].
Qed.

Lemma reconstructPath_correct pending st p k :
  Inv pending st -> gScore st !! p = Some k ->
  exists path,
    reconstructPath (cameFrom st) p = Some path /\
    isPath start p path /\ Z.of_nat (length path) = k + 1.
Proof.
  intros HI Hk. pose proof (gScore_nonneg _ _ _ _ HI Hk) as Hpos.
  destruct (chain_keys _ _ HI (Z.to_nat k) p k Hk eq_refl) as (ks & Hnd & Hlen & Hks).
  assert (Hsize : (Z.to_nat k <= size (cameFrom st))%nat).
  { rewrite <- Hlen, <- size_dom. apply NoDup_size_le; [exact Hnd|].
    intros m Hm. apply elem_of_dom, (Hks m Hm). }
  unfold reconstructPath.
  destruct (reconstruct_loop_chain _ _ HI (Z.to_nat k) p k [] (S (size (cameFrom st)))
              Hk eq_refl ltac:(lia)) as (pre & Hrec & Hplen & Hpath).
  exists (pre ++ [p]). split; [exact Hrec|]. split; [exact Hpath|].
  rewrite length_app. simpl. lia.
Qed.

(** *** The search loop *)

(** What the loop returns: a shortest path, or [null] when there is no
    path at all. *)
Definition searchResult (r : option (list Pos)) : Prop :=
  match r with
  | Some path =>
      isPath start target path /\
      forall l, isPath start target l -> (length path <= length l)%nat
  | None => forall l, ~ isPath start target l
  end.

Lemma closed_size_bound pending st :
  Inv pending st ->
  (size (closedSet st) <= Z.to_nat (boardWidth e * boardHeight e))%nat.
Proof.
  intros HI.
  assert (Hs : isValidPosition e start = true).
  { apply (inv_valid _ _ HI). rewrite (inv_start _ _ HI). eauto. }
  unfold isValidPosition in Hs.
  apply valid_cells_size; [lia | lia |].
  intros p Hp. apply (inv_valid _ _ HI), (inv_dom _ _ HI). right. exact Hp.
Qed.

Lemma search_correct fuel :
  forall st,
    Inv None st ->
    (Z.to_nat (boardWidth e * boardHeight e) < size (closedSet st) + fuel)%nat ->
    exists r, search e target obs fuel st = Some r /\ searchResult r.
Proof.
  induction fuel as [|fuel IH]; intros st HI Hfuel.
  - pose proof (closed_size_bound _ _ HI). lia.
  - cbn [search]. destruct (openSet st) as [|first rest] eqn:Ho.
    + exists None. split; [reflexivity|]. intros l Hl.
      destruct (lower_bound st target l HI Hl) as [(Hc & _)|(v & kv & Hv & _)].
      * apply (inv_target _ _ HI Hc).
      * rewrite Ho in Hv. inversion Hv.
    + destruct (select_from_open st first rest HI Ho) as (c & idx & kc & Hsel & Hci & Hkc & Hopt).
      rewrite Hsel. rewrite <- Ho.
      destruct (samePosition c target) eqn:Hct.
      * apply samePosition_true in Hct. subst c.
        destruct (reconstructPath_correct _ _ target kc HI Hkc) as (path & Hrec & Hpath & Hlen).
        cbn [cameFrom]. rewrite Hrec. cbn [mbind option_bind].
        exists (Some path). split; [reflexivity|]. split; [exact Hpath|].
        intros l Hl. pose proof (Hopt l Hl). lia.
      * apply samePosition_false in Hct.
        pose proof (closeCurrent_Inv st c idx kc HI Hci Hkc Hopt Hct) as HI1.
        fold (closeCurrent st c idx).
        assert (Hc1 : c ∈ closedSet (closeCurrent st c idx)) by (cbn; set_solver).
        destruct (relaxAll_Inv c kc (getNeighbors e c) (closeCurrent st c idx) HI1 Hc1 Hkc)
          as (st2 & Hr & (HI2 & Hcl2 & Hkc2 & _) & Hdone).
        { intros v Hv. apply getNeighbors_spec. exact Hv. }
        rewrite Hr. cbn [mbind option_bind].
        apply IH.
        -- apply (Inv_release st2 c HI2).
           intros v ku Hku Hcv Hfv. rewrite Hkc2 in Hku. injection Hku as <-.
           apply Hdone; [|exact Hfv].
           apply getNeighbors_spec. split; [exact Hcv | apply Hfv].
        -- rewrite Hcl2. cbn [closeCurrent closedSet].
           assert (Hnc : c ∉ closedSet st).
           { apply (inv_disjoint _ _ HI). eapply list_elem_of_lookup_2. exact Hci. }
           rewrite size_union by set_solver. rewrite size_singleton. lia.
Qed.

End Search.

(** *** findPath *)

Definition obstacleSet (obstacles : list Pos) : gset Pos := list_to_set obstacles.

Lemma findPath_guarded e start target obstacles :
  isValidPosition e start = true ->
  isValidPosition e target = true ->
  target ∉ obstacles ->
  exists r,
    findPath e start target obstacles = Some r /\
    searchResult e start target (obstacleSet obstacles) r.
Proof.
  intros Hs Ht Hto. unfold findPath. rewrite Hs, Ht. cbn [negb orb].
  rewrite bool_decide_eq_false_2 by (rewrite elem_of_list_to_set; exact Hto).
  apply search_correct.
  - apply initialState_Inv. exact Hs.
  - unfold searchFuel. cbn [initialState closedSet]. rewrite size_empty. lia.
Qed.

Lemma findPath_rejects e start target obstacles :
  isValidPosition e start = false \/ isValidPosition e target = false \/ target ∈ obstacles ->
  findPath e start target obstacles = Some None.
Proof.
  intros H. unfold findPath.
  destruct (isValidPosition e start); [|reflexivity].
  destruct (isValidPosition e target); [|reflexivity].
  cbn [negb orb].
  destruct H as [H|[H|H]]; try discriminate.
  rewrite bool_decide_eq_true_2 by (rewrite elem_of_list_to_set; exact H). reflexivity.
Qed.

Lemma isValidPosition_iff e p :
  isValidPosition e p = true <->
  0 <= x p < boardWidth e /\ 0 <= y p < boardHeight e.
Proof. unfold isValidPosition. lia. Qed.

Lemma linked_lookup e obs l :
  linked e obs l ->
  forall i a b, l !! i = Some a -> l !! S i = Some b -> adjacent a b /\ free e obs b.
Proof.
  induction l as [|c l IH]; intros Hl i a b Ha Hb; [discriminate|].
  destruct l as [|d l]; [discriminate|].
  apply linked_cons in Hl as (Hcd & Hfd & Hl).
  destruct i as [|i].
  - cbn in Ha, Hb. injection Ha as <-. injection Hb as <-. auto.
  - apply (IH Hl i); assumption.
Qed.

(** A path of unit moves is at least as long as the Manhattan distance. *)
Lemma path_length_lower_bound e obs l :
  forall s t, isPath e obs s t l -> heuristic s t + 1 <= Z.of_nat (length l).
Proof.
  induction l as [|c l IH]; intros s t (Hh & Hl & Hlink); [discriminate|].
  cbn in Hh. injection Hh as Hh. subst c.
  destruct l as [|d l].
  - cbn in Hl. injection Hl as Hl. subst t. unfold heuristic. cbn [length]. lia.
  - apply linked_cons in Hlink as (Hsd & Hfd & Hlink).
    assert (Hd : isPath e obs d t (d :: l)) by (repeat split; assumption).
    pose proof (IH d t Hd). pose proof (heuristic_step s d t Hsd).
    cbn [length] in *. lia.
Qed.

(** On a board without obstacles two cells are joined by a path of
    Manhattan length. *)
Lemma manhattan_path_exists e s :
  isValidPosition e s = true ->
  forall (n : nat) t,
    Z.to_nat (heuristic s t) = n ->
    isValidPosition e t = true ->
    exists l, isPath e ∅ s t l /\ Z.of_nat (length l) = heuristic s t + 1.
Proof.
  intros Hs. induction n as [|n IH]; intros t Hn Ht.
  - assert (s = t) as <-.
    { destruct s, t. unfold heuristic in Hn. cbn [x y] in Hn. f_equal; lia. }
    exists [s]. split; [apply isPath_singleton|]. unfold heuristic. cbn [length]. lia.
  - apply isValidPosition_iff in Hs as Hs', Ht as Ht'.
    assert (exists a, isValidPosition e a = true /\ adjacent a t /\
                      heuristic s a = heuristic s t - 1) as (a & Ha & Hat & Hh).
    { unfold heuristic in Hn.
      destruct (Z_lt_le_dec (x s) (x t)); [exists (mkPos (x t - 1) (y t))|].
      2: destruct (Z_lt_le_dec (x t) (x s)); [exists (mkPos (x t + 1) (y t))|].
      3: destruct (Z_lt_le_dec (y s) (y t));
           [exists (mkPos (x t) (y t - 1)) | exists (mkPos (x t) (y t + 1))].
      all: rewrite isValidPosition_iff; unfold adjacent, heuristic; cbn [x y]; lia. }
    destruct (IH a ltac:(lia) Ha) as (l & Hl & Hlen).
    exists (l ++ [t]). split.
    + eapply isPath_extend; [exact Hl | exact Hat |].
      split; [exact Ht | apply not_elem_of_empty].
    + rewrite length_app. cbn [length]. lia.
Qed.

(** C2: a path that [findPath] returns begins at [start], ends at
    [target], moves by exactly one unit on exactly one axis between
    consecutive cells, stays in bounds, and has no cell after index 0 in the
    obstacle list. *)
Theorem findPath_path_wellformed
    (e : PathfindingEngine) (start target : Pos) (obstacles path : list Pos) :
  findPath e start target obstacles = Some (Some path) ->
  head path = Some start /\
  last path = Some target /\
  (forall i a b, path !! i = Some a -> path !! S i = Some b -> adjacent a b) /\
  (forall p, p ∈ path -> isValidPosition e p = true) /\
  (forall i p, path !! S i = Some p -> p ∉ obstacles).
Proof.
  intros Hf.
  destruct (isValidPosition e start) eqn:Hs;
    [|rewrite findPath_rejects in Hf by auto; discriminate].
  destruct (isValidPosition e target) eqn:Ht;
    [|rewrite findPath_rejects in Hf by auto; discriminate].
  destruct (decide (target ∈ obstacles)) as [Hto|Hto];
    [rewrite findPath_rejects in Hf by auto; discriminate|].
  destruct (findPath_guarded e start target obstacles Hs Ht Hto) as (r & Hr & Hres).
  rewrite Hr in Hf. injection Hf as ->.
  destruct Hres as ((Hh & Hl & Hlink) & _).
  split; [exact Hh|]. split; [exact Hl|].
  pose proof (linked_lookup _ _ _ Hlink) as Hstep.
  split; [|split].
  - intros i a b Ha Hb. apply (Hstep i a b Ha Hb).
  - intros p Hp. apply list_elem_of_lookup in Hp as (i & Hi).
    destruct i as [|i].
    + destruct path; [discriminate|]. cbn in Hh, Hi. congruence.
    + destruct (lookup_lt_is_Some_2 path i) as [a Ha];
        [apply lookup_lt_Some in Hi; lia|].
      apply (Hstep i a p Ha Hi).
  - intros i p Hi.
    destruct (lookup_lt_is_Some_2 path i) as [a Ha];
      [apply lookup_lt_Some in Hi; lia|].
    destruct (Hstep i a p Ha Hi) as (_ & _ & Hno).
    unfold obstacleSet in Hno. rewrite elem_of_list_to_set in Hno. exact Hno.
Qed.

Definition board10 : PathfindingEngine := mkPathfindingEngine 10 10.

(** A wall of three cells next to the start: the path goes around it. *)
Definition aroundWall : list Pos :=
  [mkPos 0 0; mkPos 0 1; mkPos 0 2; mkPos 0 3; mkPos 1 3; mkPos 2 3;
   mkPos 2 2; mkPos 2 1; mkPos 2 0; mkPos 3 0].

Lemma findPath_path_wellformed_witness :
  findPath board10 (mkPos 0 0) (mkPos 3 0) [mkPos 1 0; mkPos 1 1; mkPos 1 2]
  = Some (Some aroundWall) /\
  head aroundWall = Some (mkPos 0 0) /\
  last aroundWall = Some (mkPos 3 0) /\
  (forall i a b, aroundWall !! i = Some a -> aroundWall !! S i = Some b -> adjacent a b) /\
  (forall p, p ∈ aroundWall -> isValidPosition board10 p = true) /\
  (forall i p, aroundWall !! S i = Some p -> p ∉ [mkPos 1 0; mkPos 1 1; mkPos 1 2]).
Proof.
  split; [vm_compute; reflexivity|].
  apply (findPath_path_wellformed board10 (mkPos 0 0) (mkPos 3 0)
           [mkPos 1 0; mkPos 1 1; mkPos 1 2] aroundWall).
  vm_compute. reflexivity.
Defined.

(** C3: [findPath] always returns, and it returns [null] exactly when
    [start] or [target] is out of bounds, or [target] is an obstacle, or no
    sequence of unit moves through cells that are in bounds and not
    obstacles leads from [start] to [target]. *)
Theorem findPath_null_iff
    (e : PathfindingEngine) (start target : Pos) (obstacles : list Pos) :
  (exists r, findPath e start target obstacles = Some r) /\
  (findPath e start target obstacles = Some None <->
   isValidPosition e start = false \/ isValidPosition e target = false \/
   target ∈ obstacles \/
   ~ exists l, isPath e (obstacleSet obstacles) start target l).
Proof.
  destruct (isValidPosition e start) eqn:Hs;
    [|rewrite findPath_rejects by auto; split; [eauto | tauto]].
  destruct (isValidPosition e target) eqn:Ht;
    [|rewrite findPath_rejects by auto; split; [eauto | tauto]].
  destruct (decide (target ∈ obstacles)) as [Hto|Hto];
    [rewrite findPath_rejects by auto; split; [eauto | tauto]|].
  destruct (findPath_guarded e start target obstacles Hs Ht Hto) as (r & Hr & Hres).
  rewrite Hr. split; [eauto|]. split.
  - intros [= ->]. right. right. right. intros (l & Hl). apply (Hres l Hl).
  - intros [H|[H|[H|H]]]; try discriminate; try contradiction.
    destruct r as [path|]; [|reflexivity].
    exfalso. apply H. exists path. apply Hres.
Qed.

(** The reading of C1 without a condition on the obstacle set. *)
Definition connected_gives_path : Prop :=
  forall e start target obstacles,
    isValidPosition e start = true ->
    isValidPosition e target = true ->
    (exists l, isPath e (obstacleSet obstacles) start target l) ->
    exists path, findPath e start target obstacles = Some (Some path).

(** C1, as stated, fails when [start] and [target] are the same cell and
    that cell is in the obstacle list: no move is needed, so the one-cell
    path joins them, yet the guard on the target returns [null]. *)
Lemma findPath_null_on_blocked_start :
  isValidPosition board10 (mkPos 0 0) = true /\
  isPath board10 (obstacleSet [mkPos 0 0]) (mkPos 0 0) (mkPos 0 0) [mkPos 0 0] /\
  findPath board10 (mkPos 0 0) (mkPos 0 0) [mkPos 0 0] = Some None /\
  ~ connected_gives_path.
Proof.
  split; [reflexivity|]. split; [apply isPath_singleton|]. split; [reflexivity|].
  intros H.
  destruct (H board10 (mkPos 0 0) (mkPos 0 0) [mkPos 0 0] eq_refl eq_refl) as (path & Hp).
  - exists [mkPos 0 0]. apply isPath_singleton.
  - discriminate Hp.
Qed.

(** C1 (amended): let [start] and [target] be in bounds and [target] not
    an obstacle.  If some sequence of unit moves through free cells joins
    them, [findPath] returns such a path and no such path is shorter.  With
    no obstacles at all it returns a path of Manhattan distance + 1 cells. *)
Theorem findPath_returns_shortest_path
    (e : PathfindingEngine) (start target : Pos) (obstacles : list Pos) :
  isValidPosition e start = true ->
  isValidPosition e target = true ->
  target ∉ obstacles ->
  ((exists l, isPath e (obstacleSet obstacles) start target l) ->
   exists path,
     findPath e start target obstacles = Some (Some path) /\
     isPath e (obstacleSet obstacles) start target path /\
     forall l, isPath e (obstacleSet obstacles) start target l ->
               (length path <= length l)%nat) /\
  (obstacles = [] ->
   exists path,
     findPath e start target obstacles = Some (Some path) /\
     Z.of_nat (length path) = heuristic start target + 1).
Proof.
  intros Hs Ht Hto.
  destruct (findPath_guarded e start target obstacles Hs Ht Hto) as (r & Hr & Hres).
  split.
  - intros (l0 & Hl0).
    destruct r as [path|]; [|exfalso; apply (Hres l0 Hl0)].
    exists path. split; [exact Hr | exact Hres].
  - intros ->.
    destruct (manhattan_path_exists e start Hs _ target eq_refl Ht) as (l & Hl & Hlen).
    destruct r as [path|]; [|exfalso; apply (Hres l Hl)].
    destruct Hres as (Hpath & Hmin).
    exists path. split; [exact Hr|].
    pose proof (path_length_lower_bound _ _ _ _ _ Hpath) as Hlow.
    pose proof (Hmin l Hl). lia.
Qed.

(** The scenario of the specification: a 10 x 10 board without obstacles,
    from (0,0) to (9,9). *)
Definition alongTwoEdges : list Pos :=
  [mkPos 0 0; mkPos 0 1; mkPos 0 2; mkPos 0 3; mkPos 0 4; mkPos 0 5; mkPos 0 6;
   mkPos 0 7; mkPos 0 8; mkPos 0 9; mkPos 1 9; mkPos 2 9; mkPos 3 9; mkPos 4 9;
   mkPos 5 9; mkPos 6 9; mkPos 7 9; mkPos 8 9; mkPos 9 9].

Example findPath_10x10 :
  findPath board10 (mkPos 0 0) (mkPos 9 9) [] = Some (Some alongTwoEdges).
Proof. vm_compute. reflexivity. Qed.

(** A target walled in by three obstacles and the board edge. *)
Example findPath_enclosed_target :
  findPath board10 (mkPos 5 5) (mkPos 0 0) [mkPos 1 0; mkPos 1 1; mkPos 0 1] = Some None.
Proof. vm_compute. reflexivity. Qed.

Lemma findPath_returns_shortest_path_witness :
  (exists path,
      findPath board10 (mkPos 0 0) (mkPos 9 9) [] = Some (Some path) /\
      forall l, isPath board10 (obstacleSet []) (mkPos 0 0) (mkPos 9 9) l ->
                (length path <= length l)%nat) /\
  (exists path,
      findPath board10 (mkPos 0 0) (mkPos 9 9) [] = Some (Some path) /\
      length path = 19%nat).
Proof.
  destruct (findPath_returns_shortest_path board10 (mkPos 0 0) (mkPos 9 9) [])
    as (Hshort & Hfree).
  - reflexivity.
  - reflexivity.
  - apply not_elem_of_nil.
  - split.
    + destruct Hshort as (path & Hf & _ & Hmin).
      * exists alongTwoEdges.
        split; [reflexivity|]. split; [reflexivity|].
        cbn [alongTwoEdges linked].
        repeat split; try reflexivity; try apply not_elem_of_empty;
          unfold adjacent; cbn [x y]; lia.
      * exists path. split; [exact Hf | exact Hmin].
    + destruct (Hfree eq_refl) as (path & Hf & Hlen).
      exists path. split; [exact Hf|].
      change (heuristic (mkPos 0 0) (mkPos 9 9)) with 18 in Hlen. lia.
Defined.

(** *** Fallback suggestions *)

(** A move into a cell that is in bounds and not occupied. *)
Definition legalMove (e : PathfindingEngine) (pos : Pos) (obstacles : list Pos)
    (d : Direction) : Prop :=
  isValidPosition e (getMovePosition pos d) = true /\ getMovePosition pos d ∉ obstacles.

Definition legalMoveb (e : PathfindingEngine) (pos : Pos) (obstacles : list Pos)
    (d : Direction) : bool :=
  isValidPosition e (getMovePosition pos d)
  && negb (bool_decide (getMovePosition pos d ∈ (list_to_set obstacles : gset Pos))).

Lemma legalMoveb_spec e pos obstacles d :
  legalMoveb e pos obstacles d = true <-> legalMove e pos obstacles d.
Proof.
  unfold legalMoveb, legalMove.
  rewrite andb_true_iff, negb_true_iff, bool_decide_eq_false, elem_of_list_to_set.
  reflexivity.
Qed.

Lemma findSafeMoves_filter e pos obstacles :
  findSafeMoves e pos obstacles = List.filter (legalMoveb e pos obstacles) [Up; Down; Left; Right].
Proof.
  unfold findSafeMoves, legalMoveb. cbn [List.filter getMovePosition snd].
  repeat match goal with
         | |- context [isValidPosition e ?p && negb (bool_decide ?P)] =>
             destruct (isValidPosition e p && negb (bool_decide P))
         end; reflexivity.
Qed.

Lemma findSafeMoves_spec e pos obstacles d :
  d ∈ findSafeMoves e pos obstacles <-> legalMove e pos obstacles d.
Proof.
  rewrite findSafeMoves_filter, list_elem_of_In, filter_In, legalMoveb_spec.
  split; [tauto|]. intros H. split; [|exact H].
  destruct d; cbn; tauto.
Qed.

Lemma findSafeMoves_NoDup e pos obstacles : NoDup (findSafeMoves e pos obstacles).
Proof.
  rewrite findSafeMoves_filter. apply NoDup_ListNoDup, List.NoDup_filter.
  apply NoDup_ListNoDup. repeat (apply NoDup_cons; split; [set_solver|]). apply NoDup_nil_2.
Qed.

Lemma getMovePosition_inj pos : Inj (=) (=) (getMovePosition pos).
Proof.
  intros d1 d2 H. destruct pos as [px py].
  destruct d1, d2; cbn in H; try reflexivity; injection H; lia.
Qed.

Lemma getMovePosition_adjacent pos q :
  adjacent pos q <-> exists d, q = getMovePosition pos d.
Proof.
  destruct pos as [px py], q as [qx qy]. unfold adjacent; cbn [x y]. split.
  - intros H.
    assert ((qx = px /\ qy = py - 1) \/ (qx = px /\ qy = py + 1) \/
            (qx = px - 1 /\ qy = py) \/ (qx = px + 1 /\ qy = py))
      as [[-> ->]|[[-> ->]|[[-> ->]|[-> ->]]]] by lia;
      [exists Up | exists Down | exists Left | exists Right]; reflexivity.
  - intros [d Hd]. destruct d; cbn in Hd; injection Hd as -> ->; lia.
Qed.

(** Descending order of score. *)
Definition descending (l : list MoveCandidate) : Prop :=
  StronglySorted (fun a b => (score b <= score a)%R) l.

Definition byScore (a b : MoveCandidate) : R := (score b - score a)%R.

Lemma insertSorted_Permutation (a : MoveCandidate) l :
  Permutation (insertSorted byScore a l) (a :: l).
Proof.
  induction l as [|b l IH]; cbn [insertSorted]; [reflexivity|].
  destruct (Rlt_dec 0 (byScore b a)); [reflexivity|].
  rewrite IH. apply perm_swap.
Qed.

Lemma insertSorted_descending (a : MoveCandidate) l :
  descending l -> descending (insertSorted byScore a l).
Proof.
  unfold descending.
  induction l as [|b l IH]; intros Hl; cbn [insertSorted].
  - repeat constructor.
  - apply StronglySorted_inv in Hl as (Hl & Hb).
    destruct (Rlt_dec 0 (byScore b a)) as [Hlt|Hge]; unfold byScore in *.
    + constructor; [constructor; assumption|].
      constructor; [lra|].
      eapply List.Forall_impl; [|exact Hb]. cbn. intros c Hc. lra.
    + constructor; [apply IH, Hl|].
      apply Forall_forall. intros c Hc.
      fold byScore in Hc. rewrite insertSorted_Permutation in Hc.
      apply elem_of_cons in Hc as [Hc|Hc]; [subst c; lra|].
      rewrite Forall_forall in Hb. apply Hb, Hc.
Qed.

Lemma sortBy_spec (l : list MoveCandidate) :
  Permutation (sortBy byScore l) l /\ descending (sortBy byScore l).
Proof.
  unfold sortBy.
  assert (forall acc, descending acc ->
            Permutation (fold_left (fun sorted a => insertSorted byScore a sorted) l acc)
                        (l ++ acc) /\
            descending (fold_left (fun sorted a => insertSorted byScore a sorted) l acc))
    as H.
  { induction l as [|a l IH]; intros acc Hacc; cbn [fold_left].
    - split; [reflexivity | exact Hacc].
    - destruct (IH (insertSorted byScore a acc) (insertSorted_descending a acc Hacc))
        as (Hp & Hd).
      split; [|exact Hd].
      rewrite Hp, insertSorted_Permutation. cbn [app].
      symmetry. apply Permutation_middle. }
  destruct (H [] ltac:(constructor)) as (Hp & Hd).
  rewrite app_nil_r in Hp. auto.
Qed.

(** The candidates before sorting: one per safe move. *)
Lemma getFallbackSuggestions_moves e pos target obstacles :
  Permutation
    (moves (getFallbackSuggestions e pos target obstacles))
    (map (fun d =>
            let movePos := getMovePosition pos d in
            let sc := calculateMoveScore e movePos target obstacles in
            mkMoveCandidate d movePos sc (getMoveReasoning e movePos target obstacles sc))
         (findSafeMoves e pos obstacles)) /\
  descending (moves (getFallbackSuggestions e pos target obstacles)).
Proof.
  unfold getFallbackSuggestions.
  destruct (findSafeMoves e pos obstacles) as [|d ds] eqn:Hsafe.
  - cbn. split; [reflexivity | constructor].
  - cbn [length Nat.eqb moves]. apply sortBy_spec.
Qed.

(** C4: [getFallbackSuggestions] returns one candidate for each orthogonal
    neighbour of the position that is in bounds and not occupied, and for
    no other cell; the candidates are in descending order of score; and
    when all four neighbours are out of bounds or occupied the list of
    moves is empty. *)
Theorem fallback_moves_ranked
    (e : PathfindingEngine) (pos target : Pos) (obstacles : list Pos) :
  let ranked := moves (getFallbackSuggestions e pos target obstacles) in
  (forall q, q ∈ map position ranked <->
             adjacent pos q /\ isValidPosition e q = true /\ q ∉ obstacles) /\
  NoDup (map position ranked) /\
  (forall d, d ∈ map direction ranked <-> legalMove e pos obstacles d) /\
  (forall m, m ∈ ranked ->
             position m = getMovePosition pos (direction m) /\
             score m = calculateMoveScore e (position m) target obstacles) /\
  descending ranked /\
  ((forall d, ~ legalMove e pos obstacles d) -> ranked = []).
Proof.
  intros ranked. subst ranked.
  destruct (getFallbackSuggestions_moves e pos target obstacles) as (Hperm & Hdesc).
  set (ranked := moves (getFallbackSuggestions e pos target obstacles)) in *.
  set (mk := fun d => _) in Hperm.
  assert (Hdir : Permutation (map direction ranked) (findSafeMoves e pos obstacles)).
  { rewrite Hperm, map_map. cbn. rewrite map_id. reflexivity. }
  assert (Hpos : Permutation (map position ranked)
                   (map (getMovePosition pos) (findSafeMoves e pos obstacles))).
  { rewrite Hperm, map_map. reflexivity. }
  split; [|split; [|split; [|split; [|split]]]].
  - intros q. rewrite Hpos, list_elem_of_fmap. split.
    + intros (d & -> & Hd). apply findSafeMoves_spec in Hd as (Hv & Hno).
      split; [apply getMovePosition_adjacent; eauto | auto].
    + intros (Hadj & Hv & Hno). apply getMovePosition_adjacent in Hadj as (d & ->).
      exists d. split; [reflexivity|]. apply findSafeMoves_spec. split; assumption.
  - rewrite Hpos. apply NoDup_fmap_2; [apply getMovePosition_inj | apply findSafeMoves_NoDup].
  - intros d. rewrite Hdir. apply findSafeMoves_spec.
  - intros m Hm. rewrite Hperm in Hm. apply list_elem_of_fmap in Hm as (d & -> & _).
    split; reflexivity.
  - exact Hdesc.
  - intros Hnone. destruct ranked as [|m rest] eqn:E; [reflexivity|].
    exfalso. apply (Hnone (direction m)).
    apply findSafeMoves_spec. rewrite <- Hdir. cbn. left.
Qed.

(** An agent in the corner (0,0) with its body on both free sides. *)
Lemma fallback_moves_ranked_witness :
  moves (getFallbackSuggestions board10 (mkPos 0 0) (mkPos 5 5) [mkPos 0 1; mkPos 1 0]) = [].
Proof.
  apply (fallback_moves_ranked board10 (mkPos 0 0) (mkPos 5 5) [mkPos 0 1; mkPos 1 0]).
  intros d (Hv & Hno). destruct d; cbn in Hv, Hno; try discriminate; set_solver.
Defined.

(** *** More about the paths that findPath returns *)

(** What a returned path tells about the call. *)
Lemma findPath_some e start target obstacles path :
  findPath e start target obstacles = Some (Some path) ->
  isValidPosition e start = true /\ isValidPosition e target = true /\
  (target ∉ obstacles) /\
  searchResult e start target (obstacleSet obstacles) (Some path).
Proof.
  intros Hf.
  destruct (isValidPosition e start) eqn:Hs;
    [|rewrite findPath_rejects in Hf by auto; discriminate].
  destruct (isValidPosition e target) eqn:Ht;
    [|rewrite findPath_rejects in Hf by auto; discriminate].
  destruct (decide (target ∈ obstacles)) as [Hto|Hto];
    [rewrite findPath_rejects in Hf by auto; discriminate|].
  destruct (findPath_guarded e start target obstacles Hs Ht Hto) as (r & Hr & Hres).
  rewrite Hr in Hf. injection Hf as ->. auto.
Qed.

Lemma findPath_total e start target obstacles :
  exists r, findPath e start target obstacles = Some r.
Proof.
  destruct (isValidPosition e start) eqn:Hs;
    [|rewrite findPath_rejects by auto; eauto].
  destruct (isValidPosition e target) eqn:Ht;
    [|rewrite findPath_rejects by auto; eauto].
  destruct (decide (target ∈ obstacles)) as [Hto|Hto];
    [rewrite findPath_rejects by auto; eauto|].
  destruct (findPath_guarded e start target obstacles Hs Ht Hto) as (r & Hr & _). eauto.
Qed.

Lemma linked_app_l e obs l1 l2 : linked e obs (l1 ++ l2) -> linked e obs l1.
Proof.
  induction l1 as [|a l1 IH]; intros H; [exact I|].
  destruct l1 as [|b l1]; [exact I|].
  change (linked e obs (a :: b :: l1 ++ l2)) in H.
  apply linked_cons in H as (H1 & H2 & H3). apply linked_cons. auto.
Qed.

Lemma linked_app_r e obs l1 l2 : linked e obs (l1 ++ l2) -> linked e obs l2.
Proof.
  induction l1 as [|a l1 IH]; intros H; [exact H|].
  apply IH. destruct l1 as [|b l1].
  - destruct l2 as [|c l2]; [exact I|]. apply linked_cons in H. apply H.
  - change (linked e obs (a :: b :: l1 ++ l2)) in H. apply linked_cons in H. apply H.
Qed.

Lemma linked_join e obs l1 p l3 :
  linked e obs (l1 ++ [p]) -> linked e obs (p :: l3) -> linked e obs (l1 ++ p :: l3).
Proof.
  induction l1 as [|a l1 IH]; intros H1 H3; [exact H3|].
  destruct l1 as [|b l1].
  - cbn [app] in *. apply linked_cons in H1 as (Ha & Hf & _). apply linked_cons. auto.
  - change (linked e obs (a :: b :: l1 ++ [p])) in H1.
    change (linked e obs (a :: b :: l1 ++ p :: l3)).
    apply linked_cons in H1 as (Ha & Hf & H1). apply linked_cons.
    split; [exact Ha|]. split; [exact Hf|]. apply IH; assumption.
Qed.

Lemma repeated_cell (l : list Pos) :
  NoDup l \/ exists l1 p l2 l3, l = l1 ++ p :: l2 ++ p :: l3.
Proof.
  induction l as [|a l IH]; [left; constructor|].
  destruct (decide (a ∈ l)) as [Hin|Hnin].
  - right. apply list_elem_of_split in Hin as (l2 & l3 & ->).
    exists [], a, l2, l3. reflexivity.
  - destruct IH as [Hnd|(l1 & p & l2 & l3 & ->)].
    + left. constructor; assumption.
    + right. exists (a :: l1), p, l2, l3. reflexivity.
Qed.

(** Cutting the loop between two visits of a cell leaves a path. *)
Lemma isPath_cut e obs s t l1 p l2 l3 :
  isPath e obs s t (l1 ++ p :: l2 ++ p :: l3) -> isPath e obs s t (l1 ++ p :: l3).
Proof.
  intros (Hh & Hl & Hlink). repeat split.
  - destruct l1; exact Hh.
  - rewrite last_app_cons. rewrite last_app_cons in Hl.
    change (p :: l2 ++ p :: l3) with ((p :: l2) ++ p :: l3) in Hl.
    rewrite last_app_cons in Hl. exact Hl.
  - apply linked_join.
    + apply (linked_app_l e obs (l1 ++ [p]) (l2 ++ p :: l3)).
      rewrite <- app_assoc. exact Hlink.
    + apply (linked_app_r e obs (l1 ++ p :: l2) (p :: l3)).
      rewrite <- app_assoc. exact Hlink.
Qed.

Lemma shortest_path_NoDup e obs s t l :
  isPath e obs s t l ->
  (forall l', isPath e obs s t l' -> (length l <= length l')%nat) ->
  NoDup l.
Proof.
  intros Hp Hmin. destruct (repeated_cell l) as [H|(l1 & p & l2 & l3 & ->)]; [exact H|].
  pose proof (Hmin _ (isPath_cut _ _ _ _ _ _ _ _ Hp)) as Hle.
  rewrite !length_app in Hle. cbn [length] in Hle. rewrite length_app in Hle.
  cbn [length] in Hle. lia.
Qed.

Lemma isPath_valid e obs s t l :
  isValidPosition e s = true -> isPath e obs s t l ->
  forall p, p ∈ l -> isValidPosition e p = true.
Proof.
  intros Hs (Hh & _ & Hlink) p Hp.
  apply list_elem_of_lookup in Hp as (i & Hi). destruct i as [|i].
  - destruct l; [discriminate|]. cbn in Hh, Hi. congruence.
  - destruct (lookup_lt_is_Some_2 l i) as [a Ha]; [apply lookup_lt_Some in Hi; lia|].
    apply (linked_lookup _ _ _ Hlink i a p Ha Hi).
Qed.

(** X17: a returned path never visits a cell twice, so it has at most
    width * height cells. *)
Theorem findPath_path_is_simple
    (e : PathfindingEngine) (start target : Pos) (obstacles path : list Pos) :
  findPath e start target obstacles = Some (Some path) ->
  NoDup path /\ Z.of_nat (length path) <= boardWidth e * boardHeight e.
Proof.
  intros Hf. destruct (findPath_some _ _ _ _ _ Hf) as (Hs & _ & _ & Hpath & Hmin).
  pose proof (shortest_path_NoDup _ _ _ _ _ Hpath Hmin) as Hnd.
  split; [exact Hnd|].
  apply isValidPosition_iff in Hs as Hs'.
  pose proof (valid_cells_size e (list_to_set path) ltac:(lia) ltac:(lia)) as Hsize.
  rewrite size_list_to_set in Hsize by exact Hnd.
  assert (Hall : forall p, p ∈ (list_to_set path : gset Pos) -> isValidPosition e p = true).
  { intros p Hp. apply elem_of_list_to_set in Hp.
    apply (isPath_valid _ _ _ _ _ Hs Hpath p Hp). }
  specialize (Hsize Hall).
  assert (0 <= boardWidth e * boardHeight e) by (apply Z.mul_nonneg_nonneg; lia).
  lia.
Qed.

Lemma findPath_path_is_simple_witness : NoDup aroundWall.
Proof.
  apply (findPath_path_is_simple board10 (mkPos 0 0) (mkPos 3 0)
           [mkPos 1 0; mkPos 1 1; mkPos 1 2] aroundWall).
  vm_compute. reflexivity.
Defined.

Lemma isPath_fewer_obstacles e (obs obs' : gset Pos) s t l :
  (forall p, p ∈ obs -> p ∈ obs') -> isPath e obs' s t l -> isPath e obs s t l.
Proof.
  intros Hsub (Hh & Hl & Hlink). repeat split; try assumption.
  clear Hh Hl. induction l as [|a l IH]; [exact I|].
  destruct l as [|b l]; [exact I|].
  apply linked_cons in Hlink as (Hab & (Hv & Hno) & Hlink). apply linked_cons.
  split; [exact Hab|]. split; [split; [exact Hv | intros Hin; apply Hno, Hsub, Hin]|].
  apply IH, Hlink.
Qed.

(** X18: removing obstacles never lengthens the path and never loses it.
    If [findPath] returns a path with a list of obstacles, it also returns
    one, no longer, with any list that holds only cells of the first. *)
Theorem fewer_obstacles_no_longer_path
    (e : PathfindingEngine) (start target : Pos) (obstacles obstacles' path' : list Pos) :
  (forall p, p ∈ obstacles -> p ∈ obstacles') ->
  findPath e start target obstacles' = Some (Some path') ->
  exists path,
    findPath e start target obstacles = Some (Some path) /\
    (length path <= length path')%nat.
Proof.
  intros Hsub Hf. destruct (findPath_some _ _ _ _ _ Hf) as (Hs & Ht & Hto & Hpath & _).
  assert (Hto' : target ∉ obstacles) by (intros Hin; apply Hto, Hsub, Hin).
  destruct (findPath_guarded e start target obstacles Hs Ht Hto') as (r & Hr & Hres).
  assert (Hp : isPath e (obstacleSet obstacles) start target path').
  { apply (isPath_fewer_obstacles e _ (obstacleSet obstacles')); [|exact Hpath].
    unfold obstacleSet. intros p. rewrite !elem_of_list_to_set. apply Hsub. }
  destruct r as [path|]; [|exfalso; apply (Hres _ Hp)].
  exists path. split; [exact Hr | apply Hres, Hp].
Qed.

Lemma fewer_obstacles_no_longer_path_witness :
  exists path,
    findPath board10 (mkPos 0 0) (mkPos 3 0) [mkPos 1 0] = Some (Some path) /\
    (length path <= 10)%nat.
Proof.
  apply (fewer_obstacles_no_longer_path board10 (mkPos 0 0) (mkPos 3 0)
           [mkPos 1 0] [mkPos 1 0; mkPos 1 1; mkPos 1 2] aroundWall).
  - intros p Hp. apply list_elem_of_singleton in Hp. subst p. left.
  - vm_compute. reflexivity.
Defined.

Lemma adjacent_sym a b : adjacent a b -> adjacent b a.
Proof. unfold adjacent. lia. Qed.

Lemma isPath_reverse e obs s t l :
  free e obs s -> isPath e obs s t l -> isPath e obs t s (reverse l).
Proof.
  intros Hfs (Hh & Hl & Hlink). repeat split.
  - rewrite head_reverse. exact Hl.
  - rewrite last_reverse. exact Hh.
  - assert (Hgen : forall l0 a, free e obs a -> linked e obs (a :: l0) ->
                                linked e obs (reverse (a :: l0))).
    { induction l0 as [|b l0 IH]; intros a Ha Hlk; [exact I|].
      apply linked_cons in Hlk as (Hab & Hfb & Hlk).
      pose proof (IH b Hfb Hlk) as Hrev.
      rewrite reverse_cons in Hrev |- *. rewrite reverse_cons. rewrite <- app_assoc.
      cbn [app]. apply linked_app_one; [exact Hrev | apply adjacent_sym, Hab | exact Ha]. }
    destruct l as [|a l]; [exact I|]. cbn in Hh. injection Hh as ->.
    apply Hgen; assumption.
Qed.

(** X19: the way back is as long as the way there.  If [start] is not an
    obstacle either and [findPath] returns a path from [start] to [target],
    it returns a path with as many cells from [target] to [start]. *)
Theorem findPath_length_symmetric
    (e : PathfindingEngine) (start target : Pos) (obstacles path : list Pos) :
  start ∉ obstacles ->
  findPath e start target obstacles = Some (Some path) ->
  exists back,
    findPath e target start obstacles = Some (Some back) /\
    length back = length path.
Proof.
  intros Hso Hf. destruct (findPath_some _ _ _ _ _ Hf) as (Hs & Ht & Hto & Hpath & Hmin).
  assert (Hfs : free e (obstacleSet obstacles) start).
  { split; [exact Hs|]. unfold obstacleSet. rewrite elem_of_list_to_set. exact Hso. }
  assert (Hft : free e (obstacleSet obstacles) target).
  { split; [exact Ht|]. unfold obstacleSet. rewrite elem_of_list_to_set. exact Hto. }
  destruct (findPath_guarded e target start obstacles Ht Hs Hso) as (r & Hr & Hres).
  pose proof (isPath_reverse _ _ _ _ _ Hfs Hpath) as Hrev.
  destruct r as [back|]; [|exfalso; apply (Hres _ Hrev)].
  destruct Hres as (Hback & Hbmin).
  exists back. split; [exact Hr|].
  pose proof (Hbmin _ Hrev) as H1. rewrite length_reverse in H1.
  pose proof (Hmin _ (isPath_reverse _ _ _ _ _ Hft Hback)) as H2.
  rewrite length_reverse in H2. lia.
Qed.

Lemma findPath_length_symmetric_witness :
  exists back,
    findPath board10 (mkPos 3 0) (mkPos 0 0) [mkPos 1 0; mkPos 1 1; mkPos 1 2]
    = Some (Some back) /\
    length back = 10%nat.
Proof.
  apply (findPath_length_symmetric board10 (mkPos 0 0) (mkPos 3 0)
           [mkPos 1 0; mkPos 1 1; mkPos 1 2] aroundWall).
  - rewrite !elem_of_cons, elem_of_nil. intros [H|[H|[H|H]]]; try discriminate H; exact H.
  - vm_compute. reflexivity.
Defined.

(** *** The next move, the safety check and the scores *)

Lemma getNextMoveFromPath_adjacent a b rest :
  adjacent a b ->
  exists d, getNextMoveFromPath (Some (a :: b :: rest)) = Some d /\ getMovePosition a d = b.
Proof.
  intros Hab. destruct a as [ax ay], b as [bx by_]. unfold adjacent in Hab. cbn [x y] in Hab.
  unfold getNextMoveFromPath. cbn [x y].
  assert ((bx = ax + 1 /\ by_ = ay) \/ (bx = ax - 1 /\ by_ = ay) \/
          (bx = ax /\ by_ = ay + 1) \/ (bx = ax /\ by_ = ay - 1))
    as [[-> ->]|[[-> ->]|[[-> ->]|[-> ->]]]] by lia.
  - exists Right. rewrite (proj2 (Z.eqb_eq _ _)) by lia. split; reflexivity.
  - exists Left. rewrite (proj2 (Z.eqb_neq (ax - 1 - ax) 1)) by lia.
    rewrite (proj2 (Z.eqb_eq _ _)) by lia. split; reflexivity.
  - exists Down. rewrite (proj2 (Z.eqb_neq (ax - ax) 1)) by lia.
    rewrite (proj2 (Z.eqb_neq (ax - ax) (-1))) by lia.
    rewrite (proj2 (Z.eqb_eq _ _)) by lia. split; reflexivity.
  - exists Up. rewrite (proj2 (Z.eqb_neq (ax - ax) 1)) by lia.
    rewrite (proj2 (Z.eqb_neq (ax - ax) (-1))) by lia.
    rewrite (proj2 (Z.eqb_neq (ay - 1 - ay) 1)) by lia.
    rewrite (proj2 (Z.eqb_eq _ _)) by lia. split; reflexivity.
Qed.

(** The shape of a returned path: one cell when [start] is [target], and
    otherwise [start], a free neighbour of it, and the rest. *)
Lemma findPath_shape e start target obstacles path :
  findPath e start target obstacles = Some (Some path) ->
  (start = target /\ path = [start]) \/
  (start <> target /\
   exists next rest,
     path = start :: next :: rest /\ adjacent start next /\
     free e (obstacleSet obstacles) next).
Proof.
  intros Hf. destruct (findPath_some _ _ _ _ _ Hf) as (_ & _ & _ & (Hh & Hl & Hlink) & Hmin).
  destruct path as [|a [|b rest]]; [discriminate| |].
  - cbn in Hh, Hl. left. split; congruence.
  - cbn in Hh. injection Hh as ->.
    destruct (decide (start = target)) as [->|Hne].
    + pose proof (Hmin [target] (isPath_singleton e _ target)) as Hle. cbn in Hle. lia.
    + right. split; [exact Hne|]. exists b, rest.
      apply linked_cons in Hlink as (Hab & Hfb & _). auto.
Qed.

(** X20: the recommended move is the first step of the path and is a safe
    move.  When [findPath] returns a path and [start] differs from
    [target], [getNextMoveFromPath] gives a direction; moving from [start]
    in that direction lands on the second cell of the path, and the
    direction is one of [findSafeMoves].  When [start] is [target] the path
    is that one cell and there is no next move. *)
Theorem next_move_is_safe_first_step
    (e : PathfindingEngine) (start target : Pos) (obstacles path : list Pos) :
  findPath e start target obstacles = Some (Some path) ->
  (start = target -> path = [start] /\ getNextMoveFromPath (Some path) = None) /\
  (start <> target ->
   exists d next rest,
     path = start :: next :: rest /\
     getNextMoveFromPath (Some path) = Some d /\
     getMovePosition start d = next /\
     d ∈ findSafeMoves e start obstacles).
Proof.
  intros Hf. destruct (findPath_shape _ _ _ _ _ Hf)
    as [(Heq & ->)|(Hne & next & rest & -> & Hadj & Hv & Hno)].
  - split; [intros _; split; reflexivity | congruence].
  - split; [congruence|]. intros _.
    destruct (getNextMoveFromPath_adjacent start next rest Hadj) as (d & Hd & Hm).
    exists d, next, rest. repeat split; try assumption.
    apply findSafeMoves_spec. unfold legalMove. rewrite Hm. split; [exact Hv|].
    unfold obstacleSet in Hno. rewrite elem_of_list_to_set in Hno. exact Hno.
Qed.

Lemma next_move_is_safe_first_step_witness :
  getNextMoveFromPath (Some aroundWall) = Some Down /\
  Down ∈ findSafeMoves board10 (mkPos 0 0) [mkPos 1 0; mkPos 1 1; mkPos 1 2].
Proof.
  destruct (next_move_is_safe_first_step board10 (mkPos 0 0) (mkPos 3 0)
              [mkPos 1 0; mkPos 1 1; mkPos 1 2] aroundWall) as (_ & H);
    [vm_compute; reflexivity|].
  destruct H as (d & next & rest & _ & Hd & _ & Hsafe); [discriminate|].
  assert (d = Down) as -> by (vm_compute in Hd; congruence).
  split; [reflexivity | exact Hsafe].
Defined.

(** X21: [isPathSafe] accepts what [findPath] returns.  With the same
    obstacles the check is true for every returned path and false for
    [null]. *)
Theorem findPath_result_passes_isPathSafe
    (e : PathfindingEngine) (start target : Pos) (obstacles : list Pos)
    (r : option (list Pos)) :
  findPath e start target obstacles = Some r ->
  isPathSafe r obstacles = match r with Some _ => true | None => false end.
Proof.
  intros Hf. destruct r as [path|]; [|reflexivity].
  destruct (findPath_some _ _ _ _ _ Hf) as (_ & _ & _ & (Hh & _ & Hlink) & _).
  destruct path as [|a rest]; [discriminate|]. cbn [isPathSafe].
  clear Hh Hf. revert a Hlink. induction rest as [|b rest IH]; intros a Hlink; [reflexivity|].
  apply linked_cons in Hlink as (_ & (_ & Hno) & Hlink).
  cbn [forallb]. rewrite bool_decide_eq_false_2 by exact Hno. cbn [negb andb].
  apply (IH b Hlink).
Qed.

Lemma findPath_result_passes_isPathSafe_witness :
  isPathSafe (Some aroundWall) [mkPos 1 0; mkPos 1 1; mkPos 1 2] = true.
Proof.
  apply (findPath_result_passes_isPathSafe board10 (mkPos 0 0) (mkPos 3 0)
           [mkPos 1 0; mkPos 1 1; mkPos 1 2] (Some aroundWall)).
  vm_compute. reflexivity.
Defined.

Lemma getNeighbors_length e p : (length (getNeighbors e p) <= 4)%nat.
Proof.
  unfold getNeighbors. etransitivity; [apply List.filter_length_le|]. reflexivity.
Qed.

Lemma calculateSpaceScore_le e p obstacles : (calculateSpaceScore e p obstacles <= 4)%nat.
Proof.
  unfold calculateSpaceScore. etransitivity; [apply List.filter_length_le|].
  apply getNeighbors_length.
Qed.

Lemma calculateCenterScore_range e p :
  isValidPosition e p = true -> (0 <= calculateCenterScore e p <= 4)%R.
Proof.
  intros Hv. apply isValidPosition_iff in Hv as ((Hx0 & Hx1) & _).
  unfold calculateCenterScore.
  set (cx := (IZR (boardWidth e) / 2)%R). set (cy := (IZR (boardHeight e) / 2)%R).
  set (dist := sqrt _).
  assert (Hcx : (0 < cx)%R).
  { unfold cx. assert (1 <= IZR (boardWidth e))%R by (apply IZR_le; lia). lra. }
  assert (Hmax : (0 < Rmax cx cy)%R) by (pose proof (Rmax_l cx cy); lra).
  assert (Hd : (0 <= dist)%R) by apply sqrt_pos.
  assert (Hq : (0 <= dist / Rmax cx cy)%R).
  { apply Rmult_le_pos; [exact Hd|]. left. apply Rinv_0_lt_compat, Hmax. }
  split; [apply Rmax_l|]. apply Rmax_lub; lra.
Qed.

Lemma calculateMobilityScore_range e p obstacles :
  (0 <= calculateMobilityScore e p obstacles <= 4)%R.
Proof.
  unfold calculateMobilityScore. set (total := fold_left _ _ _).
  pose proof (pos_INR total). split; [apply Rmin_glb; lra | apply Rmin_l].
Qed.

(** X22: the score of a move into a cell of the board lies between 0 and
    170: at most 50 for the distance, 40 for space, 20 for the centre and 60
    for mobility. *)
Theorem move_score_within_0_170
    (e : PathfindingEngine) (movePos target : Pos) (obstacles : list Pos) :
  isValidPosition e movePos = true ->
  (0 <= calculateMoveScore e movePos target obstacles <= 170)%R.
Proof.
  intros Hv. unfold calculateMoveScore.
  pose proof (calculateCenterScore_range e movePos Hv) as Hc.
  pose proof (calculateMobilityScore_range e movePos obstacles) as Hm.
  pose proof (pos_INR (calculateSpaceScore e movePos obstacles)) as Hs0.
  assert (Hs1 : (INR (calculateSpaceScore e movePos obstacles) <= 4)%R).
  { pose proof (le_INR _ _ (calculateSpaceScore_le e movePos obstacles)) as H4.
    simpl in H4. lra. }
  assert (Hh : (0 <= IZR (heuristic movePos target))%R).
  { apply IZR_le. unfold heuristic. lia. }
  assert (Hd : (0 <= Rmax 0 (50 - IZR (heuristic movePos target)) <= 50)%R).
  { split; [apply Rmax_l | apply Rmax_lub; lra]. }
  lra.
Qed.

Lemma move_score_within_0_170_witness :
  (0 <= calculateMoveScore board10 (mkPos 4 4) (mkPos 5 5) [mkPos 4 5] <= 170)%R.
Proof.
  apply (move_score_within_0_170 board10 (mkPos 4 4) (mkPos 5 5) [mkPos 4 5]).
  reflexivity.
Defined.

(** X23: the priority of the suggestions is 'critical' exactly when there
    is no move to suggest, which is exactly when no neighbour is in bounds
    and free; with a single move it is 'high'. *)
Theorem fallback_priority_critical_iff_no_move
    (e : PathfindingEngine) (pos target : Pos) (obstacles : list Pos) :
  let suggestions := getFallbackSuggestions e pos target obstacles in
  (priority suggestions = Critical <-> moves suggestions = []) /\
  (moves suggestions = [] <-> forall d, ~ legalMove e pos obstacles d) /\
  (length (moves suggestions) = 1%nat -> priority suggestions = High).
Proof.
  intros suggestions. subst suggestions.
  destruct (getFallbackSuggestions_moves e pos target obstacles) as (Hperm & _).
  pose proof (Permutation_length Hperm) as Hlen. rewrite length_map in Hlen.
  assert (Hsafe : findSafeMoves e pos obstacles = [] <-> forall d, ~ legalMove e pos obstacles d).
  { split.
    - intros Hnil d Hd. apply findSafeMoves_spec in Hd. rewrite Hnil in Hd. inversion Hd.
    - intros Hnone. destruct (findSafeMoves e pos obstacles) as [|d ds] eqn:E; [reflexivity|].
      exfalso. apply (Hnone d), findSafeMoves_spec. rewrite E. left. }
  assert (Hmoves : moves (getFallbackSuggestions e pos target obstacles) = [] <->
                   findSafeMoves e pos obstacles = []).
  { split; intros H.
    - apply length_zero_iff_nil. rewrite <- Hlen, H. reflexivity.
    - apply length_zero_iff_nil. rewrite Hlen, H. reflexivity. }
  split; [|split].
  - rewrite Hmoves. unfold getFallbackSuggestions in *.
    destruct (findSafeMoves e pos obstacles) as [|d ds]; [cbn; tauto|].
    cbn [length Nat.eqb priority moves] in *.
    split; [|discriminate]. unfold getPriorityLevel.
    destruct (length _) as [|n]; [discriminate Hlen|]. cbn [Nat.eqb].
    destruct (_ || _); [discriminate|]. destruct (Rgtb _ _); discriminate.
  - rewrite Hmoves. exact Hsafe.
  - unfold getFallbackSuggestions in *.
    destruct (findSafeMoves e pos obstacles) as [|d ds]; [cbn; discriminate|].
    cbn [length Nat.eqb priority moves] in *. intros H1.
    unfold getPriorityLevel. rewrite H1. reflexivity.
Qed.

Lemma fallback_priority_critical_iff_no_move_witness :
  priority (getFallbackSuggestions board10 (mkPos 0 0) (mkPos 5 5) [mkPos 0 1; mkPos 1 0])
  = Critical.
Proof.
  apply (fallback_priority_critical_iff_no_move board10 (mkPos 0 0) (mkPos 5 5)
           [mkPos 0 1; mkPos 1 0]).
  apply (fallback_priority_critical_iff_no_move board10 (mkPos 0 0) (mkPos 5 5)
           [mkPos 0 1; mkPos 1 0]).
  intros d (Hv & Hno). destruct d; cbn in Hv, Hno; try discriminate; set_solver.
Defined.

End PathfindingFacts.

Module CommentatorFacts.
Import Commentator.

Definition bounded (c : AICommentator) : Prop :=
  (length (messageQueue c) <= 5)%nat /\ (length (messageHistory c) <= 10)%nat.

Lemma queueMessage_bounded now m p c : bounded c -> bounded (queueMessage now m p c).
Proof.
  intros (Hq & Hh). unfold queueMessage, bounded.
  destruct (negb (enabled c)); [auto|]. cbn [messageQueue messageHistory].
  split; [|exact Hh].
  destruct (_ <? _)%nat eqn:E; [rewrite length_firstn; lia | apply Nat.ltb_ge in E; exact E].
Qed.

Lemma update_bounded now c : bounded c -> bounded (update now c).
Proof.
  intros (Hq & Hh). unfold update, bounded.
  destruct (negb (enabled c)); [auto|].
  destruct (_ <=? _); [|auto].
  destruct (messageQueue c) as [|msg rest]; cbn [messageQueue messageHistory]; [auto|].
  cbn [length] in Hq. split; [lia|]. unfold maxHistory.
  destruct (_ <? _)%nat eqn:E.
  - rewrite removelast_firstn_len, length_firstn. cbn [length] in *. lia.
  - apply Nat.ltb_ge in E. exact E.
Qed.

(** X9: the commentator's buffers are bounded.  Over any sequence of
    operations the queue never holds more than 5 messages and the history
    never more than 10. *)
Theorem commentator_buffers_bounded (c : AICommentator) (ops : list Op) :
  (length (messageQueue c) <= 5)%nat ->
  (length (messageHistory c) <= 10)%nat ->
  (length (messageQueue (run c ops)) <= 5)%nat /\
  (length (messageHistory (run c ops)) <= 10)%nat.
Proof.
  intros Hq Hh. assert (Hb : bounded c) by (split; assumption). clear Hq Hh.
  revert c Hb. induction ops as [|op ops IH]; intros c Hb; [exact Hb|].
  cbn [run fold_left]. apply IH.
  destruct op; cbn [step]; try exact Hb.
  - apply queueMessage_bounded, Hb.
  - apply update_bounded, Hb.
  - unfold onDangerDetected. destruct (_ <=? _); [apply queueMessage_bounded|]; exact Hb.
  - unfold onGameOver. destruct isHighScore; apply queueMessage_bounded, Hb.
Qed.

Lemma commentator_buffers_bounded_witness :
  (length (messageQueue (run initial (repeat (QueueMessage 10 "Nice catch!" "normal") 9)))
   <= 5)%nat.
Proof.
  apply (commentator_buffers_bounded initial); simpl; lia.
Defined.



End CommentatorFacts.

(** ** Facts about HintSystem *)

Module HintFacts.
Import Pathfinding PathfindingFacts Hints.

(** What every operation keeps: no path is held while hints are off, the
    recommended move is the one read off the current path, and the first
    step of the current path is a unit move. *)
Definition consistent (h : HintSystem) : Prop :=
  (hintsEnabled h = false -> currentPath h = None) /\
  nextMove h = getNextMoveFromPath (currentPath h) /\
  (forall a b rest, currentPath h = Some (a :: b :: rest) -> adjacent a b).

Lemma construct_consistent width height : consistent (construct width height).
Proof. split; [|split]; [reflexivity | reflexivity | discriminate]. Qed.

Lemma updatePath_total snakeHead foodPosition snakeBody h :
  exists h', updatePath snakeHead foodPosition snakeBody h = Some h'.
Proof.
  unfold updatePath. destruct (hintsEnabled h); cbn [negb]; [|eauto].
  destruct (findPath_total (pathfindingEngine h) snakeHead foodPosition (slice1 snakeBody))
    as (r & ->). cbn. eauto.
Qed.

Lemma updatePath_consistent snakeHead foodPosition snakeBody h h' :
  consistent h ->
  updatePath snakeHead foodPosition snakeBody h = Some h' ->
  consistent h'.
Proof.
  intros Hc. unfold updatePath.
  destruct (hintsEnabled h) eqn:He; cbn [negb]; [|intros [= <-]; exact Hc].
  destruct (findPath (pathfindingEngine h) snakeHead foodPosition (slice1 snakeBody))
    as [r|] eqn:Hf; cbn; [|discriminate].
  intros [= <-]. split; [|split]; cbn.
  - congruence.
  - reflexivity.
  - intros a b rest ->.
    destruct (findPath_shape _ _ _ _ _ Hf) as [(_ & [=])|(_ & next & rest' & [= -> -> ->] & Hadj & _)].
    exact Hadj.
Qed.

Lemma step_consistent h op h' : consistent h -> step h op = Some h' -> consistent h'.
Proof.
  intros (H1 & H2 & H3). destruct op; cbn [step].
  - intros [= <-]. unfold toggleHints. destruct (hintsEnabled h) eqn:He; cbn.
    + split; [|split]; cbn; [reflexivity | reflexivity | discriminate].
    + split; [|split]; cbn; [discriminate | exact H2 | exact H3].
  - intros [= <-]. split; [|split]; cbn; [discriminate | exact H2 | exact H3].
  - intros [= <-]. split; [|split]; cbn; [reflexivity | reflexivity | discriminate].
  - apply updatePath_consistent. split; [|split]; assumption.
  - intros [= <-]. split; [|split]; cbn; [exact H1 | exact H2 | exact H3].
  - intros [= <-]. split; [|split]; cbn; [reflexivity | reflexivity | discriminate].
Qed.

Lemma hint_step_total h op : exists h', step h op = Some h'.
Proof. destruct op; cbn [step]; eauto using updatePath_total. Qed.

Lemma run_consistent ops : forall h,
  consistent h -> exists h', run h ops = Some h' /\ consistent h'.
Proof.
  induction ops as [|op ops IH]; intros h Hc; [cbn; eauto|].
  destruct (hint_step_total h op) as (h1 & Hs). cbn [run]. rewrite Hs. cbn.
  apply IH. exact (step_consistent h op h1 Hc Hs).
Qed.

Lemma consistent_hasPathToFood h :
  consistent h -> (hasPathToFood h = true <-> nextMove h <> None).
Proof.
  intros (_ & H2 & H3). unfold hasPathToFood. rewrite H2.
  destruct (currentPath h) as [[|a [|b rest]]|]; cbn [length Nat.ltb Nat.leb];
    try (split; [discriminate | intros H; exfalso; apply H; reflexivity]).
  destruct (getNextMoveFromPath_adjacent a b rest (H3 a b rest eq_refl)) as (d & -> & _).
  split; [discriminate | reflexivity].
Qed.

(** X24: the hint state stays consistent.  Every sequence of operations
    on a new HintSystem runs to the end; afterwards no path and no move is
    held while hints are off, the recommended move is the one that
    [getNextMoveFromPath] reads off the current path, and [hasPathToFood]
    is true exactly when a move is recommended. *)
Theorem hint_state_stays_consistent (width height : Z) (ops : list Op) :
  exists h,
    run (construct width height) ops = Some h /\
    (hintsEnabled h = false -> currentPath h = None /\ nextMove h = None) /\
    nextMove h = getNextMoveFromPath (currentPath h) /\
    (hasPathToFood h = true <-> nextMove h <> None).
Proof.
  destruct (run_consistent ops (construct width height) (construct_consistent width height))
    as (h & Hr & Hc).
  exists h. split; [exact Hr|]. pose proof (consistent_hasPathToFood h Hc) as Hp.
  destruct Hc as (H1 & H2 & _). split; [|split; [exact H2 | exact Hp]].
  intros Hoff. pose proof (H1 Hoff) as Hcp. split; [exact Hcp|].
  rewrite H2, Hcp. reflexivity.
Qed.

(** X25: the hint is a safe move.  With hints on, [updatePath] returns,
    and a move it recommends is one of [getSafeMoves] for the same head and
    body; the current path starts at the head and continues with the cell
    that the move leads to. *)
Theorem recommended_move_is_safe
    (h : HintSystem) (snakeHead foodPosition : Pos) (snakeBody : list Pos) :
  hintsEnabled h = true ->
  exists h',
    updatePath snakeHead foodPosition snakeBody h = Some h' /\
    forall d, nextMove h' = Some d ->
      d ∈ getSafeMoves h' snakeHead snakeBody /\
      exists rest,
        currentPath h' = Some (snakeHead :: getMovePosition snakeHead d :: rest).
Proof.
  intros He. unfold updatePath, getSafeMoves. rewrite He. cbn [negb].
  destruct (findPath_total (pathfindingEngine h) snakeHead foodPosition (slice1 snakeBody))
    as (r & Hf). rewrite Hf. cbn. eexists. split; [reflexivity|]. cbn.
  intros d Hd. destruct r as [path|]; [|discriminate].
  destruct (findPath_shape _ _ _ _ _ Hf)
    as [(_ & ->)|(_ & next & rest & -> & Hadj & Hv & Hno)]; [discriminate|].
  destruct (getNextMoveFromPath_adjacent snakeHead next rest Hadj) as (d' & Hd' & Hm).
  rewrite Hd' in Hd. injection Hd as ->. rewrite Hm. split; [|eauto].
  apply findSafeMoves_spec. unfold legalMove. rewrite Hm. split; [exact Hv|].
  unfold obstacleSet in Hno. rewrite elem_of_list_to_set in Hno. exact Hno.
Qed.

Lemma recommended_move_is_safe_witness :
  exists h',
    updatePath (mkPos 0 0) (mkPos 3 0) [mkPos 0 0; mkPos 1 0; mkPos 1 1; mkPos 1 2]
      (enableHints (construct 10 10)) = Some h' /\
    forall d, nextMove h' = Some d ->
      d ∈ getSafeMoves h' (mkPos 0 0) [mkPos 0 0; mkPos 1 0; mkPos 1 1; mkPos 1 2] /\
      exists rest,
        currentPath h' = Some (mkPos 0 0 :: getMovePosition (mkPos 0 0) d :: rest).
Proof.
  apply (recommended_move_is_safe (enableHints (construct 10 10)) (mkPos 0 0) (mkPos 3 0)
           [mkPos 0 0; mkPos 1 0; mkPos 1 1; mkPos 1 2]).
  reflexivity.
Defined.

End HintFacts.

(** ** Facts about AIGhost *)

Module GhostFacts.
Import Pathfinding PathfindingFacts Ghost.

Definition trailBounded (g : AIGhost) : Prop :=
  (length (trailEffect g) <= 5)%nat /\
  Forall (fun t => 0 <= alpha t <= 1 # 2)%Q (trailEffect g).

Lemma length_removelast_cons {A : Type} (a : A) (l : list A) :
  length (removelast (a :: l)) = length l.
Proof.
  rewrite removelast_firstn_len, length_firstn. cbn [length]. lia.
Qed.

Lemma pushTrail_length head trail :
  (length trail <= 5)%nat -> (length (pushTrail head trail) <= 5)%nat.
Proof.
  intros H. unfold pushTrail.
  destruct (Nat.ltb_spec 5 (length (mkTrailCell head (1 # 2) :: trail))) as [Hlt|Hge].
  - rewrite length_removelast_cons. exact H.
  - exact Hge.
Qed.

Lemma fade_length trail : length (fade trail) = length trail.
Proof. unfold fade. apply length_imap. Qed.

Lemma fade_alpha trail : Forall (fun t => 0 <= alpha t <= 1 # 2)%Q (fade trail).
Proof.
  unfold fade. apply Forall_forall. intros t Ht.
  apply list_elem_of_lookup in Ht as (i & Hi).
  rewrite list_lookup_imap in Hi.
  destruct (trail !! i) as [t0|]; [|discriminate]. injection Hi as <-. cbn [alpha].
  split; [apply Q.le_max_l|].
  apply Q.max_lub; [discriminate|].
  unfold Qle, Qminus, Qplus, Qopp, Qmult, inject_Z. cbn [Qnum Qden]. lia.
Qed.

Lemma update_total foodPosition playerBody g :
  exists g', update foodPosition playerBody g = Some g'.
Proof.
  unfold update. destruct (body g) as [|head rest]; [eauto|].
  destruct (enabled g); cbn [negb]; [|eauto].
  destruct (findPath_total (pathfinder g) head foodPosition (rest ++ playerBody)) as (r & ->).
  cbn. eauto.
Qed.

Lemma moveTo_trail g head nextPos d :
  (length (trailEffect g) <= 5)%nat ->
  (length (trailEffect (moveTo g head nextPos d)) <= 5)%nat.
Proof. intros H. cbn. apply pushTrail_length, H. Qed.

Lemma update_trailBounded foodPosition playerBody g g' :
  trailBounded g -> update foodPosition playerBody g = Some g' -> trailBounded g'.
Proof.
  intros Hb. unfold update. destruct (body g) as [|head rest]; [intros [= <-]; exact Hb|].
  destruct (enabled g); cbn [negb]; [|intros [= <-]; exact Hb].
  destruct (findPath _ _ _ _) as [r|]; cbn; [|discriminate].
  intros [= <-]. destruct Hb as (Hlen & _).
  split; [|apply fade_alpha]. cbn [fadeTrail trailEffect]. rewrite fade_length.
  assert (Helse : (length (trailEffect
                     match findSafeMoves (pathfinder g) head (rest ++ playerBody) with
                     | move :: _ => moveTo g head (getMovePosition head move) move
                     | [] => g
                     end) <= 5)%nat).
  { destruct (findSafeMoves (pathfinder g) head (rest ++ playerBody));
      [exact Hlen | apply moveTo_trail, Hlen]. }
  destruct r as [[|? [|nextPos ?]]|]; try exact Helse.
  apply moveTo_trail, Hlen.
Qed.

Lemma step_trailBounded g op g' : trailBounded g -> step g op = Some g' -> trailBounded g'.
Proof.
  intros Hb. destruct op; cbn [step]; try (intros [= <-]; exact Hb).
  - intros [= <-]. split; [cbn; lia | constructor].
  - apply update_trailBounded, Hb.
  - intros [= <-]. unfold grow. destruct (body g); exact Hb.
Qed.

Lemma ghost_step_total g op : exists g', step g op = Some g'.
Proof. destruct op; cbn [step]; eauto using update_total. Qed.

(** X26: the trail of the ghost stays short and faint.  Every sequence of
    operations on a new AIGhost runs to the end, and afterwards the trail
    has at most five cells, each with an alpha between 0 and 0.5. *)
Theorem ghost_trail_is_bounded (width height : Z) (ops : list Op) :
  exists g,
    run (construct width height) ops = Some g /\
    (length (trailEffect g) <= 5)%nat /\
    Forall (fun t => 0 <= alpha t <= 1 # 2)%Q (trailEffect g).
Proof.
  assert (H : forall g, trailBounded g -> exists g', run g ops = Some g' /\ trailBounded g').
  { induction ops as [|op ops IH]; intros g Hb; [cbn; eauto|].
    destruct (ghost_step_total g op) as (g1 & Hs). cbn [run]. rewrite Hs. cbn.
    apply IH. exact (step_trailBounded g op g1 Hb Hs). }
  apply H. split; [cbn; lia | constructor].
Qed.

Lemma getDirection_adjacent a b :
  adjacent a b -> getMovePosition a (getDirection a b) = b.
Proof.
  destruct a as [ax ay], b as [bx by_]. unfold adjacent, getDirection. cbn [x y].
  intros H.
  destruct (Z.ltb_spec ax bx); [cbn; f_equal; lia|].
  destruct (Z.ltb_spec bx ax); [cbn; f_equal; lia|].
  destruct (Z.ltb_spec ay by_); cbn; f_equal; lia.
Qed.

(** X27: the ghost steps only onto a free neighbour.  An enabled
    [update] of a ghost with a body returns and keeps the length of the
    body.  If some move from the head is legal (in bounds, not on the rest
    of the ghost, not on the player), the head moves by a legal move, the
    direction is set to that move and the last cell is dropped; when the
    search found a path with more than one cell, the move is its first
    step.  If no move is legal, body and direction stay. *)
Theorem ghost_steps_onto_free_neighbour
    (g : AIGhost) (head : Pos) (rest : list Pos) (foodPosition : Pos)
    (playerBody : list Pos) :
  enabled g = true ->
  body g = head :: rest ->
  let obstacles := rest ++ playerBody in
  exists g',
    update foodPosition playerBody g = Some g' /\
    length (body g') = length (body g) /\
    ((exists d, legalMove (pathfinder g) head obstacles d) ->
     legalMove (pathfinder g) head obstacles (direction g') /\
     body g' = removelast (getMovePosition head (direction g') :: head :: rest) /\
     forall next path,
       findPath (pathfinder g) head foodPosition obstacles
       = Some (Some (head :: next :: path)) ->
       getMovePosition head (direction g') = next) /\
    ((forall d, ~ legalMove (pathfinder g) head obstacles d) ->
     body g' = body g /\ direction g' = direction g).
Proof.
  intros He Hb obstacles. unfold update. rewrite Hb, He. cbn [negb].
  destruct (findPath_total (pathfinder g) head foodPosition obstacles) as (r & Hf).
  fold obstacles. rewrite Hf. cbn. eexists. split; [reflexivity|].
  assert (Helse :
    (forall next path, r <> Some (head :: next :: path)) ->
    let moved := match findSafeMoves (pathfinder g) head obstacles with
                 | move :: _ => moveTo g head (getMovePosition head move) move
                 | [] => g
                 end in
    length (body (fadeTrail moved)) = length (head :: rest) /\
    ((exists d, legalMove (pathfinder g) head obstacles d) ->
     legalMove (pathfinder g) head obstacles (direction (fadeTrail moved)) /\
     body (fadeTrail moved)
     = removelast (getMovePosition head (direction (fadeTrail moved)) :: head :: rest) /\
     forall next path,
       Some r = Some (Some (head :: next :: path)) ->
       getMovePosition head (direction (fadeTrail moved)) = next) /\
    ((forall d, ~ legalMove (pathfinder g) head obstacles d) ->
     body (fadeTrail moved) = head :: rest /\
     direction (fadeTrail moved) = direction g)).
  { intros Hr moved. subst moved.
    destruct (findSafeMoves (pathfinder g) head obstacles) as [|move ms] eqn:Hs.
    - cbn. rewrite Hb. split; [reflexivity|]. split; [|auto].
      intros (d & Hd). apply findSafeMoves_spec in Hd. rewrite Hs in Hd. inversion Hd.
    - assert (Hm : legalMove (pathfinder g) head obstacles move).
      { apply findSafeMoves_spec. rewrite Hs. left. }
      cbn [fadeTrail moveTo body direction]. rewrite Hb. split; [|split].
      + rewrite length_removelast_cons. reflexivity.
      + intros _. split; [exact Hm|]. split; [reflexivity|].
        intros next path [= ->]. exfalso. exact (Hr next path eq_refl).
      + intros Hnone. exfalso. exact (Hnone move Hm). }
  destruct r as [path|]; [|apply Helse; discriminate].
  destruct (findPath_shape _ _ _ _ _ Hf)
    as [(Heq & ->)|(_ & next & rest' & -> & Hadj & Hv & Hno)];
    [apply Helse; discriminate|].
  pose proof (getDirection_adjacent head next Hadj) as Hd.
  assert (Hm : legalMove (pathfinder g) head obstacles (getDirection head next)).
  { unfold legalMove. rewrite Hd. split; [exact Hv|].
    unfold obstacleSet in Hno. rewrite elem_of_list_to_set in Hno. exact Hno. }
  cbn [fadeTrail moveTo body direction]. rewrite Hb. split; [|split].
  - rewrite length_removelast_cons. reflexivity.
  - intros _. split; [exact Hm|]. rewrite Hd. split; [reflexivity|].
    intros next' path' [= -> _]. reflexivity.
  - intros Hnone. exfalso. exact (Hnone _ Hm).
Qed.

Lemma ghost_steps_onto_free_neighbour_witness :
  exists g',
    update (mkPos 3 0) [mkPos 1 0; mkPos 1 1; mkPos 1 2]
      (enable (init 0 0 (construct 10 10))) = Some g' /\
    body g' = [mkPos 0 1] /\ direction g' = Down.
Proof.
  destruct (ghost_steps_onto_free_neighbour (enable (init 0 0 (construct 10 10)))
              (mkPos 0 0) [] (mkPos 3 0) [mkPos 1 0; mkPos 1 1; mkPos 1 2]
              eq_refl eq_refl) as (g' & Hu & _ & Hmove & _).
  exists g'. split; [exact Hu|].
  destruct Hmove as (_ & Hbody & Hfirst).
  { exists Down. split; [reflexivity|]. cbn.
    repeat (apply not_elem_of_cons; split; [discriminate|]). apply not_elem_of_nil. }
  pose proof (Hfirst (mkPos 0 1)
                [mkPos 0 2; mkPos 0 3; mkPos 1 3; mkPos 2 3; mkPos 2 2; mkPos 2 1;
                 mkPos 2 0; mkPos 3 0]) as Hn.
  assert (Hd : direction g' = Down).
  { destruct (direction g'); cbn in Hn;
      first [reflexivity | (discriminate Hn; vm_compute; reflexivity)]. }
  split; [|exact Hd]. rewrite Hbody, Hd. reflexivity.
Defined.

(** X28: a ghost next to the food takes it.  When the food is an in-bounds
    neighbour of the head, off the rest of the ghost and off the player,
    and the head is in bounds, an enabled [update] puts the head on the
    food, so [checkFoodCollision] holds afterwards. *)
Theorem ghost_takes_adjacent_food
    (g : AIGhost) (head : Pos) (rest : list Pos) (foodPosition : Pos)
    (playerBody : list Pos) :
  enabled g = true ->
  body g = head :: rest ->
  isValidPosition (pathfinder g) head = true ->
  isValidPosition (pathfinder g) foodPosition = true ->
  adjacent head foodPosition ->
  foodPosition ∉ rest ++ playerBody ->
  exists g',
    update foodPosition playerBody g = Some g' /\
    checkFoodCollision g' foodPosition = true.
Proof.
  intros He Hb Hvs Hvt Hadj Hfree. unfold update. rewrite Hb, He. cbn [negb].
  destruct (findPath_guarded _ _ _ _ Hvs Hvt Hfree) as (r & Hf & Hres).
  rewrite Hf. cbn. eexists. split; [reflexivity|].
  assert (Hshort : isPath (pathfinder g) (obstacleSet (rest ++ playerBody))
                     head foodPosition [head; foodPosition]).
  { split; [reflexivity|]. split; [reflexivity|].
    apply linked_cons. split; [exact Hadj|]. split; [|exact I].
    split; [exact Hvt|]. unfold obstacleSet. rewrite elem_of_list_to_set. exact Hfree. }
  destruct r as [path|]; [|exfalso; exact (Hres _ Hshort)].
  destruct Hres as ((Hh & Hl & _) & Hmin). specialize (Hmin _ Hshort). cbn in Hmin.
  assert (Hne : head <> foodPosition).
  { intros <-. destruct head as [hx hy]. unfold adjacent in Hadj. cbn in Hadj. lia. }
  destruct path as [|a [|b [|c path]]]; cbn in Hh, Hl, Hmin; try discriminate; try lia.
  - congruence.
  - injection Hl as ->. unfold checkFoodCollision. cbn [fadeTrail moveTo body].
    rewrite Hb. cbn [removelast]. rewrite !Z.eqb_refl. reflexivity.
Qed.

Lemma ghost_takes_adjacent_food_witness :
  exists g',
    update (mkPos 0 1) [mkPos 1 0] (enable (init 0 0 (construct 10 10))) = Some g' /\
    checkFoodCollision g' (mkPos 0 1) = true.
Proof.
  apply (ghost_takes_adjacent_food (enable (init 0 0 (construct 10 10)))
           (mkPos 0 0) [] (mkPos 0 1) [mkPos 1 0]);
    try reflexivity.
  - unfold adjacent. cbn. lia.
  - cbn. repeat (apply not_elem_of_cons; split; [discriminate|]). apply not_elem_of_nil.
Defined.

End GhostFacts.
